(** * threejs-potree-core: the POC metadata loader, the hierarchy builder
      and the binary point-record decoder worker

    A shallow embedding of

    - the decode worker's [onmessage] handler (the binary decoder worker),
    - the POC loader: [loadPOC], [parse], [getBoundingBoxes], [loadRoot],
      [loadRemainingHierarchy], [parseName],
    - [utils.ts]: [getIndexFromName], [byLevelAndIndex],

    followed by the properties of the specification proved against it and
    by further properties of the code.

    Conventions.  A JavaScript [number] that the code computes with is an
    IEEE-754 binary64 value, modelled by [spec_float] at precision 53 with
    round-to-nearest-even; a [Float32Array] slot holds the binary32 rounding
    of what is stored into it.  Counters, byte offsets and lengths, which
    the code only uses as non-negative integers, are [N]; integers read from
    the payload are [Z].  An [ArrayBuffer] is a list of bytes and a typed
    array is the list of its elements.  A thrown exception (or a rejected
    promise) is the left injection of a sum. *)

From Stdlib Require Import ZArith NArith List String Ascii Bool Lia.
From Stdlib Require Import Floats.SpecFloat.
From stdpp Require Import base option list gmap strings.

Local Open Scope Z_scope.

(* ================================================================== *)
(** * Part I: definitions                                              *)
(* ================================================================== *)

(** ** JavaScript values *)

(** The exceptions: the two the modelled code itself can raise,
    [RangeError] from a [DataView] access outside its buffer and [TypeError]
    from reading a property of [undefined], and whatever a collaborator
    outside the sources raises or rejects with. *)
Inductive JsError : Set :=
| RangeError
| TypeError
| Other (what : string).

Definition JsResult (A : Type) : Type := (JsError + A)%type.

(** *** Numbers: binary64 and binary32 *)

Abbreviation F64 := spec_float (only parsing).
Abbreviation F32 := spec_float (only parsing).

Module Number.

Definition prec64 : Z := 53.
Definition emax64 : Z := 1024.
Definition prec32 : Z := 24.
Definition emax32 : Z := 128.

Definition POSITIVE_INFINITY : F64 := S754_infinity false.
Definition NEGATIVE_INFINITY : F64 := S754_infinity true.
Definition zero : F64 := S754_zero false.

(** An integer as a [number]: exact up to 2^53, correctly rounded above. *)
Definition ofZ (z : Z) : F64 := binary_normalize prec64 emax64 z 0 false.

Definition mul : F64 -> F64 -> F64 := SFmul prec64 emax64.
Definition add : F64 -> F64 -> F64 := SFadd prec64 emax64.
Definition sub : F64 -> F64 -> F64 := SFsub prec64 emax64.
Definition div : F64 -> F64 -> F64 := SFdiv prec64 emax64.

Definition isNaN (x : F64) : bool :=
  match x with S754_nan => true | _ => false end.

Definition isFinite (x : F64) : bool :=
  match x with S754_zero _ | S754_finite _ _ _ => true | _ => false end.

Definition isNegativeZero (x : F64) : bool :=
  match x with S754_zero true => true | _ => false end.

(** [Math.fround], the conversion done by a store into a [Float32Array]. *)
Definition fround (x : F64) : F32 :=
  match x with
  | S754_finite s m e => binary_round prec32 emax32 s m e
  | _ => x
  end.

(** The integer part of a number, rounding towards zero; 0 for NaN and the
    infinities (the first step of ECMAScript's ToUint8 / ToInt32). *)
Definition truncate (x : F64) : Z :=
  match x with
  | S754_finite s m e => cond_Zopp s (Z.shiftl (Z.pos m) e)
  | _ => 0
  end.

(** ToUint8: what a store into a [Uint8Array] keeps of a number. *)
Definition ToUint8 (x : F64) : Z := truncate x mod 256.

End Number.

Module Math.

(** [Math.min] and [Math.max] on two arguments: NaN is contagious and
    [-0] is below [+0]. *)
Definition min (a b : F64) : F64 :=
  if Number.isNaN a || Number.isNaN b then S754_nan
  else match SFcompare a b with
       | Some Lt => a
       | Some Gt => b
       | Some Eq => if Number.isNegativeZero a then a else b
       | None => S754_nan
       end.

Definition max (a b : F64) : F64 :=
  if Number.isNaN a || Number.isNaN b then S754_nan
  else match SFcompare a b with
       | Some Gt => a
       | Some Lt => b
       | Some Eq => if Number.isNegativeZero a then b else a
       | None => S754_nan
       end.

(** [Math.pow(2, n)] for an integer [n]: the power of two nearest to
    2^n in binary64 (exact in the normal and subnormal range, [Infinity]
    above it, 0 below it). *)
Definition pow2 (n : Z) : F64 :=
  binary_normalize Number.prec64 Number.emax64 1 n false.

End Math.

(** A three-element array of numbers ([scale], [offset], [mins], [mean],
    the [min] and [max] of the tight bounding box). *)
Record Vec3 : Set := mkVec3 { v0 : F64; v1 : F64; v2 : F64 }.

(** ** The decode worker *)

(** *** [DataView] over an [ArrayBuffer] *)

Definition ArrayBuffer : Set := list Byte.byte.

Definition byteLength (buffer : ArrayBuffer) : N := N.of_nat (length buffer).

(** One successful [DataView] access: the bytes
    [byteOffset, byteOffset + width) were read. *)
Record Access : Set := mkAccess { byteOffset : N; width : N }.

(** A computation that reads through a [DataView]: the accesses performed
    so far, and either the exception that ended it or its value. *)
Definition View (A : Type) : Type := (list Access * JsResult A)%type.

Definition ret {A} (a : A) : View A := ([], inr a).

Definition throw {A} (e : JsError) : View A := ([], inl e).

Definition bind {A B} (m : View A) (f : A -> View B) : View B :=
  match m with
  | (t, inl e) => (t, inl e)
  | (t, inr a) => let '(t', r) := f a in (t ++ t', r)
  end.

Declare Scope view_scope.
Delimit Scope view_scope with view.
Notation "x <- m ;; k" := (bind m (fun x => k))
  (at level 100, m at next level, right associativity) : view_scope.

Module DataView.

(** The byte at index [k], as a number in 0..255. *)
Definition byteAt (buffer : ArrayBuffer) (k : N) : Z :=
  Z.of_N (Byte.to_N (nth (N.to_nat k) buffer Byte.x00)).

(** The range check every [DataView] getter performs first. *)
Definition inRange (buffer : ArrayBuffer) (offset width : N) : bool :=
  (offset + width <=? byteLength buffer)%N.

(** The unsigned value of [width] bytes from [offset], least significant
    byte first when [littleEndian]. *)
Fixpoint bytesLE (buffer : ArrayBuffer) (offset : N) (width : nat) : Z :=
  match width with
  | O => 0
  | S w => Z.lor (byteAt buffer offset)
                 (Z.shiftl (bytesLE buffer (offset + 1) w) 8)
  end.

Fixpoint bytesBE (buffer : ArrayBuffer) (offset : N) (width : nat) (acc : Z) : Z :=
  match width with
  | O => acc
  | S w => bytesBE buffer (offset + 1) w
                   (Z.lor (Z.shiftl acc 8) (byteAt buffer offset))
  end.

Definition unsignedAt (buffer : ArrayBuffer) (offset : N) (width : nat)
    (littleEndian : bool) : Z :=
  if littleEndian then bytesLE buffer offset width
  else bytesBE buffer offset width 0.

(** Two's complement reading of a 32-bit pattern. *)
Definition toInt32 (u : Z) : Z :=
  if Z.testbit u 31 then u - 2 ^ 32 else u.

Definition access {A} (buffer : ArrayBuffer) (offset : N) (w : nat)
    (value : A) : View A :=
  if inRange buffer offset (N.of_nat w)
  then ([mkAccess offset (N.of_nat w)], inr value)
  else throw RangeError.

Definition getUint8 (buffer : ArrayBuffer) (offset : N) (littleEndian : bool)
    : View Z :=
  access buffer offset 1 (unsignedAt buffer offset 1 littleEndian).

Definition getUint16 (buffer : ArrayBuffer) (offset : N) (littleEndian : bool)
    : View Z :=
  access buffer offset 2 (unsignedAt buffer offset 2 littleEndian).

Definition getInt32 (buffer : ArrayBuffer) (offset : N) (littleEndian : bool)
    : View Z :=
  access buffer offset 4 (toInt32 (unsignedAt buffer offset 4 littleEndian)).

End DataView.

(** *** Typed arrays

    A store past the end of a typed array is ignored, which is what
    [<[i:=x]>] does on a list. *)

Module Float32Array.
Definition create (n : N) : list F32 := replicate (N.to_nat n) Number.zero.
Definition set (a : list F32) (i : N) (x : F64) : list F32 :=
  <[N.to_nat i := Number.fround x]> a.
End Float32Array.

Module Uint8Array.
Definition create (n : N) : list Z := replicate (N.to_nat n) 0.
(** Storing an integer-valued number keeps it modulo 2^8. *)
Definition set (a : list Z) (i : N) (z : Z) : list Z :=
  <[N.to_nat i := z mod 2 ^ 8]> a.
(** Storing any number keeps ToUint8 of it. *)
Definition setNumber (a : list Z) (i : N) (x : F64) : list Z :=
  <[N.to_nat i := Number.ToUint8 x]> a.
End Uint8Array.

Module Uint16Array.
Definition create (n : N) : list Z := replicate (N.to_nat n) 0.
Definition set (a : list Z) (i : N) (z : Z) : list Z :=
  <[N.to_nat i := z mod 2 ^ 16]> a.
End Uint16Array.

Module Uint32Array.
Definition create (n : N) : list Z := replicate (N.to_nat n) 0.
Definition set (a : list Z) (i : N) (z : Z) : list Z :=
  <[N.to_nat i := z mod 2 ^ 32]> a.
End Uint32Array.

(** *** Allocating buffers

    [new ArrayBuffer(length)] raises a [RangeError] when [length] is above
    2^53 - 1 (ToIndex) and when the host cannot create a data block of
    that many bytes.  What the host can create is not the program's to
    decide: it is a parameter, asked per allocation of the run (numbered in
    program order) and per size.  A block of no bytes is always created.

    The lengths the handler asks for are products of [numPoints] and small
    constants.  They are computed here on integers: in binary64 such a
    product is exact when it is at most 2^53 - 1 and is at least 2^53
    otherwise, so the verdict of ToIndex is the same. *)

Module Host.
Record t : Type := mk { allocates : nat -> N -> bool }.
(** A host that creates every block of a valid length. *)
Definition unlimited : t := mk (fun _ _ => true).
(** A host that creates no block of more than [limit] bytes. *)
Definition limited (limit : N) : t := mk (fun _ size => (size <=? limit)%N).
End Host.

Module DataBlock.
Definition maxLength : N := 2 ^ 53 - 1.
(** The [site]-th [new ArrayBuffer(length)] of the run. *)
Definition create (host : Host.t) (site : nat) (length : N) : JsResult unit :=
  if (length =? 0)%N then inr tt
  else if (length <=? maxLength)%N && Host.allocates host site length then inr tt
  else inl RangeError.
End DataBlock.

(** *** The request and the reply *)

Module EventData.
(** [event.data] of a decode request.  [buffer] is absent when the field
    is missing (or otherwise falsy). *)
Record t : Set := mk {
  buffer : option ArrayBuffer;
  numPoints : N;
  pointSize : N;
  pointFormatID : N;
  scale : Vec3;
  offset : Vec3;
  mins : Vec3
}.
End EventData.

Record MessageEvent : Set := mkEvent { data : option EventData.t }.

Module TightBoundingBox.
Record t : Set := mk { min : Vec3; max : Vec3 }.
End TightBoundingBox.

Module Message.
(** The object handed to [postMessage]; each buffer is given as the
    elements of the one typed array that views it. *)
Record t : Set := mk {
  mean : Vec3;
  position : list F32;
  color : list Z;
  intensity : list F32;
  returnNumber : list Z;
  numberOfReturns : list Z;
  pointSourceID : list Z;
  tightBoundingBox : TightBoundingBox.t;
  indices : list Z
}.
End Message.

(** What one call of the handler did. *)
Inductive Outcome : Set :=
| Returned                          (* plain [return]: nothing posted *)
| Posted (message : Message.t)      (* ran to [postMessage] *)
| Threw (e : JsError).              (* ended by an uncaught exception *)

(** *** The decode loop *)

Module Locals.
(** The variables the first loop of [onmessage] updates. *)
Record t : Set := mk {
  positions : list F32;
  colors : list Z;
  intensities : list F32;
  returnNumbers : list Z;
  numberOfReturns : list Z;
  pointSourceIDs : list Z;
  mean : Vec3;
  tightBoundingBox : TightBoundingBox.t
}.
End Locals.

Section Decode.

Variable d : EventData.t.
Variable buffer : ArrayBuffer.

Local Open Scope view_scope.

(** [quantized * scale + offset - mins], on one axis. *)
Definition world (axis : Vec3 -> F64) (u : Z) : F64 :=
  Number.sub
    (Number.add (Number.mul (Number.ofZ u) (axis (EventData.scale d)))
                (axis (EventData.offset d)))
    (axis (EventData.mins d)).

(** The colour part of the loop body, run only for point format 2. *)
Definition decodeColor (i : N) (colors : list Z) : View (list Z) :=
  let base := (i * EventData.pointSize d)%N in
  r <- DataView.getUint16 buffer (base + 20) true ;;
  g <- DataView.getUint16 buffer (base + 22) true ;;
  b <- DataView.getUint16 buffer (base + 24) true ;;
  let r := Number.div (Number.ofZ r) (Number.ofZ 256) in
  let g := Number.div (Number.ofZ g) (Number.ofZ 256) in
  let b := Number.div (Number.ofZ b) (Number.ofZ 256) in
  let colors := Uint8Array.setNumber colors (4 * i) r in
  let colors := Uint8Array.setNumber colors (4 * i + 1) g in
  let colors := Uint8Array.setNumber colors (4 * i + 2) b in
  ret (Uint8Array.set colors (4 * i + 3) 255).

(** One iteration of [for (var i = 0; i < numPoints; i++)]. *)
Definition decodePoint (i : N) (st : Locals.t) : View Locals.t :=
  let base := (i * EventData.pointSize d)%N in
  (* POSITION *)
  ux <- DataView.getInt32 buffer base true ;;
  uy <- DataView.getInt32 buffer (base + 4) true ;;
  uz <- DataView.getInt32 buffer (base + 8) true ;;
  let x := world v0 ux in
  let y := world v1 uy in
  let z := world v2 uz in
  let positions := Float32Array.set (Locals.positions st) (3 * i) x in
  let positions := Float32Array.set positions (3 * i + 1) y in
  let positions := Float32Array.set positions (3 * i + 2) z in
  let n := Number.ofZ (Z.of_N (EventData.numPoints d)) in
  let mean :=
    mkVec3 (Number.add (v0 (Locals.mean st)) (Number.div x n))
           (Number.add (v1 (Locals.mean st)) (Number.div y n))
           (Number.add (v2 (Locals.mean st)) (Number.div z n)) in
  let bmin := TightBoundingBox.min (Locals.tightBoundingBox st) in
  let bmax := TightBoundingBox.max (Locals.tightBoundingBox st) in
  let tightBoundingBox :=
    TightBoundingBox.mk
      (mkVec3 (Math.min (v0 bmin) x) (Math.min (v1 bmin) y) (Math.min (v2 bmin) z))
      (mkVec3 (Math.max (v0 bmax) x) (Math.max (v1 bmax) y) (Math.max (v2 bmax) z)) in
  (* INTENSITY *)
  intensity <- DataView.getUint16 buffer (base + 12) true ;;
  let intensities :=
    Float32Array.set (Locals.intensities st) i (Number.ofZ intensity) in
  (* RETURN NUMBER, low 3 bits; number of returns, next 3 bits *)
  returnNumberAndNumberOfReturns <- DataView.getUint8 buffer (base + 14) true ;;
  let returnNumber := Z.land returnNumberAndNumberOfReturns 7 in
  let numberOfReturn :=
    Z.shiftr (Z.land returnNumberAndNumberOfReturns 56) 3 in
  let returnNumbers := Uint8Array.set (Locals.returnNumbers st) i returnNumber in
  let numberOfReturns :=
    Uint8Array.set (Locals.numberOfReturns st) i numberOfReturn in
  (* POINT SOURCE ID *)
  pointSourceID <- DataView.getUint16 buffer (base + 18) true ;;
  let pointSourceIDs :=
    Uint16Array.set (Locals.pointSourceIDs st) i pointSourceID in
  (* COLOR, if available *)
  colors <- (if (EventData.pointFormatID d =? 2)%N
             then decodeColor i (Locals.colors st)
             else ret (Locals.colors st)) ;;
  ret (Locals.mk positions colors intensities returnNumbers numberOfReturns
                 pointSourceIDs mean tightBoundingBox).

(** The loop: [remaining] iterations are left, the next one is for
    index [i]. *)
Fixpoint decodeLoop (remaining : nat) (i : N) (st : Locals.t) : View Locals.t :=
  match remaining with
  | O => ret st
  | S k => st' <- decodePoint i st ;; decodeLoop k (i + 1) st'
  end.

End Decode.

(** The second loop, [iIndices[i] = i]. *)
Fixpoint fillIndices (remaining : nat) (i : N) (iIndices : list Z) : list Z :=
  match remaining with
  | O => iIndices
  | S k => fillIndices k (i + 1) (Uint32Array.set iIndices i (Z.of_N i))
  end.

(** The variables as they stand when the first loop is entered. *)
Definition initialLocals (numPoints : N) : Locals.t :=
  Locals.mk
    (Float32Array.create (numPoints * 3))
    (Uint8Array.create (numPoints * 4))
    (Float32Array.create numPoints)
    (Uint8Array.create numPoints)
    (Uint8Array.create numPoints)
    (Uint16Array.create numPoints)
    (mkVec3 Number.zero Number.zero Number.zero)
    (TightBoundingBox.mk
       (mkVec3 Number.POSITIVE_INFINITY Number.POSITIVE_INFINITY
               Number.POSITIVE_INFINITY)
       (mkVec3 Number.NEGATIVE_INFINITY Number.NEGATIVE_INFINITY
               Number.NEGATIVE_INFINITY)).

(** The buffers allocated before the first loop, in program order:
    [targetBuffer], [pBuff], [cBuff], [iBuff], [clBuff], [rnBuff],
    [nrBuff], [psBuff]. *)
Definition outputSizes (numPoints : N) : list N :=
  [(numPoints * 40)%N;       (* targetBuffer: numPoints * targetPointSize *)
   (numPoints * 3 * 4)%N;    (* pBuff *)
   (numPoints * 4)%N;        (* cBuff *)
   (numPoints * 4)%N;        (* iBuff *)
   numPoints;                (* clBuff *)
   numPoints;                (* rnBuff *)
   numPoints;                (* nrBuff *)
   (numPoints * 2)%N].       (* psBuff *)

(** Allocations one after the other, from the [site]-th of the run; the
    first that fails ends the handler. *)
Fixpoint allocateAll (host : Host.t) (site : nat) (sizes : list N) : JsResult unit :=
  match sizes with
  | [] => inr tt
  | size :: rest =>
    match DataBlock.create host site size with
    | inl e => inl e
    | inr _ => allocateAll host (S site) rest
    end
  end.

(** [indices], allocated between the two loops: the ninth allocation. *)
Definition allocateIndices (host : Host.t) (numPoints : N) : JsResult unit :=
  DataBlock.create host 8 (numPoints * 4)%N.

Definition buildMessage (numPoints : N) (st : Locals.t) : Message.t :=
  Message.mk (Locals.mean st) (Locals.positions st) (Locals.colors st)
    (Locals.intensities st) (Locals.returnNumbers st)
    (Locals.numberOfReturns st) (Locals.pointSourceIDs st)
    (Locals.tightBoundingBox st)
    (fillIndices (N.to_nat numPoints) 0 (Uint32Array.create numPoints)).

(** The worker's message handler on a given host: the [DataView] accesses
    it performed and how it ended.  (The transfer list given to
    [postMessage] names the buffers of the message again and is not
    modelled.) *)
Definition onmessage (host : Host.t) (event : MessageEvent)
    : list Access * Outcome :=
  match data event with
  | None => ([], Returned)
  | Some d =>
    match EventData.buffer d with
    | None => ([], Returned)
    | Some buffer =>
      let numPoints := EventData.numPoints d in
      match allocateAll host 0 (outputSizes numPoints) with
      | inl e => ([], Threw e)
      | inr _ =>
        match decodeLoop d buffer (N.to_nat numPoints) 0 (initialLocals numPoints) with
        | (trace, inl e) => (trace, Threw e)
        | (trace, inr st) =>
          match allocateIndices host numPoints with
          | inl e => (trace, Threw e)
          | inr _ => (trace, Posted (buildMessage numPoints st))
          end
        end
      end
    end
  end.

(** ** [utils.ts] *)

Local Open Scope string_scope.
Local Open Scope list_scope.
Local Open Scope Z_scope.

Module JsString.

(** [s.charAt(k)]: the one-character string at index [k], empty when [k]
    is out of range. *)
Definition charAt (s : string) (k : Z) : string :=
  if k <? 0 then ""
  else match String.get (Z.to_nat k) s with
       | Some c => String c ""
       | None => ""
       end.

(** [s.substring(start, end)]: both indices are clamped to [0, length]
    and swapped when out of order. *)
Definition substring (s : string) (start finish : Z) : string :=
  let len := Z.of_nat (String.length s) in
  let clamp k := Z.max 0 (Z.min k len) in
  let a := Z.min (clamp start) (clamp finish) in
  let b := Z.max (clamp start) (clamp finish) in
  String.substring (Z.to_nat a) (Z.to_nat (b - a)) s.

(** [a < b] on strings: lexicographic on character codes. *)
Definition ltb (a b : string) : bool := String.ltb a b.

End JsString.

Module ParseInt.

Definition isWhiteSpace (c : ascii) : bool :=
  let n := N_of_ascii c in
  ((n =? 32) || ((9 <=? n) && (n <=? 13)))%N.

Definition digit (c : ascii) : option Z :=
  let n := Z.of_N (N_of_ascii c) in
  if (48 <=? n) && (n <=? 57) then Some (n - 48) else None.

Fixpoint skipWhiteSpace (s : string) : string :=
  match s with
  | String c s' => if isWhiteSpace c then skipWhiteSpace s' else s
  | EmptyString => s
  end.

(** The value of the longest prefix of decimal digits, [None] when the
    prefix is empty. *)
Fixpoint digits (s : string) (acc : option Z) : option Z :=
  match s with
  | String c s' =>
    match digit c with
    | Some v => digits s' (Some (10 * default 0 acc + v))
    | None => acc
    end
  | EmptyString => acc
  end.

End ParseInt.

(** [parseInt(s, 10)]; [None] is NaN. *)
Definition parseInt10 (s : string) : option Z :=
  match ParseInt.skipWhiteSpace s with
  | String "-" s' => Z.opp <$> ParseInt.digits s' None
  | String "+" s' => ParseInt.digits s' None
  | s' => ParseInt.digits s' None
  end.

(** Returns the index of the node in the hierarchy from its name. *)
Definition getIndexFromName (name : string) : option Z :=
  parseInt10 (JsString.charAt name (Z.of_nat (String.length name) - 1)).

(** The interface [byLevelAndIndex] is written against: a tree node
    exposes its name. *)
Class IPointCloudTreeNode (A : Type) : Type := name : A -> string.

(** The comparator for [[].sort]: by level, then by name. *)
Definition byLevelAndIndex {A} `{IPointCloudTreeNode A} (a b : A) : Z :=
  let na := name a in
  let nb := name b in
  if negb (String.length na =? String.length nb)%nat
  then Z.of_nat (String.length na) - Z.of_nat (String.length nb)
  else if JsString.ltb na nb then -1
  else if JsString.ltb nb na then 1
  else 0.

(** ** The POC loader *)

Definition bindResult {A B} (m : JsResult A) (f : A -> JsResult B) : JsResult B :=
  match m with
  | inl e => inl e
  | inr a => f a
  end.

Declare Scope result_scope.
Delimit Scope result_scope with result.
Notation "x <- m ;; k" := (bindResult m (fun x => k))
  (at level 100, m at next level, right associativity) : result_scope.

(** *** three.js vectors and boxes *)

Module Vector3.
Record t : Set := mk { x : F64; y : F64; z : F64 }.
(** [a.sub(v)]: component-wise subtraction. *)
Definition sub (a v : t) : t :=
  mk (Number.sub (x a) (x v)) (Number.sub (y a) (y v)) (Number.sub (z a) (z v)).
Definition origin : t := mk Number.zero Number.zero Number.zero.
End Vector3.

Module Box3.
Record t : Set := mk { min : Vector3.t; max : Vector3.t }.
End Box3.

(** *** The metadata document *)

Module BoundingBoxData.
Record t : Set := mk { lx : F64; ly : F64; lz : F64; ux : F64; uy : F64; uz : F64 }.
End BoundingBoxData.

Module POCJson.
Record t : Set := mk {
  version : string;
  octreeDir : string;
  projection : string;
  points : N;
  boundingBox : BoundingBoxData.t;
  tightBoundingBox : option BoundingBoxData.t;
  pointAttributes : list string;
  spacing : F64;
  scale : F64;
  hierarchyStepSize : N;
  hierarchy : list (string * N)       (* [name, numPoints][] *)
}.
End POCJson.

(** *** Geometry nodes

    Node objects are shared: the same object is reachable from the
    name-to-node table, from its parent's child slot and from the geometry's
    [root].  They live in a heap and are referred to by their address. *)

Abbreviation NodeRef := nat (only parsing).

Module Node.
(** Modelled from the spec: the class PointCloudOctreeGeometryNode is not
    among the sources.  A node has a name, a level (0 for the root), a
    point count, a spacing, a bounding box, a has-children flag and child
    slots addressed by octant index; a new node has level 0, no points, no
    children and the flag cleared. *)
Record t : Type := mk {
  name : string;
  level : Z;
  numPoints : N;
  spacing : F64;
  boundingBox : Box3.t;
  hasChildren : bool;
  children : gmap (option Z) NodeRef
}.

(** Modelled from the spec: the constructor, absent with the class; it
    receives the name and the bounding box. *)
Definition create (name : string) (boundingBox : Box3.t) : t :=
  mk name 0 0 Number.zero boundingBox false ∅.

(** Modelled from the spec: [parent.addChild(child)] attaches the child to
    the parent's child slot for its octant index, the numeric value of the
    last character of the child's name. *)
Definition addChild (parent : t) (childName : string) (child : NodeRef) : t :=
  mk (name parent) (level parent) (numPoints parent) (spacing parent)
     (boundingBox parent) (hasChildren parent)
     (<[getIndexFromName childName := child]> (children parent)).

End Node.

#[global] Instance Node_IPointCloudTreeNode : IPointCloudTreeNode Node.t :=
  Node.name.

Module Geometry.
(** The class PointCloudOctreeGeometry is not among the sources: the
    record has the fields [parse] assigns and the boxes and offset that
    [parse] passes to the constructor (the loader and the fetch capability
    it also receives are external). *)
Record t : Type := mk {
  url : string;
  octreeDir : string;
  needsUpdate : bool;
  spacing : F64;
  hierarchyStepSize : N;
  projection : string;
  offset : Vector3.t;
  pointAttributes : list string;
  boundingBox : Box3.t;
  tightBoundingBox : Box3.t;
  root : option NodeRef;
  nodes : gmap string NodeRef
}.

Definition setRoot (pco : t) (r : NodeRef) : t :=
  mk (url pco) (octreeDir pco) (needsUpdate pco) (spacing pco)
     (hierarchyStepSize pco) (projection pco) (offset pco)
     (pointAttributes pco) (boundingBox pco) (tightBoundingBox pco)
     (Some r) (nodes pco).

Definition setNodes (pco : t) (m : gmap string NodeRef) : t :=
  mk (url pco) (octreeDir pco) (needsUpdate pco) (spacing pco)
     (hierarchyStepSize pco) (projection pco) (offset pco)
     (pointAttributes pco) (boundingBox pco) (tightBoundingBox pco)
     (root pco) m.

End Geometry.

(** The objects the loader works on: the node heap, the geometry [pco] and
    the local name-to-node table [nodes], a finite map of the properties
    the loader itself assigns (properties inherited from [Object.prototype]
    are not part of it). *)
Module Store.
Record t : Type := mk {
  heap : list Node.t;
  pco : Geometry.t;
  nodes : gmap string NodeRef
}.
End Store.

(** *** [getBoundingBoxes] *)

Module BoundingBoxes.
Record t : Set := mk {
  offset : Vector3.t;
  boundingBox : Box3.t;
  tightBoundingBox : Box3.t
}.
End BoundingBoxes.

Definition getBoundingBoxes (data : POCJson.t) : BoundingBoxes.t :=
  let bb := POCJson.boundingBox data in
  let min := Vector3.mk (BoundingBoxData.lx bb) (BoundingBoxData.ly bb)
                        (BoundingBoxData.lz bb) in
  let max := Vector3.mk (BoundingBoxData.ux bb) (BoundingBoxData.uy bb)
                        (BoundingBoxData.uz bb) in
  let boundingBox := Box3.mk min max in
  let tightBoundingBox := boundingBox in          (* boundingBox.clone() *)
  let offset := min in                            (* min.clone() *)
  let tightBoundingBox :=
    match POCJson.tightBoundingBox data with
    | Some t =>
      Box3.mk (Vector3.mk (BoundingBoxData.lx t) (BoundingBoxData.ly t)
                          (BoundingBoxData.lz t))
              (Vector3.mk (BoundingBoxData.ux t) (BoundingBoxData.uy t)
                          (BoundingBoxData.uz t))
    | None => tightBoundingBox
    end in
  (* [offset] is a copy, so the in-place subtractions do not change it *)
  let boundingBox :=
    Box3.mk (Vector3.sub (Box3.min boundingBox) offset)
            (Vector3.sub (Box3.max boundingBox) offset) in
  let tightBoundingBox :=
    Box3.mk (Vector3.sub (Box3.min tightBoundingBox) offset)
            (Vector3.sub (Box3.max tightBoundingBox) offset) in
  BoundingBoxes.mk offset boundingBox tightBoundingBox.

(** *** [parseName] *)

Module ParsedName.
Record t : Set := mk { index : option Z; parentName : string; level : Z }.
End ParsedName.

Definition parseName (name : string) : ParsedName.t :=
  ParsedName.mk
    (getIndexFromName name)
    (JsString.substring name 0 (Z.of_nat (String.length name) - 1))
    (Z.of_nat (String.length name) - 1).

(** The store [parse] starts from: the geometry as filled in from the
    document, no node object yet, an empty name-to-node table. *)
Definition initialStore (url : string) (data : POCJson.t) : Store.t :=
  let bbs := getBoundingBoxes data in
  Store.mk []
    (Geometry.mk url (POCJson.octreeDir data) true (POCJson.spacing data)
       (POCJson.hierarchyStepSize data) (POCJson.projection data)
       (BoundingBoxes.offset bbs) (POCJson.pointAttributes data)
       (BoundingBoxes.boundingBox bbs) (BoundingBoxes.tightBoundingBox bbs)
       None ∅)
    ∅.

(** *** [loadRoot], [loadRemainingHierarchy], [parse]

    Three collaborators of these functions are not among the sources and
    are parameters here: the [Version] class ([new Version(s)] and
    [version.upTo(t)]), [createChildAABB] from [utils/bounds], and the root
    node's own [load()].

    Modelled from the spec: [load()] is given the root as [loadRoot] built
    it and either rejects, which rejects the whole load, or fulfils after
    the payload load has had its effect on the node.  Of the attributes a
    node has here that effect is on the point count, which the spec takes
    from the flat list only prior to the first payload load: a load that
    fulfils yields the point count it leaves in the node. *)

Section Loader.

Variable Version : Type.
Variable newVersion : string -> JsResult Version.
Variable upTo : Version -> string -> bool.
Variable createChildAABB : Box3.t -> option Z -> Box3.t.
Variable load : Node.t -> JsResult N.

Local Open Scope result_scope.

Definition loadRoot (st : Store.t) (data : POCJson.t) (version : Version)
    : JsResult Store.t :=
  let name := "r" in
  let root := Node.create name (Geometry.boundingBox (Store.pco st)) in
  let root :=
    Node.mk (Node.name root) (Node.level root) (Node.numPoints root)
            (Geometry.spacing (Store.pco st))          (* root.spacing = pco.spacing *)
            (Node.boundingBox root)
            true                                 (* root.hasChildren = true *)
            (Node.children root) in
  numPoints <-
    (if upTo version "1.5"
     then match POCJson.hierarchy data with
          | (_, n) :: _ => inr n                 (* data.hierarchy[0][1] *)
          | [] => inl TypeError                  (* undefined[1] *)
          end
     else inr 0%N) ;;
  let root :=
    Node.mk (Node.name root) (Node.level root) numPoints (Node.spacing root)
            (Node.boundingBox root) (Node.hasChildren root)
            (Node.children root) in
  let ref : NodeRef := length (Store.heap st) in
  (* pco.root = root; nodes[name] = root; return pco.root.load() *)
  loaded <- load root ;;
  let root :=
    Node.mk (Node.name root) (Node.level root) loaded (Node.spacing root)
            (Node.boundingBox root) (Node.hasChildren root)
            (Node.children root) in
  inr (Store.mk (Store.heap st ++ [root])
                (Geometry.setRoot (Store.pco st) ref)
                (<[name := ref]> (Store.nodes st))).

(** The body of the loop of [loadRemainingHierarchy] for one entry. *)
Definition loadEntry (st : Store.t) (entry : string * N) : JsResult Store.t :=
  let '(name, numPoints) := entry in
  let p := parseName name in
  match Store.nodes st !! ParsedName.parentName p with
  | None => inl TypeError          (* parentNode is undefined *)
  | Some parentRef =>
    match Store.heap st !! parentRef with
    | None => inl TypeError        (* no such object: never the case *)
    | Some parentNode =>
      let boundingBox :=
        createChildAABB (Node.boundingBox parentNode) (ParsedName.index p) in
      let node := Node.create name boundingBox in
      let level := ParsedName.level p in
      let node :=
        Node.mk (Node.name node) level numPoints
                (Number.div (Geometry.spacing (Store.pco st)) (Math.pow2 level))
                (Node.boundingBox node) (Node.hasChildren node)
                (Node.children node) in
      let ref : NodeRef := length (Store.heap st) in
      let heap' := Store.heap st ++ [node] in
      inr (Store.mk (<[parentRef := Node.addChild parentNode name ref]> heap')
                   (Store.pco st)
                   (<[name := ref]> (Store.nodes st)))
    end
  end.

Fixpoint loadEntries (entries : list (string * N)) (st : Store.t) : JsResult Store.t :=
  match entries with
  | [] => inr st
  | entry :: rest => st' <- loadEntry st entry ;; loadEntries rest st'
  end.

(** [for (let i = 1; i < data.hierarchy.length; i++)]. *)
Definition loadRemainingHierarchy (st : Store.t) (data : POCJson.t) : JsResult Store.t :=
  loadEntries (drop 1 (POCJson.hierarchy data)) st.

(** The function [parse(url, getUrl, xhrRequest)] returns, applied to the
    fetched document; [inl] is a rejected promise. *)
Definition parse (url : string) (data : POCJson.t) : JsResult Store.t :=
  version <- newVersion (POCJson.version data) ;;
  st <- loadRoot (initialStore url data) data version ;;
  st <- (if upTo version "1.4"
         then loadRemainingHierarchy st data
         else inr st) ;;
  (* pco.nodes = nodes; return pco *)
  inr (Store.mk (Store.heap st)
                (Geometry.setNodes (Store.pco st) (Store.nodes st))
                (Store.nodes st)).

End Loader.

(** *** The version gate *)

Module VersionSpec.

(** Modelled from the spec: the Version class is not among the sources.
    A version is the tuple of numeric components of a dotted string;
    a string that is not dotted-numeric does not parse; versions compare
    numerically, component by component from the left, a missing trailing
    component counting as zero; [upTo] is at-or-below. *)
Definition t : Set := list N.

Definition digit (c : ascii) : option N :=
  let n := N_of_ascii c in
  if ((48 <=? n) && (n <=? 57))%N then Some (n - 48)%N else None.

(** Modelled from the spec: parsing a dotted-numeric string.
    [cur] is the component being read (none when no digit of it was seen
    yet), [acc] the components read so far, last first. *)
Fixpoint components (s : string) (cur : option N) (acc : list N) : option t :=
  match s with
  | EmptyString =>
    match cur with
    | Some n => Some (rev (n :: acc))
    | None => None
    end
  | String c s' =>
    if Ascii.eqb c "."
    then match cur with
         | Some n => components s' None (n :: acc)
         | None => None
         end
    else match digit c with
         | Some v => components s' (Some (10 * default 0 cur + v)%N) acc
         | None => None
         end
  end.

Definition parse (s : string) : option t := components s None [].

(** Modelled from the spec: numeric comparison, component by component,
    a missing trailing component counting as zero. *)
Fixpoint compare (a b : t) : comparison :=
  match a with
  | [] => if forallb (N.eqb 0) b then Eq else Lt
  | x :: a' =>
    match b with
    | [] => if forallb (N.eqb 0) a then Eq else Gt
    | y :: b' =>
      match (x ?= y)%N with
      | Eq => compare a' b'
      | c => c
      end
    end
  end.

(** Modelled from the spec: [version.upTo(threshold)], at or below the
    threshold. *)
Definition upTo (version : t) (threshold : string) : bool :=
  match parse threshold with
  | Some th => match compare version th with Gt => false | _ => true end
  | None => false
  end.

(** Modelled from the spec: [new Version(s)] fails when [s] does not
    parse; [e] is what it raises then (the spec calls it a FormatError). *)
Definition construct (e : JsError) (s : string) : JsResult t :=
  match parse s with
  | Some v => inr v
  | None => inl e
  end.

End VersionSpec.

(** *** Well-formed hierarchy lists *)

(** The last character of a name is a decimal digit. *)
Definition endsInDigit (name : string) : bool :=
  match String.get (String.length name - 1) name with
  | Some c => bool_decide (is_Some (ParseInt.digit c))
  | None => false
  end.

(** Parent before child: the parent name of every entry is among the names
    [known] when the entry is reached, which are the root's and those of
    the entries before it. *)
Fixpoint parentBeforeChild (known : list string) (entries : list (string * N)) : bool :=
  match entries with
  | [] => true
  | (name, _) :: rest =>
    bool_decide (ParsedName.parentName (parseName name) ∈ known)
    && parentBeforeChild (name :: known) rest
  end.

(** ** Notions used to state the decoder's properties *)

(** An access lies within the buffer. *)
Definition inBounds (buffer : ArrayBuffer) (a : Access) : Prop :=
  (byteOffset a + width a <= byteLength buffer)%N.

(** The host creates the eight buffers allocated before the first loop. *)
Definition allocatesOutputs (host : Host.t) (numPoints : N) : bool :=
  match allocateAll host 0 (outputSizes numPoints) with
  | inr _ => true
  | inl _ => false
  end.

(** The host creates the index buffer, allocated after the first loop. *)
Definition allocatesIndices (host : Host.t) (numPoints : N) : bool :=
  match allocateIndices host numPoints with
  | inr _ => true
  | inl _ => false
  end.

(** The bytes of a record the loop body reads: up to the point source id
    at 18..19, and up to the blue channel at 24..25 for point format 2. *)
Definition recordExtent (pointFormatID : N) : N :=
  if (pointFormatID =? 2)%N then 26%N else 20%N.

(** The signed little-endian 32-bit integer at [offset], from its bytes. *)
Definition int32LE (buffer : ArrayBuffer) (offset : N) : Z :=
  let u := DataView.byteAt buffer offset
           + 2 ^ 8 * DataView.byteAt buffer (offset + 1)
           + 2 ^ 16 * DataView.byteAt buffer (offset + 2)
           + 2 ^ 24 * DataView.byteAt buffer (offset + 3) in
  if u <? 2 ^ 31 then u else u - 2 ^ 32.

(** The unsigned little-endian 16-bit integer at [offset], from its bytes. *)
Definition uint16LE (buffer : ArrayBuffer) (offset : N) : Z :=
  DataView.byteAt buffer offset + 2 ^ 8 * DataView.byteAt buffer (offset + 1).

Definition channelByte (u : Z) : Z :=
  Number.ToUint8 (Number.div (Number.ofZ u) (Number.ofZ 256)).

Definition axisOf (k : nat) : Vec3 -> F64 :=
  match k with O => v0 | S O => v1 | _ => v2 end.

Definition colorOf (d : EventData.t) (buffer : ArrayBuffer) (i : N) (k : nat) : Z :=
  match k with
  | 3%nat => 255
  | _ => uint16LE buffer (i * EventData.pointSize d + 20 + 2 * N.of_nat k) / 256
  end.

(** ** Notions used to state the loader's properties *)

(** Core attributes of a node: everything but its child slots. *)
Definition sameCore (a b : Node.t) : Prop :=
  Node.name a = Node.name b /\ Node.level a = Node.level b
  /\ Node.numPoints a = Node.numPoints b /\ Node.spacing a = Node.spacing b
  /\ Node.boundingBox a = Node.boundingBox b
  /\ Node.hasChildren a = Node.hasChildren b.

(** The root node [loadRoot] constructs. *)
Definition rootNode (st : Store.t) (numPoints : N) : Node.t :=
  Node.mk "r" 0 numPoints (Geometry.spacing (Store.pco st))
          (Geometry.boundingBox (Store.pco st)) true ∅.

(** The names of the objects in the heap once the entries [done] have been
    processed, by address: the root, then one per entry. *)
Definition namesOf (done : list (string * N)) : list string :=
  "r" :: map fst done.

(** The state of the build after the entries [done]: the heap holds the
    root and one node per entry, in order; the table maps each name to the
    address of its node; each entry's node has the entry's level, point
    count and spacing, its parent is registered, and it sits in its parent's
    child slot when its name ends in a digit. *)
Record Built (spacing0 : F64) (done : list (string * N)) (st : Store.t) : Prop :=
  mkBuilt {
    built_names : Node.name <$> Store.heap st = namesOf done;
    built_table : forall k ref,
      Store.nodes st !! k = Some ref <-> namesOf done !! ref = Some k;
    built_spacing : Geometry.spacing (Store.pco st) = spacing0;
    built_node : forall j name count,
      done !! j = Some (name, count) ->
      exists node,
        Store.heap st !! S j = Some node
        /\ Node.level node = Z.of_nat (String.length name) - 1
        /\ Node.numPoints node = count
        /\ Node.spacing node
           = Number.div spacing0 (Math.pow2 (Z.of_nat (String.length name) - 1));
    built_child : forall j name count,
      done !! j = Some (name, count) ->
      exists parentRef parent,
        Store.nodes st !! ParsedName.parentName (parseName name) = Some parentRef
        /\ Store.heap st !! parentRef = Some parent
        /\ (endsInDigit name = true ->
            Node.children parent !! getIndexFromName name = Some (S j))
  }.

(** ** Sample requests *)

Module Sample.
Import Byte.

(** One 26-byte record: X = 100, Y = 200, Z = 300, intensity 16, return
    byte 0x1a, point source id 7, colour (0xff00, 0x8080, 0x1234). *)
Definition record : ArrayBuffer :=
  [x64; x00; x00; x00;  xc8; x00; x00; x00;  x2c; x01; x00; x00;
   x10; x00;  x1a;  x00; x00; x00;  x07; x00;
   x00; xff;  x80; x80;  x34; x12].

Definition hundredth : F64 :=
  Eval vm_compute in Number.div (Number.ofZ 1) (Number.ofZ 100).

Definition zeros : Vec3 := mkVec3 Number.zero Number.zero Number.zero.

Definition request (buffer : ArrayBuffer) (numPoints pointSize pointFormatID : N)
    : EventData.t :=
  EventData.mk (Some buffer) numPoints pointSize pointFormatID
    (mkVec3 hundredth hundredth hundredth) zeros zeros.

(** A format-2 request for the one record. *)
Definition colored : EventData.t := request record 1 26 2.

Definition coloredMessage : Message.t :=
  Eval vm_compute in
    match snd (onmessage Host.unlimited (mkEvent (Some colored))) with
    | Posted m => m
    | _ => buildMessage 0 (initialLocals 0)
    end.

(** A request for zero points that carries the record all the same. *)
Definition empty : EventData.t := request record 0 26 2.

(** A format-1 request (28-byte records) whose buffer holds 27 bytes. *)
Definition shortBuffer : ArrayBuffer := record ++ [x00].
Definition short : EventData.t := request shortBuffer 1 28 1.

End Sample.

(** ** Sample documents *)

Module SampleDoc.

Definition box (lx ly lz ux uy uz : Z) : BoundingBoxData.t :=
  BoundingBoxData.mk (Number.ofZ lx) (Number.ofZ ly) (Number.ofZ lz)
                     (Number.ofZ ux) (Number.ofZ uy) (Number.ofZ uz).

Definition doc (version : string) (hierarchy : list (string * N)) : POCJson.t :=
  POCJson.mk version "data" "" 150 (box 0 0 0 10 10 10) None [] (Number.ofZ 1)
             (Number.ofZ 1) 5 hierarchy.

(** The scenario of the specification: version 1.4, three nodes. *)
Definition legacy : POCJson.t := doc "1.4" [("r", 100%N); ("r0", 40%N); ("r03", 10%N)].

(** The same list under version 1.5. *)
Definition v15 : POCJson.t := doc "1.5" [("r", 100%N); ("r0", 40%N); ("r03", 10%N)].

(** A list that names the node [r0] twice. *)
Definition duplicated : POCJson.t := doc "1.4" [("r", 100%N); ("r0", 40%N); ("r0", 50%N)].

(** A list in which [r03] comes before its parent [r0]. *)
Definition orphan : POCJson.t := doc "1.4" [("r", 100%N); ("r03", 40%N); ("r0", 50%N)].

(** A document whose declared minimum corner has an infinite coordinate
    (what a JSON number such as 1e999 parses to). *)
Definition unbounded : POCJson.t :=
  POCJson.mk "1.4" "data" "" 150
    (BoundingBoxData.mk (S754_infinity false) (Number.ofZ 0) (Number.ofZ 0)
                        (S754_infinity false) (Number.ofZ 10) (Number.ofZ 10))
    None [] (Number.ofZ 1) (Number.ofZ 1) 5 [("r", 100%N)].

(** A root payload load that fulfils and leaves 7 points in the root,
    whatever count the root was built with. *)
Definition payload (root : Node.t) : JsResult N := inr 7%N.

(** The collaborators, fixed: the version gate of the specification, a
    child box equal to its parent's, the root payload load above. *)
Definition parseDoc : string -> POCJson.t -> JsResult Store.t :=
  parse VersionSpec.t (VersionSpec.construct (Other "FormatError")) VersionSpec.upTo
    (fun box _ => box) payload.

Definition rootOf : Store.t -> POCJson.t -> VersionSpec.t -> JsResult Store.t :=
  loadRoot VersionSpec.t VersionSpec.upTo payload.

(** The store a successful load returned ([initialStore] otherwise). *)
Definition loaded (data : POCJson.t) : Store.t :=
  match parseDoc "cloud.js" data with
  | inr st => st
  | inl _ => initialStore "cloud.js" data
  end.

(** The store after a successful [loadRoot] ([initialStore] otherwise). *)
Definition rooted (data : POCJson.t) (version : VersionSpec.t) : Store.t :=
  match rootOf (initialStore "cloud.js" data) data version with
  | inr st => st
  | inl _ => initialStore "cloud.js" data
  end.

End SampleDoc.

(** ** Notions used to state further properties of the decoder *)

(** The [DataView] accesses of one iteration of the loop, in order. *)
Definition recordAccesses (d : EventData.t) (i : N) : list Access :=
  let base := (i * EventData.pointSize d)%N in
  [mkAccess base 4; mkAccess (base + 4) 4; mkAccess (base + 8) 4;
   mkAccess (base + 12) 2; mkAccess (base + 14) 1; mkAccess (base + 18) 2]
  ++ (if (EventData.pointFormatID d =? 2)%N
      then [mkAccess (base + 20) 2; mkAccess (base + 22) 2; mkAccess (base + 24) 2]
      else []).

(** The indices [i, i + 1, ..., i + remaining - 1] the loop runs through. *)
Fixpoint pointRange (remaining : nat) (i : N) : list N :=
  match remaining with
  | O => []
  | S k => i :: pointRange k (i + 1)
  end.

(** A computation follows a plan of accesses: what it read is an initial
    part of the plan, and the whole plan if it ended normally. *)
Definition follows {A} (m : View A) (plan : list Access) : Prop :=
  fst m `prefix_of` plan /\ forall a, snd m = inr a -> fst m = plan.

(** An access covers the byte at [address]. *)
Definition covers (a : Access) (address : N) : Prop :=
  (byteOffset a <= address < byteOffset a + width a)%N.

(** The same request with another buffer. *)
Definition withBuffer (d : EventData.t) (buffer : ArrayBuffer) : EventData.t :=
  EventData.mk (Some buffer) (EventData.numPoints d) (EventData.pointSize d)
    (EventData.pointFormatID d) (EventData.scale d) (EventData.offset d)
    (EventData.mins d).

(** A lower bound [m] as [Math.min] maintains it: NaN, or at most [x]. *)
Definition boundsBelow (m x : F64) : Prop :=
  Number.isNaN m = true \/ SFleb m x = true.

(** An upper bound [m] as [Math.max] maintains it: NaN, or at least [x]. *)
Definition boundsAbove (m x : F64) : Prop :=
  Number.isNaN m = true \/ SFleb x m = true.

(** The integer a number is equal to, if it is one: a finite
    [(-1)^s * m * 2^e] whose fraction bits, for negative [e], are all 0. *)
Definition integerValue (x : F64) : option Z :=
  match x with
  | S754_zero _ => Some 0
  | S754_finite s m e =>
    if 0 <=? e then Some (cond_Zopp s (Z.pos m * 2 ^ e))
    else if Z.pos m mod 2 ^ (- e) =? 0
         then Some (cond_Zopp s (Z.pos m / 2 ^ (- e)))
         else None
  | _ => None
  end.

(** A 16-bit integer as a [Float32Array] slot holds it. *)
Definition storedUint16 (u : Z) : F32 := Number.fround (Number.ofZ u).

Definition holdsInteger (x : F64) (u : Z) : bool :=
  match integerValue x with Some v => v =? u | None => false end.

(** ** A sample of two points *)

Module SampleCloud.
Import Byte.

(** A second record: X = -1, Y = 0, Z = 65536, intensity 0xffff, return
    byte 0xff, bytes 15..17 set, point source id 0x0102, colour
    (0x00ff, 0x0100, 0xffff). *)
Definition second : ArrayBuffer :=
  [xff; xff; xff; xff;  x00; x00; x00; x00;  x00; x00; x01; x00;
   xff; xff;  xff;  xaa; xbb; xcc;  x02; x01;
   xff; x00;  x00; x01;  xff; xff].

Definition buffer : ArrayBuffer := Sample.record ++ second.

(** A format-2 request for the two records. *)
Definition two : EventData.t := Sample.request buffer 2 26 2.

Definition twoMessage : Message.t :=
  Eval vm_compute in
    match snd (onmessage Host.unlimited (mkEvent (Some two))) with
    | Posted m => m
    | _ => buildMessage 0 (initialLocals 0)
    end.

(** The same two records with other bytes at 15..17 of each. *)
Definition retagged : ArrayBuffer :=
  [x64; x00; x00; x00;  xc8; x00; x00; x00;  x2c; x01; x00; x00;
   x10; x00;  x1a;  x11; x22; x33;  x07; x00;
   x00; xff;  x80; x80;  x34; x12;
   xff; xff; xff; xff;  x00; x00; x00; x00;  x00; x00; x01; x00;
   xff; xff;  xff;  x00; x00; x00;  x02; x01;
   xff; x00;  x00; x01;  xff; xff].

End SampleCloud.

(** Two buffers hold the same bytes wherever the accesses of [trace]
    reach. *)
Definition agreeOn (buffer buffer' : ArrayBuffer) (trace : list Access) : bool :=
  forallb
    (fun a =>
       forallb
         (fun k => DataView.byteAt buffer (byteOffset a + N.of_nat k)
                   =? DataView.byteAt buffer' (byteOffset a + N.of_nat k))
         (seq 0 (N.to_nat (width a))))
    trace.

(** What a read needs of a second buffer to go the same way. *)
Definition sameRead (buffer buffer' : ArrayBuffer) (a : Access) : Prop :=
  DataView.inRange buffer (byteOffset a) (width a)
  = DataView.inRange buffer' (byteOffset a) (width a)
  /\ forall k, (k < N.to_nat (width a))%nat ->
       DataView.byteAt buffer (byteOffset a + N.of_nat k)
       = DataView.byteAt buffer' (byteOffset a + N.of_nat k).

(** The coordinate of point [i] on axis [k], before it is rounded into the
    position array. *)
Definition coordinate (d : EventData.t) (buffer : ArrayBuffer) (i : N) (k : nat)
    : F64 :=
  world d (axisOf k) (int32LE buffer (i * EventData.pointSize d + 4 * N.of_nat k)).

(** ** Notions used to state further properties of the loader *)

(** The state of the legacy build after the entries [done], whatever the
    names are: the heap holds the root and one node per entry, in order; a
    registered name refers to the last object of that name and every name
    met is registered; each entry's node has the entry's attributes and a
    bounding box derived from its parent's, the parent being the last
    object of the parent name allocated before it; and a child slot holds
    an object allocated after its owner whose name is the owner's name
    followed by the character that gives the slot's index. *)
Record Shape (createChildAABB : Box3.t -> option Z -> Box3.t) (spacing0 : F64)
    (done : list (string * N)) (st : Store.t) : Prop := mkShape {
  shape_names : Node.name <$> Store.heap st = namesOf done;
  shape_table : forall k ref,
    Store.nodes st !! k = Some ref ->
    namesOf done !! ref = Some k
    /\ forall r, (ref < r)%nat -> namesOf done !! r <> Some k;
  shape_domain : forall k, k ∈ namesOf done -> is_Some (Store.nodes st !! k);
  shape_spacing : Geometry.spacing (Store.pco st) = spacing0;
  shape_node : forall j name count,
    done !! j = Some (name, count) ->
    exists node parentRef parent,
      Store.heap st !! S j = Some node
      /\ Node.level node = Z.of_nat (String.length name) - 1
      /\ Node.numPoints node = count
      /\ Node.spacing node
         = Number.div spacing0 (Math.pow2 (Z.of_nat (String.length name) - 1))
      /\ Node.hasChildren node = false
      /\ (parentRef <= j)%nat
      /\ Store.heap st !! parentRef = Some parent
      /\ Node.name parent = ParsedName.parentName (parseName name)
      /\ (forall r, (parentRef < r <= j)%nat ->
            namesOf done !! r <> Some (ParsedName.parentName (parseName name)))
      /\ Node.boundingBox node
         = createChildAABB (Node.boundingBox parent) (getIndexFromName name);
  shape_slots : forall p node key c,
    Store.heap st !! p = Some node ->
    Node.children node !! key = Some c ->
    (p < c)%nat
    /\ exists childName,
         namesOf done !! c = Some childName
         /\ ParsedName.parentName (parseName childName) = Node.name node
         /\ getIndexFromName childName = key
}.

(** The nodes a load builds besides the root: the later entries of the
    flat list when the version is at or below 1.4, none above. *)
Definition inlineEntries {Version : Type} (upTo : Version -> string -> bool)
    (version : Version) (data : POCJson.t) : list (string * N) :=
  if upTo version "1.4" then drop 1 (POCJson.hierarchy data) else [].

(** The point count [loadRoot] gives the root. *)
Definition rootCount {Version : Type} (upTo : Version -> string -> bool)
    (version : Version) (data : POCJson.t) : N :=
  if upTo version "1.5"
  then match POCJson.hierarchy data with (_, n) :: _ => n | [] => 0%N end
  else 0%N.

(** The store [loadRoot] leaves when the root's payload loads. *)
Definition rootStore (url : string) (data : POCJson.t) (numPoints : N) : Store.t :=
  Store.mk [rootNode (initialStore url data) numPoints]
           (Geometry.setRoot (Store.pco (initialStore url data)) 0%nat)
           (<["r" := 0%nat]> ∅).

(** What [parse] resolves with: [pco.nodes = nodes]. *)
Definition publish (st : Store.t) : Store.t :=
  Store.mk (Store.heap st) (Geometry.setNodes (Store.pco st) (Store.nodes st))
           (Store.nodes st).

(** ** [loadPOC] *)

Module Call.
(** How a call that is not inside a promise callback ends: it throws, or
    it returns a value. *)
Inductive t (A : Type) : Type :=
| Throws (e : JsError)
| Returns (a : A).
Arguments Throws {A} e.
Arguments Returns {A} a.
End Call.

Module RequestInit.
(** The options object given to the fetch function. *)
Record t : Set := mk { mode : string }.
End RequestInit.

Section LoadPOC.

Variable Version : Type.
Variable newVersion : string -> JsResult Version.
Variable upTo : Version -> string -> bool.
Variable createChildAABB : Box3.t -> option Z -> Box3.t.
Variable load : Node.t -> JsResult N.

(** The caller's two functions and the response's [json()] are parameters:
    [getUrl] may throw, or return a string or a promise of one (a promise
    is its outcome here); [xhrRequest] returns a promise of a response, and
    a throw inside a [then] callback rejects the chain, so failing either
    way is [inl]. *)
Variable Response : Type.
Variable getUrl : string -> Call.t (JsResult string).
Variable xhrRequest : string -> RequestInit.t -> JsResult Response.
Variable json : Response -> JsResult POCJson.t.

Local Open Scope result_scope.

(** Loads a Point Cloud Octree (POC) from a given URL: the promise it
    returns, unless [getUrl] throws before there is one. *)
Definition loadPOC (url : string) : Call.t (JsResult Store.t) :=
  match getUrl url with
  | Call.Throws e => Call.Throws e
  | Call.Returns transformed =>
    Call.Returns
      (transformedUrl <- transformed ;;                 (* Promise.resolve(...) *)
       res <- xhrRequest transformedUrl (RequestInit.mk "cors") ;;
       data <- json res ;;
       parse Version newVersion upTo createChildAABB load transformedUrl data)
  end.

End LoadPOC.

(** ** Sample collaborators of [loadPOC] *)

Module SampleFetch.

(** Signs a URL by appending a token; refuses the empty URL by throwing. *)
Definition sign (url : string) : Call.t (JsResult string) :=
  if String.eqb url "" then Call.Throws (Other "EmptyUrl")
  else Call.Returns (inr (url ++ "?token=1")%string).

(** Serves the legacy sample document at the signed URL only. *)
Definition fetch (url : string) (init : RequestInit.t) : JsResult POCJson.t :=
  if String.eqb url "cloud.js?token=1" && String.eqb (RequestInit.mode init) "cors"
  then inr SampleDoc.legacy
  else inl (Other "NotFound").

Definition loadSample : string -> Call.t (JsResult Store.t) :=
  loadPOC VersionSpec.t (VersionSpec.construct (Other "FormatError"))
    VersionSpec.upTo (fun box _ => box) SampleDoc.payload
    POCJson.t sign fetch inr.

End SampleFetch.

(** ** A sample [createChildAABB] *)

Module SampleTree.

(** A stand-in for [createChildAABB] that keeps track of the path: the
    child's box is the parent's with the index added to the minimum's [x]
    (NaN indices count as 0). *)
Definition tagged (box : Box3.t) (index : option Z) : Box3.t :=
  Box3.mk
    (Vector3.mk (Number.add (Vector3.x (Box3.min box)) (Number.ofZ (default 0 index)))
                (Vector3.y (Box3.min box)) (Vector3.z (Box3.min box)))
    (Box3.max box).

Definition parseTagged : string -> POCJson.t -> JsResult Store.t :=
  parse VersionSpec.t (VersionSpec.construct (Other "FormatError")) VersionSpec.upTo
    tagged SampleDoc.payload.

(** The store a successful load returned ([initialStore] otherwise). *)
Definition loaded (data : POCJson.t) : Store.t :=
  match parseTagged "cloud.js" data with
  | inr st => st
  | inl _ => initialStore "cloud.js" data
  end.

End SampleTree.

(* ================================================================== *)
(** * Part II: properties                                              *)
(* ================================================================== *)

(** ** Reading through a [DataView] *)

Lemma bind_inr {A B} (m : View A) (f : A -> View B) t b :
  bind m f = (t, inr b) ->
  exists t1 a t2, m = (t1, inr a) /\ f a = (t2, inr b) /\ t = t1 ++ t2.
Proof.
  destruct m as [t1 [e | a]]; simpl; [discriminate |].
  destruct (f a) as [t2 r] eqn:Hf. intros [= <- ->].
  exists t1, a, t2. auto.
Qed.

Lemma bind_snd_inr {A B} (m : View A) (f : A -> View B) a :
  snd m = inr a -> snd (bind m f) = snd (f a).
Proof.
  destruct m as [t [e | a']]; simpl; [discriminate |].
  intros [= ->]. now destruct (f a).
Qed.

Lemma bind_snd_inl {A B} (m : View A) (f : A -> View B) e :
  snd m = inl e -> snd (bind m f) = inl e.
Proof.
  destruct m as [t [e' | a]]; simpl; [| discriminate]. now intros [= ->].
Qed.

Lemma bind_trace {A B} (P : Access -> Prop) (m : View A) (f : A -> View B) :
  Forall P (fst m) -> (forall a, Forall P (fst (f a))) ->
  Forall P (fst (bind m f)).
Proof.
  destruct m as [t [e | a]]; simpl; [auto |].
  intros Ht Hf. specialize (Hf a). destruct (f a) as [t' r]. simpl in *.
  apply Forall_app; auto.
Qed.

Lemma ret_trace {A} (P : Access -> Prop) (a : A) : Forall P (fst (ret a)).
Proof. constructor. Qed.

Lemma access_trace {A} buffer offset w (v : A) :
  Forall (inBounds buffer) (fst (DataView.access buffer offset w v)).
Proof.
  unfold DataView.access, DataView.inRange.
  destruct (N.leb_spec (offset + N.of_nat w) (byteLength buffer)); simpl.
  - repeat constructor. exact H.
  - constructor.
Qed.

Lemma access_snd {A} buffer offset w (v : A) :
  snd (DataView.access buffer offset w v)
  = if DataView.inRange buffer offset (N.of_nat w) then inr v else inl RangeError.
Proof. unfold DataView.access. now destruct (DataView.inRange _ _ _). Qed.

Lemma inRange_true buffer offset w :
  DataView.inRange buffer offset w = true <-> (offset + w <= byteLength buffer)%N.
Proof. unfold DataView.inRange. apply N.leb_le. Qed.

Lemma inRange_false buffer offset w :
  DataView.inRange buffer offset w = false <-> (byteLength buffer < offset + w)%N.
Proof. unfold DataView.inRange. apply N.leb_gt. Qed.

(** ** The decode loop never leaves the buffer *)

Lemma decodeColor_trace d buffer i colors :
  Forall (inBounds buffer) (fst (decodeColor d buffer i colors)).
Proof.
  unfold decodeColor, DataView.getUint16.
  repeat (apply bind_trace; [apply access_trace | intros ?]).
  apply ret_trace.
Qed.

Lemma decodePoint_trace d buffer i st :
  Forall (inBounds buffer) (fst (decodePoint d buffer i st)).
Proof.
  unfold decodePoint, DataView.getInt32, DataView.getUint16, DataView.getUint8.
  repeat (apply bind_trace; [apply access_trace | intros ?]).
  apply bind_trace; [| intros ?; apply ret_trace].
  destruct (_ =? _)%N; [apply decodeColor_trace | apply ret_trace].
Qed.

Lemma decodeLoop_trace d buffer remaining : forall i st,
  Forall (inBounds buffer) (fst (decodeLoop d buffer remaining i st)).
Proof.
  induction remaining as [| k IH]; intros i st; simpl.
  - constructor.
  - apply bind_trace; [apply decodePoint_trace | intros st'; apply IH].
Qed.

(** ** When the decode loop succeeds *)

Lemma bind_access_snd {A B} buffer offset w (v : A) (f : A -> View B) :
  snd (bind (DataView.access buffer offset w v) f)
  = if DataView.inRange buffer offset (N.of_nat w) then snd (f v)
    else inl RangeError.
Proof.
  unfold DataView.access. destruct (DataView.inRange _ _ _); simpl; [| reflexivity].
  now destruct (f v).
Qed.

Lemma bind_ret_snd {A B} (m : View A) (g : A -> B) :
  snd (bind m (fun a => ret (g a)))
  = match snd m with inl e => inl e | inr a => inr (g a) end.
Proof. now destruct m as [t [e | a]]. Qed.

Ltac step_reads :=
  unfold DataView.getInt32, DataView.getUint16, DataView.getUint8;
  repeat (rewrite bind_access_snd; cbv beta).

Ltac split_ranges :=
  repeat match goal with
  | |- context [DataView.inRange ?b ?o ?w] =>
    let H := fresh "Hr" in
    destruct (DataView.inRange b o w) eqn:H;
    [apply inRange_true in H | apply inRange_false in H]
  end.

Lemma decodeColor_snd d buffer i colors :
  if (i * EventData.pointSize d + 26 <=? byteLength buffer)%N
  then exists colors', snd (decodeColor d buffer i colors) = inr colors'
  else snd (decodeColor d buffer i colors) = inl RangeError.
Proof.
  unfold decodeColor. step_reads.
  destruct (N.leb_spec (i * EventData.pointSize d + 26) (byteLength buffer));
    split_ranges; simpl in *; try lia; eauto.
Qed.

Lemma decodePoint_snd d buffer i st :
  if (i * EventData.pointSize d + recordExtent (EventData.pointFormatID d)
      <=? byteLength buffer)%N
  then exists st', snd (decodePoint d buffer i st) = inr st'
  else snd (decodePoint d buffer i st) = inl RangeError.
Proof.
  unfold decodePoint, recordExtent. step_reads. rewrite bind_ret_snd.
  pose proof (decodeColor_snd d buffer i (Locals.colors st)) as Hc.
  destruct (EventData.pointFormatID d =? 2)%N.
  - destruct (N.leb_spec (i * EventData.pointSize d + 26) (byteLength buffer)).
    + destruct Hc as [c' ->]. split_ranges; try lia. eauto.
    + rewrite Hc. split_ranges; reflexivity.
  - clear Hc.
    destruct (N.leb_spec (i * EventData.pointSize d + 20) (byteLength buffer));
      split_ranges; try lia; cbn [snd ret]; eauto.
Qed.

Lemma decodeLoop_succeeds d buffer remaining : forall i st,
  (forall j, (i <= j < i + N.of_nat remaining)%N ->
     (j * EventData.pointSize d + recordExtent (EventData.pointFormatID d)
      <= byteLength buffer)%N) ->
  exists st', snd (decodeLoop d buffer remaining i st) = inr st'.
Proof.
  induction remaining as [| k IH]; intros i st Hfit; simpl.
  - eauto.
  - pose proof (decodePoint_snd d buffer i st) as Hp.
    destruct (N.leb_spec (i * EventData.pointSize d
                          + recordExtent (EventData.pointFormatID d))
                         (byteLength buffer)) as [_ | Hlt].
    + destruct Hp as [st1 Hp]. rewrite (bind_snd_inr _ _ st1 Hp).
      apply IH. intros j Hj. apply Hfit. lia.
    + exfalso. specialize (Hfit i). lia.
Qed.

Lemma decodeLoop_fails d buffer remaining : forall i st j,
  (i <= j < i + N.of_nat remaining)%N ->
  (byteLength buffer
   < j * EventData.pointSize d + recordExtent (EventData.pointFormatID d))%N ->
  snd (decodeLoop d buffer remaining i st) = inl RangeError.
Proof.
  induction remaining as [| k IH]; intros i st j Hj Hshort; simpl.
  - lia.
  - pose proof (decodePoint_snd d buffer i st) as Hp.
    destruct (N.leb_spec (i * EventData.pointSize d
                          + recordExtent (EventData.pointFormatID d))
                         (byteLength buffer)) as [Hle | Hlt].
    + destruct Hp as [st1 Hp]. rewrite (bind_snd_inr _ _ st1 Hp).
      apply (IH _ _ j); [| exact Hshort].
      assert (j <> i) by (intros ->; lia). lia.
    + now apply bind_snd_inl.
Qed.

(** The loop raises only [RangeError]. *)
Lemma decodeLoop_error d buffer remaining : forall i st e,
  snd (decodeLoop d buffer remaining i st) = inl e -> e = RangeError.
Proof.
  induction remaining as [| k IH]; intros i st e; simpl.
  - discriminate.
  - pose proof (decodePoint_snd d buffer i st) as Hp.
    destruct (_ <=? _)%N.
    + destruct Hp as [st1 Hp]. rewrite (bind_snd_inr _ _ st1 Hp). apply IH.
    + rewrite (bind_snd_inl _ _ RangeError Hp). congruence.
Qed.

(** ** What the getters return *)

Lemma byteAt_range buffer k : 0 <= DataView.byteAt buffer k < 256.
Proof.
  unfold DataView.byteAt.
  pose proof (Byte.to_N_bounded (nth (N.to_nat k) buffer Byte.x00)). lia.
Qed.

Lemma lor_shiftl_byte a b :
  0 <= a < 256 -> Z.lor a (Z.shiftl b 8) = a + 2 ^ 8 * b.
Proof.
  intros Ha.
  assert (Hland : Z.land a (Z.shiftl b 8) = 0).
  { apply Z.bits_inj'. intros n Hn. rewrite Z.land_spec, Z.bits_0.
    destruct (Z.lt_ge_cases n 8) as [Hlow | Hhigh].
    - rewrite (Z.shiftl_spec_low b 8 n Hlow). apply andb_false_r.
    - rewrite <- (Z.mod_small a (2 ^ 8)) by (change (2 ^ 8) with 256; lia).
      rewrite Z.mod_pow2_bits_high by lia. reflexivity. }
  pose proof (Z.add_lor_land a (Z.shiftl b 8)) as Hadd.
  rewrite Hland in Hadd. rewrite Z.shiftl_mul_pow2 in * by lia. lia.
Qed.

Lemma unsignedAt_uint16LE buffer offset :
  DataView.unsignedAt buffer offset 2 true = uint16LE buffer offset.
Proof.
  unfold DataView.unsignedAt, uint16LE; simpl.
  rewrite !lor_shiftl_byte by apply byteAt_range. lia.
Qed.

Lemma uint16LE_range buffer offset : 0 <= uint16LE buffer offset < 65536.
Proof.
  unfold uint16LE.
  pose proof (byteAt_range buffer offset).
  pose proof (byteAt_range buffer (offset + 1)). lia.
Qed.

Lemma toInt32_signed u :
  0 <= u < 2 ^ 32 ->
  DataView.toInt32 u = if u <? 2 ^ 31 then u else u - 2 ^ 32.
Proof.
  intros Hu. unfold DataView.toInt32.
  rewrite Z.testbit_eqb by lia.
  destruct (Z.ltb_spec u (2 ^ 31)) as [Hlt | Hge].
  - rewrite Z.div_small by lia. reflexivity.
  - replace (u / 2 ^ 31) with 1; [reflexivity |].
    apply Z.div_unique with (r := u - 2 ^ 31); lia.
Qed.

Lemma getInt32_int32LE buffer offset :
  DataView.toInt32 (DataView.unsignedAt buffer offset 4 true)
  = int32LE buffer offset.
Proof.
  unfold DataView.unsignedAt, int32LE; simpl DataView.bytesLE.
  replace (offset + 1 + 1)%N with (offset + 2)%N by lia.
  replace (offset + 2 + 1)%N with (offset + 3)%N by lia.
  pose proof (byteAt_range buffer offset).
  pose proof (byteAt_range buffer (offset + 1)).
  pose proof (byteAt_range buffer (offset + 2)).
  pose proof (byteAt_range buffer (offset + 3)).
  rewrite !lor_shiftl_byte by assumption.
  rewrite toInt32_signed by lia.
  match goal with |- (if ?a <? _ then _ else _) = (if ?b <? _ then _ else _) =>
    replace a with b by lia end.
  reflexivity.
Qed.

(** ** What one iteration stores *)

Lemma decodeColor_inr d buffer i colors colors' :
  snd (decodeColor d buffer i colors) = inr colors' ->
  let base := (i * EventData.pointSize d)%N in
  let channel off :=
    Number.div (Number.ofZ (uint16LE buffer (base + off))) (Number.ofZ 256) in
  (base + 26 <= byteLength buffer)%N /\
  colors' =
    Uint8Array.set
      (Uint8Array.setNumber
         (Uint8Array.setNumber
            (Uint8Array.setNumber colors (4 * i) (channel 20%N))
            (4 * i + 1) (channel 22%N))
         (4 * i + 2) (channel 24%N))
      (4 * i + 3) 255.
Proof.
  unfold decodeColor. step_reads. rewrite !unsignedAt_uint16LE.
  split_ranges; try discriminate. cbn [snd ret]. intros [= <-].
  split; [simpl in *; lia | reflexivity].
Qed.

Lemma decodePoint_inr d buffer i st st' :
  snd (decodePoint d buffer i st) = inr st' ->
  let base := (i * EventData.pointSize d)%N in
  (base + 20 <= byteLength buffer)%N /\
  Locals.positions st' =
    Float32Array.set
      (Float32Array.set
         (Float32Array.set (Locals.positions st) (3 * i)
            (world d v0 (int32LE buffer base)))
         (3 * i + 1) (world d v1 (int32LE buffer (base + 4))))
      (3 * i + 2) (world d v2 (int32LE buffer (base + 8))) /\
  (if (EventData.pointFormatID d =? 2)%N
   then snd (decodeColor d buffer i (Locals.colors st)) = inr (Locals.colors st')
   else Locals.colors st' = Locals.colors st).
Proof.
  unfold decodePoint. step_reads. rewrite bind_ret_snd, !getInt32_int32LE.
  split_ranges; try discriminate.
  destruct (EventData.pointFormatID d =? 2)%N.
  - destruct (snd (decodeColor d buffer i (Locals.colors st))) as [e | c];
      [discriminate |].
    intros [= <-]. cbn [Locals.positions Locals.colors].
    repeat split; simpl in *; lia.
  - cbn [snd ret]. intros [= <-]. cbn [Locals.positions Locals.colors].
    repeat split; simpl in *; lia.
Qed.

(** ** Arrays filled at a fixed stride

    The loop writes [stride] consecutive slots per point.  If one iteration
    for index [i] keeps the length of an array, leaves every slot outside
    [stride * i, stride * (i + 1)) alone and puts [value i k] in slot
    [stride * i + k], then the whole loop has stored [value j k] for every
    point [j] it ran for. *)

Section Strided.

Context {X : Type}.
Variable d : EventData.t.
Variable buffer : ArrayBuffer.
Variable array : Locals.t -> list X.
Variable stride : nat.
Variable value : N -> nat -> X.

Hypothesis step : forall i st st',
  snd (decodePoint d buffer i st) = inr st' ->
  length (array st') = length (array st) /\
  (forall idx, (idx < stride * N.to_nat i \/ stride * S (N.to_nat i) <= idx)%nat ->
     array st' !! idx = array st !! idx) /\
  (forall k, (k < stride)%nat -> (stride * N.to_nat i + k < length (array st))%nat ->
     array st' !! (stride * N.to_nat i + k)%nat = Some (value i k)).

Lemma decodeLoop_strided remaining : forall i st st',
  snd (decodeLoop d buffer remaining i st) = inr st' ->
  length (array st') = length (array st) /\
  (forall idx, (idx < stride * N.to_nat i)%nat ->
     array st' !! idx = array st !! idx) /\
  (forall j k, (i <= j < i + N.of_nat remaining)%N -> (k < stride)%nat ->
     (stride * N.to_nat j + k < length (array st))%nat ->
     array st' !! (stride * N.to_nat j + k)%nat = Some (value j k)).
Proof.
  induction remaining as [| n IH]; intros i st st'; simpl.
  - intros [= <-]. repeat split; intros; lia.
  - destruct (snd (decodePoint d buffer i st)) as [e | st1] eqn:Hp.
    { rewrite (bind_snd_inl _ _ e Hp). discriminate. }
    rewrite (bind_snd_inr _ _ st1 Hp). intros Hloop.
    destruct (step _ _ _ Hp) as (Hlen1 & Hframe1 & Hset1).
    destruct (IH _ _ _ Hloop) as (Hlen & Hframe & Hset).
    split; [congruence |]. split.
    + intros idx Hidx. rewrite Hframe by lia. apply Hframe1. lia.
    + intros j k Hj Hk Hin.
      destruct (N.eq_dec j i) as [-> | Hne].
      * rewrite Hframe by nia. apply Hset1; assumption.
      * apply Hset; [lia | assumption | lia].
Qed.

End Strided.

(** ** Colour channels: a 16-bit value divided by 256 and stored in a byte *)

Lemma forallb_seq (f : nat -> bool) n k :
  forallb f (seq 0 n) = true -> (k < n)%nat -> f k = true.
Proof.
  intros Hall Hk. rewrite forallb_forall in Hall. apply Hall, in_seq. lia.
Qed.

(** The 65536 cases, by high and low byte. *)
Lemma channelByte_bytes h l :
  (h < 256)%nat -> (l < 256)%nat ->
  channelByte (256 * Z.of_nat h + Z.of_nat l) = Z.of_nat h.
Proof.
  assert (table :
    forallb (fun h =>
      forallb (fun l => channelByte (256 * Z.of_nat h + Z.of_nat l) =? Z.of_nat h)
              (seq 0 256))
      (seq 0 256) = true) by (vm_compute; reflexivity).
  intros Hh Hl. apply Z.eqb_eq.
  apply (forallb_seq
           (fun l => channelByte (256 * Z.of_nat h + Z.of_nat l) =? Z.of_nat h)
           256 l); [| exact Hl].
  apply (forallb_seq
           (fun h => forallb
              (fun l => channelByte (256 * Z.of_nat h + Z.of_nat l) =? Z.of_nat h)
              (seq 0 256))
           256 h); [exact table | exact Hh].
Qed.

Lemma channelByte_div u : 0 <= u < 65536 -> channelByte u = u / 256.
Proof.
  intros Hu.
  assert (Hh : 0 <= u / 256 < 256)
    by (split; [apply Z.div_pos | apply Z.div_lt_upper_bound]; lia).
  assert (Hl : 0 <= u mod 256 < 256) by (apply Z.mod_pos_bound; lia).
  pose proof (channelByte_bytes (Z.to_nat (u / 256)) (Z.to_nat (u mod 256))) as Hb.
  rewrite !Z2Nat.id in Hb by lia.
  rewrite <- (Z.div_mod u 256) in Hb by lia.
  apply Hb; lia.
Qed.

(** ** The position array *)

Lemma positions_step d buffer i st st' :
  snd (decodePoint d buffer i st) = inr st' ->
  length (Locals.positions st') = length (Locals.positions st) /\
  (forall idx, (idx < 3 * N.to_nat i \/ 3 * S (N.to_nat i) <= idx)%nat ->
     Locals.positions st' !! idx = Locals.positions st !! idx) /\
  (forall k, (k < 3)%nat -> (3 * N.to_nat i + k < length (Locals.positions st))%nat ->
     Locals.positions st' !! (3 * N.to_nat i + k)%nat
     = Some (Number.fround
               (world d (axisOf k)
                  (int32LE buffer (i * EventData.pointSize d + 4 * N.of_nat k))))).
Proof.
  intros Hp. apply decodePoint_inr in Hp as (_ & -> & _).
  unfold Float32Array.set.
  replace (N.to_nat (3 * i)) with (3 * N.to_nat i)%nat by lia.
  replace (N.to_nat (3 * i + 1)) with (3 * N.to_nat i + 1)%nat by lia.
  replace (N.to_nat (3 * i + 2)) with (3 * N.to_nat i + 2)%nat by lia.
  split; [now rewrite !length_insert |]. split.
  - intros idx Hidx. rewrite !list_lookup_insert_ne by lia. reflexivity.
  - intros k Hk Hin.
    destruct k as [| [| [| k]]]; [| | | lia]; cbn [axisOf N.of_nat].
    + rewrite !list_lookup_insert_ne by lia.
      rewrite Nat.add_0_r, N.add_0_r in *.
      now rewrite list_lookup_insert_eq.
    + rewrite list_lookup_insert_ne by lia.
      rewrite list_lookup_insert_eq by (rewrite length_insert; lia).
      reflexivity.
    + rewrite list_lookup_insert_eq by (rewrite !length_insert; lia).
      reflexivity.
Qed.

(** ** The colour array *)

Lemma colors_step d buffer i st st' :
  EventData.pointFormatID d = 2%N ->
  snd (decodePoint d buffer i st) = inr st' ->
  length (Locals.colors st') = length (Locals.colors st) /\
  (forall idx, (idx < 4 * N.to_nat i \/ 4 * S (N.to_nat i) <= idx)%nat ->
     Locals.colors st' !! idx = Locals.colors st !! idx) /\
  (forall k, (k < 4)%nat -> (4 * N.to_nat i + k < length (Locals.colors st))%nat ->
     Locals.colors st' !! (4 * N.to_nat i + k)%nat = Some (colorOf d buffer i k)).
Proof.
  intros Hfmt Hp. apply decodePoint_inr in Hp as (_ & _ & Hc).
  rewrite Hfmt, N.eqb_refl in Hc. apply decodeColor_inr in Hc as (_ & ->).
  unfold Uint8Array.set, Uint8Array.setNumber.
  fold (channelByte (uint16LE buffer (i * EventData.pointSize d + 20))).
  fold (channelByte (uint16LE buffer (i * EventData.pointSize d + 22))).
  fold (channelByte (uint16LE buffer (i * EventData.pointSize d + 24))).
  rewrite !channelByte_div by apply uint16LE_range.
  replace (N.to_nat (4 * i)) with (4 * N.to_nat i)%nat by lia.
  replace (N.to_nat (4 * i + 1)) with (4 * N.to_nat i + 1)%nat by lia.
  replace (N.to_nat (4 * i + 2)) with (4 * N.to_nat i + 2)%nat by lia.
  replace (N.to_nat (4 * i + 3)) with (4 * N.to_nat i + 3)%nat by lia.
  split; [now rewrite !length_insert |]. split.
  - intros idx Hidx. rewrite !list_lookup_insert_ne by lia. reflexivity.
  - intros k Hk Hin.
    destruct k as [| [| [| [| k]]]]; [| | | | lia]; cbn [colorOf N.of_nat].
    + rewrite !list_lookup_insert_ne by lia.
      rewrite Nat.add_0_r, N.add_0_r in *.
      now rewrite list_lookup_insert_eq.
    + rewrite !list_lookup_insert_ne by lia.
      rewrite list_lookup_insert_eq by (rewrite !length_insert; lia).
      do 3 f_equal. lia.
    + rewrite !list_lookup_insert_ne by lia.
      rewrite list_lookup_insert_eq by (rewrite !length_insert; lia).
      do 3 f_equal. lia.
    + rewrite list_lookup_insert_eq by (rewrite !length_insert; lia).
      reflexivity.
Qed.

Lemma colors_untouched d buffer remaining : forall i st st',
  EventData.pointFormatID d <> 2%N ->
  snd (decodeLoop d buffer remaining i st) = inr st' ->
  Locals.colors st' = Locals.colors st.
Proof.
  induction remaining as [| n IH]; intros i st st' Hfmt; simpl.
  - now intros [= <-].
  - destruct (snd (decodePoint d buffer i st)) as [e | st1] eqn:Hp.
    { rewrite (bind_snd_inl _ _ e Hp). discriminate. }
    rewrite (bind_snd_inr _ _ st1 Hp). intros Hloop.
    apply decodePoint_inr in Hp as (_ & _ & Hc).
    apply N.eqb_neq in Hfmt as Hne. rewrite Hne in Hc.
    rewrite (IH _ _ _ Hfmt Hloop). exact Hc.
Qed.

(** ** The reads follow the record layout *)

Lemma follows_ret {A} (a : A) : follows (ret a) [].
Proof. split; [reflexivity | intros ? _; reflexivity]. Qed.

Lemma follows_access {A B} buffer offset w (v : A) (f : A -> View B) plan :
  follows (f v) plan ->
  follows (bind (DataView.access buffer offset w v) f)
          (mkAccess offset (N.of_nat w) :: plan).
Proof.
  intros [Hprefix Hall]. unfold DataView.access.
  destruct (DataView.inRange buffer offset (N.of_nat w)); cbn [bind throw].
  - destruct (f v) as [t r]. unfold follows. cbn [fst snd app] in *. split.
    + now apply prefix_cons.
    + intros b Hb. f_equal. exact (Hall b Hb).
  - split; [apply prefix_nil | discriminate].
Qed.

Lemma follows_bind_ret {A B} (m : View A) (g : A -> B) plan :
  follows m plan -> follows (bind m (fun a => ret (g a))) plan.
Proof.
  intros [Hprefix Hall]. unfold follows.
  destruct m as [t [e | a]]; cbn [bind ret fst snd] in *.
  - split; [exact Hprefix | discriminate].
  - rewrite app_nil_r. split; [exact Hprefix |]. intros b _. exact (Hall a eq_refl).
Qed.

Lemma decodeColor_follows d buffer i colors :
  let base := (i * EventData.pointSize d)%N in
  follows (decodeColor d buffer i colors)
          [mkAccess (base + 20) 2; mkAccess (base + 22) 2; mkAccess (base + 24) 2].
Proof.
  intros base. unfold decodeColor, DataView.getUint16. fold base.
  change 2%N with (N.of_nat 2).
  repeat apply follows_access. apply follows_ret.
Qed.

Lemma decodePoint_follows d buffer i st :
  follows (decodePoint d buffer i st) (recordAccesses d i).
Proof.
  unfold decodePoint, recordAccesses,
    DataView.getInt32, DataView.getUint16, DataView.getUint8.
  cbn [app].
  change 4%N with (N.of_nat 4). change 2%N with (N.of_nat 2).
  change 1%N with (N.of_nat 1).
  repeat apply follows_access. apply follows_bind_ret.
  destruct (EventData.pointFormatID d =? N.of_nat 2)%N.
  - apply decodeColor_follows.
  - apply follows_ret.
Qed.

Lemma decodeLoop_follows d buffer remaining : forall i st,
  follows (decodeLoop d buffer remaining i st)
          (flat_map (recordAccesses d) (pointRange remaining i)).
Proof.
  induction remaining as [| k IH]; intros i st; cbn [decodeLoop pointRange flat_map].
  - apply follows_ret.
  - destruct (decodePoint_follows d buffer i st) as [Hprefix Hall].
    unfold follows.
    destruct (decodePoint d buffer i st) as [t [e | st1]]; cbn [bind fst snd] in *.
    + split; [now apply prefix_app_r | discriminate].
    + rewrite (Hall st1 eq_refl).
      destruct (IH (i + 1)%N st1) as [Hprefix' Hall'].
      destruct (decodeLoop d buffer k (i + 1) st1) as [t' r]. cbn [fst snd] in *.
      split.
      * now apply prefix_app.
      * intros b Hb. now rewrite (Hall' b Hb).
Qed.

(** ** Allocations *)

Lemma create_error host site length e :
  DataBlock.create host site length = inl e -> e = RangeError.
Proof.
  unfold DataBlock.create.
  destruct (length =? 0)%N; [discriminate |].
  destruct (_ && _); [discriminate | now intros [= <-]].
Qed.

Lemma create_zero host site : DataBlock.create host site 0 = inr tt.
Proof. reflexivity. Qed.

Lemma create_too_long host site length :
  (DataBlock.maxLength < length)%N ->
  DataBlock.create host site length = inl RangeError.
Proof.
  intros Hlong. unfold DataBlock.create.
  destruct (N.eqb_spec length 0) as [-> | _]; [discriminate Hlong |].
  destruct (N.leb_spec length DataBlock.maxLength) as [Hle | _]; [| reflexivity].
  exfalso. apply N.lt_nge in Hlong. exact (Hlong Hle).
Qed.

Lemma allocateAll_error host sizes : forall site e,
  allocateAll host site sizes = inl e -> e = RangeError.
Proof.
  induction sizes as [| size rest IH]; intros site e; cbn [allocateAll].
  - discriminate.
  - destruct (DataBlock.create host site size) as [e' | []] eqn:Hc.
    + intros [= <-]. exact (create_error _ _ _ _ Hc).
    + apply IH.
Qed.

Lemma allocatesOutputs_false host n :
  allocatesOutputs host n = false ->
  allocateAll host 0 (outputSizes n) = inl RangeError.
Proof.
  unfold allocatesOutputs.
  destruct (allocateAll host 0 (outputSizes n)) as [e | []] eqn:Ha; [| discriminate].
  intros _. now rewrite (allocateAll_error _ _ _ _ Ha).
Qed.

Lemma allocatesOutputs_true host n :
  allocatesOutputs host n = true ->
  allocateAll host 0 (outputSizes n) = inr tt.
Proof.
  unfold allocatesOutputs.
  now destruct (allocateAll host 0 (outputSizes n)) as [e | []].
Qed.

Lemma allocatesIndices_false host n :
  allocatesIndices host n = false -> allocateIndices host n = inl RangeError.
Proof.
  unfold allocatesIndices.
  destruct (allocateIndices host n) as [e | []] eqn:Ha; [| discriminate].
  intros _. now rewrite (create_error _ _ _ _ Ha).
Qed.

Lemma allocatesIndices_true host n :
  allocatesIndices host n = true -> allocateIndices host n = inr tt.
Proof.
  unfold allocatesIndices. now destruct (allocateIndices host n) as [e | []].
Qed.

(** Nothing is allocated for zero points. *)
Lemma allocates_zero host :
  allocatesOutputs host 0 = true /\ allocatesIndices host 0 = true.
Proof. split; reflexivity. Qed.

(** ToIndex refuses the first allocation above 2^53 - 1 bytes. *)
Lemma allocatesOutputs_too_long host n :
  (DataBlock.maxLength < n * 40)%N -> allocatesOutputs host n = false.
Proof.
  intros Hlong. unfold allocatesOutputs, outputSizes. cbn [allocateAll].
  now rewrite (create_too_long _ _ _ Hlong).
Qed.

(** How [onmessage] ends on a request that carries a buffer. *)
Lemma onmessage_with_buffer host d buffer :
  EventData.buffer d = Some buffer ->
  onmessage host (mkEvent (Some d))
  = let n := EventData.numPoints d in
    match allocateAll host 0 (outputSizes n) with
    | inl e => ([], Threw e)
    | inr _ =>
      match decodeLoop d buffer (N.to_nat n) 0 (initialLocals n) with
      | (trace, inl e) => (trace, Threw e)
      | (trace, inr st) =>
        match allocateIndices host n with
        | inl e => (trace, Threw e)
        | inr _ => (trace, Posted (buildMessage n st))
        end
      end
    end.
Proof. unfold onmessage. cbn [data]. now intros ->. Qed.

(** A request that is posted had every buffer allocated and its loop run
    to the end. *)
Lemma onmessage_posted_run host d buffer message :
  EventData.buffer d = Some buffer ->
  snd (onmessage host (mkEvent (Some d))) = Posted message ->
  let n := EventData.numPoints d in
  allocatesOutputs host n = true
  /\ allocatesIndices host n = true
  /\ exists st,
       decodeLoop d buffer (N.to_nat n) 0 (initialLocals n)
       = (fst (onmessage host (mkEvent (Some d))), inr st)
       /\ message = buildMessage n st.
Proof.
  intros Hb. rewrite (onmessage_with_buffer _ _ _ Hb). cbv zeta.
  unfold allocatesOutputs, allocatesIndices.
  destruct (allocateAll _ _ _) as [e | []]; cbn [snd]; [discriminate |].
  destruct (decodeLoop _ _ _ _ _) as [t [e | st]]; cbn [snd]; [discriminate |].
  destruct (allocateIndices _ _) as [e | []]; cbn [snd fst]; [discriminate |].
  intros [= <-]. eauto.
Qed.

Lemma onmessage_posted host d buffer message :
  EventData.buffer d = Some buffer ->
  snd (onmessage host (mkEvent (Some d))) = Posted message ->
  exists st,
    snd (decodeLoop d buffer (N.to_nat (EventData.numPoints d)) 0
           (initialLocals (EventData.numPoints d))) = inr st /\
    message = buildMessage (EventData.numPoints d) st.
Proof.
  intros Hb Hposted.
  destruct (onmessage_posted_run _ _ _ _ Hb Hposted) as (_ & _ & st & Hrun & ->).
  exists st. now rewrite Hrun.
Qed.

(** Whatever the outcome, the reads are an initial part of the reads of
    the records in turn. *)
Lemma onmessage_reads_prefix host d buffer :
  EventData.buffer d = Some buffer ->
  fst (onmessage host (mkEvent (Some d)))
  `prefix_of` flat_map (recordAccesses d)
                (pointRange (N.to_nat (EventData.numPoints d)) 0).
Proof.
  intros Hb. rewrite (onmessage_with_buffer _ _ _ Hb). cbv zeta.
  destruct (decodeLoop_follows d buffer (N.to_nat (EventData.numPoints d)) 0
              (initialLocals (EventData.numPoints d))) as [Hprefix _].
  destruct (allocateAll _ _ _) as [e | []]; [apply prefix_nil |].
  destruct (decodeLoop _ _ _ _ _) as [t [e | st]]; [exact Hprefix |].
  now destruct (allocateIndices _ _) as [e | []].
Qed.

(** ** The decoder: properties of the specification *)

Lemma onmessage_outcome host d buffer :
  EventData.buffer d = Some buffer ->
  let n := EventData.numPoints d in
  let last := ((n - 1) * EventData.pointSize d
               + recordExtent (EventData.pointFormatID d))%N in
  (allocatesOutputs host n = false ->
     onmessage host (mkEvent (Some d)) = ([], Threw RangeError)) /\
  (allocatesOutputs host n = true -> allocatesIndices host n = true ->
   (n = 0 \/ last <= byteLength buffer)%N ->
     exists message, snd (onmessage host (mkEvent (Some d))) = Posted message) /\
  ((0 < n /\ byteLength buffer < last)%N ->
     snd (onmessage host (mkEvent (Some d))) = Threw RangeError) /\
  (allocatesIndices host n = false ->
     snd (onmessage host (mkEvent (Some d))) = Threw RangeError).
Proof.
  intros Hb n last. rewrite (onmessage_with_buffer _ _ _ Hb). cbv zeta. fold n.
  assert (Hthrows : forall r : JsResult Locals.t,
            r = snd (decodeLoop d buffer (N.to_nat n) 0 (initialLocals n)) ->
            forall e, r = inl e -> e = RangeError).
  { intros r -> e. apply decodeLoop_error. }
  split; [| split; [| split]].
  - intros Hout. now rewrite (allocatesOutputs_false _ _ Hout).
  - intros Hout Hidx Hfit.
    rewrite (allocatesOutputs_true _ _ Hout), (allocatesIndices_true _ _ Hidx).
    destruct (decodeLoop_succeeds d buffer (N.to_nat n) 0 (initialLocals n))
      as [st Hst].
    { intros j Hj. destruct Hfit as [-> | Hfit]; [lia |].
      subst last. assert (j <= n - 1)%N by lia. nia. }
    destruct (decodeLoop _ _ _ _ _) as [t r]. cbn [snd] in *. subst r. eauto.
  - intros [Hpos Hshort].
    destruct (allocateAll host 0 (outputSizes n)) as [e | []] eqn:Ha.
    { cbn [snd]. now rewrite (allocateAll_error _ _ _ _ Ha). }
    pose proof (decodeLoop_fails d buffer (N.to_nat n) 0 (initialLocals n)
                  (n - 1)%N ltac:(lia) Hshort) as Hf.
    destruct (decodeLoop _ _ _ _ _) as [t r]. cbn [snd] in *. now subst r.
  - intros Hidx.
    destruct (allocateAll host 0 (outputSizes n)) as [e | []] eqn:Ha.
    { cbn [snd]. now rewrite (allocateAll_error _ _ _ _ Ha). }
    specialize (Hthrows _ eq_refl).
    destruct (decodeLoop _ _ _ _ _) as [t [e | st]]; cbn [snd] in *.
    + now rewrite (Hthrows e eq_refl).
    + now rewrite (allocatesIndices_false _ _ Hidx).
Qed.

(** C1 (as amended).  The decoder has no length check of its own.  It
    first allocates its output buffers, the largest of [40 * numPoints]
    bytes: if the host cannot create one of them, and always when
    [40 * numPoints] exceeds 2^53 - 1, the handler ends in a [RangeError]
    before any read.  Every read then goes through the [DataView], which
    raises a [RangeError] instead of reading outside the buffer, so under
    every point format each access the handler performs lies within the
    buffer; and what it reads is an initial part of the reads of the
    records in turn, at record offsets 0, 4, 8, 12, 14 and 18 (and 20, 22
    and 24 for point format 2).  With [E] the extent of a record that the loop reads (26 bytes
    for point format 2, 20 otherwise), the handler ends in a [RangeError],
    posting nothing, exactly when an allocation fails or [numPoints > 0]
    and the buffer is shorter than [(numPoints - 1) * pointSize + E]; it
    posts its result otherwise, and never ends in another error.  Hence,
    on a host that creates the buffers, a buffer of [numPoints * pointSize]
    bytes or more decodes successfully whenever [pointSize >= E]; and a
    buffer shorter than [numPoints * pointSize] fails on every host
    whenever [pointSize <= E]. *)
Theorem decode_bounds (host : Host.t) (buffer : ArrayBuffer)
    (numPoints pointSize pointFormatID : N) (scale offset mins : Vec3) :
  let request :=
    EventData.mk (Some buffer) numPoints pointSize pointFormatID
                 scale offset mins in
  let event := mkEvent (Some request) in
  let E := recordExtent pointFormatID in
  let allocated :=
    allocatesOutputs host numPoints && allocatesIndices host numPoints in
  Forall (inBounds buffer) (fst (onmessage host event))
  /\ fst (onmessage host event)
     `prefix_of` flat_map (recordAccesses request)
                   (pointRange (N.to_nat numPoints) 0)
  /\ (allocatesOutputs host numPoints = false ->
      onmessage host event = ([], Threw RangeError))
  /\ ((DataBlock.maxLength < numPoints * 40)%N ->
      allocatesOutputs host numPoints = false)
  /\ (numPoints = 0%N -> allocated = true)
  /\ (snd (onmessage host event) = Threw RangeError
      <-> allocated = false
          \/ (0 < numPoints
              /\ byteLength buffer < (numPoints - 1) * pointSize + E)%N)
  /\ ((exists message, snd (onmessage host event) = Posted message)
      <-> allocated = true
          /\ (numPoints = 0
              \/ (numPoints - 1) * pointSize + E <= byteLength buffer)%N)
  /\ (forall e, snd (onmessage host event) = Threw e -> e = RangeError)
  /\ (allocated = true ->
      (E <= pointSize)%N -> (numPoints * pointSize <= byteLength buffer)%N ->
      exists message, snd (onmessage host event) = Posted message)
  /\ ((pointSize <= E)%N -> (byteLength buffer < numPoints * pointSize)%N ->
      snd (onmessage host event) = Threw RangeError).
Proof.
  intros d event E allocated.
  destruct (onmessage_outcome host d buffer eq_refl)
    as (Hnone & Hok & Hshort & Hidx).
  cbn [EventData.numPoints EventData.pointSize EventData.pointFormatID d]
    in Hnone, Hok, Hshort, Hidx.
  fold E in Hok, Hshort. fold event in Hnone, Hok, Hshort, Hidx.
  assert (Hcases :
    (numPoints = 0 \/ (numPoints - 1) * pointSize + E <= byteLength buffer)%N
    \/ (0 < numPoints /\ byteLength buffer < (numPoints - 1) * pointSize + E)%N)
    by lia.
  assert (Hfailed : allocated = false -> snd (onmessage host event) = Threw RangeError).
  { subst allocated. intros Hf. apply andb_false_iff in Hf as [Hf | Hf].
    - now rewrite (Hnone Hf).
    - exact (Hidx Hf). }
  split; [| split; [| split; [| split; [| split; [| split; [| split;
    [| split; [| split]]]]]]]].
  - unfold event. rewrite (onmessage_with_buffer host d buffer eq_refl). cbv zeta.
    pose proof (decodeLoop_trace d buffer (N.to_nat (EventData.numPoints d)) 0
                  (initialLocals (EventData.numPoints d))) as Ht.
    destruct (allocateAll _ _ _) as [e | []]; [constructor |].
    destruct (decodeLoop _ _ _ _ _) as [t [e | st]]; [exact Ht |].
    now destruct (allocateIndices _ _) as [e | []].
  - exact (onmessage_reads_prefix host d buffer eq_refl).
  - exact Hnone.
  - apply allocatesOutputs_too_long.
  - intros ->. subst allocated. reflexivity.
  - split.
    + intros Hthrew. destruct allocated eqn:Ha; [right | now left].
      apply andb_true_iff in Ha as [Ha1 Ha2].
      destruct Hcases as [Hfit | Hs]; [| exact Hs].
      destruct (Hok Ha1 Ha2 Hfit) as [m Hm]. congruence.
    + intros [Hf | Hs]; [exact (Hfailed Hf) | exact (Hshort Hs)].
  - split.
    + intros [m Hm]. destruct allocated eqn:Ha.
      * split; [reflexivity |]. destruct Hcases as [Hfit | Hs]; [exact Hfit |].
        rewrite (Hshort Hs) in Hm. discriminate.
      * rewrite (Hfailed eq_refl) in Hm. discriminate.
    + intros [Ha Hfit]. apply andb_true_iff in Ha as [Ha1 Ha2]. now apply Hok.
  - intros e He. destruct allocated eqn:Ha.
    + apply andb_true_iff in Ha as [Ha1 Ha2].
      destruct Hcases as [Hfit | Hs].
      * destruct (Hok Ha1 Ha2 Hfit) as [m Hm]. congruence.
      * rewrite (Hshort Hs) in He. now injection He.
    + rewrite (Hfailed eq_refl) in He. now injection He.
  - intros Ha HE Hlen. apply andb_true_iff in Ha as [Ha1 Ha2]. apply Hok; auto.
    destruct (N.eq_dec numPoints 0%N) as [-> | Hn]; [now left | right]. nia.
  - intros HE Hlen. apply Hshort. split; [nia | nia].
Qed.

(** C1, as stated, fails: one 28-byte record of point format 1 in a buffer
    of 27 bytes, one byte short of [numPoints * pointSize], is decoded and
    posted (on a host that creates every buffer), because the loop reads
    only the first 20 bytes of a record. *)
Lemma short_buffer_still_decodes :
  (byteLength Sample.shortBuffer
   < EventData.numPoints Sample.short * EventData.pointSize Sample.short)%N
  /\ (exists message,
        snd (onmessage Host.unlimited (mkEvent (Some Sample.short)))
        = Posted message)
  /\ snd (onmessage Host.unlimited (mkEvent (Some Sample.short)))
     <> Threw RangeError.
Proof.
  split; [vm_compute; reflexivity |].
  assert (H : exists message,
             snd (onmessage Host.unlimited (mkEvent (Some Sample.short)))
             = Posted message).
  { eexists. vm_compute. reflexivity. }
  split; [exact H |]. destruct H as [m ->]. discriminate.
Qed.

Lemma length_initial_positions n :
  length (Locals.positions (initialLocals n)) = (3 * N.to_nat n)%nat.
Proof. cbn. unfold Float32Array.create. rewrite length_replicate. lia. Qed.

Lemma length_initial_colors n :
  length (Locals.colors (initialLocals n)) = (4 * N.to_nat n)%nat.
Proof. cbn. unfold Uint8Array.create. rewrite length_replicate. lia. Qed.

(** C4.  For every record [i] of a decoded payload the three reads at
    byte offsets 0, 4 and 8 of the record are signed little-endian 32-bit
    reads inside the buffer, and the position array holds, at [3i], [3i+1]
    and [3i+2], the value [quantized * scale + offset - mins] of the
    matching axis (computed in binary64 and stored as binary32, the array
    being a [Float32Array]). *)
Theorem decode_positions (host : Host.t) (d : EventData.t) (buffer : ArrayBuffer)
    (message : Message.t) (i : N) :
  EventData.buffer d = Some buffer ->
  snd (onmessage host (mkEvent (Some d))) = Posted message ->
  (i < EventData.numPoints d)%N ->
  let base := (i * EventData.pointSize d)%N in
  let stored (axis : Vec3 -> F64) (quantized : Z) : F32 :=
    Number.fround
      (Number.sub
         (Number.add (Number.mul (Number.ofZ quantized) (axis (EventData.scale d)))
                     (axis (EventData.offset d)))
         (axis (EventData.mins d))) in
  (base + 12 <= byteLength buffer)%N
  /\ fst (DataView.getInt32 buffer base true) = [mkAccess base 4]
  /\ snd (DataView.getInt32 buffer base true) = inr (int32LE buffer base)
  /\ snd (DataView.getInt32 buffer (base + 4) true) = inr (int32LE buffer (base + 4))
  /\ snd (DataView.getInt32 buffer (base + 8) true) = inr (int32LE buffer (base + 8))
  /\ Message.position message !! N.to_nat (3 * i)
     = Some (stored v0 (int32LE buffer base))
  /\ Message.position message !! N.to_nat (3 * i + 1)
     = Some (stored v1 (int32LE buffer (base + 4)))
  /\ Message.position message !! N.to_nat (3 * i + 2)
     = Some (stored v2 (int32LE buffer (base + 8))).
Proof.
  intros Hb Hposted Hi base stored.
  destruct (onmessage_posted _ _ _ _ Hb Hposted) as (st & Hloop & ->).
  assert (Hfit : (base + 20 <= byteLength buffer)%N).
  { destruct (N.leb_spec (base + 20) (byteLength buffer)) as [H | H]; [exact H |].
    assert (Hshort : (byteLength buffer
              < i * EventData.pointSize d + recordExtent (EventData.pointFormatID d))%N).
    { unfold recordExtent. destruct (_ =? _)%N; subst base; lia. }
    rewrite (decodeLoop_fails d buffer (N.to_nat (EventData.numPoints d)) 0 _ i
               ltac:(lia) Hshort) in Hloop.
    discriminate. }
  destruct (decodeLoop_strided d buffer Locals.positions 3
              (fun j k => Number.fround
                 (world d (axisOf k)
                    (int32LE buffer (j * EventData.pointSize d + 4 * N.of_nat k))))
              (positions_step d buffer) _ _ _ _ Hloop) as (_ & _ & Hset).
  assert (Hat : forall k, (k < 3)%nat ->
            Message.position (buildMessage (EventData.numPoints d) st)
              !! (3 * N.to_nat i + k)%nat
            = Some (Number.fround
                      (world d (axisOf k) (int32LE buffer (base + 4 * N.of_nat k))))).
  { intros k Hk. apply Hset; [lia | exact Hk |].
    rewrite length_initial_positions. lia. }
  unfold DataView.getInt32, DataView.access.
  rewrite !getInt32_int32LE.
  assert (Hr : forall off, (off <= 8)%N ->
            DataView.inRange buffer (base + off) (N.of_nat 4) = true)
    by (intros off Hoff; apply inRange_true; lia).
  pose proof (Hr 0%N ltac:(lia)) as Hr0. rewrite N.add_0_r in Hr0.
  rewrite Hr0, !Hr by lia.
  replace (N.to_nat (3 * i)) with (3 * N.to_nat i + 0)%nat by lia.
  replace (N.to_nat (3 * i + 1)) with (3 * N.to_nat i + 1)%nat by lia.
  replace (N.to_nat (3 * i + 2)) with (3 * N.to_nat i + 2)%nat by lia.
  rewrite !Hat by lia. cbn [axisOf N.of_nat fst snd]. rewrite N.add_0_r.
  repeat split; lia.
Qed.

(** The theorem at the sample record: X = 100, Y = 200, Z = 300 at scale
    0.01. *)
Lemma decode_positions_witness :
  let d := Sample.colored in
  let stored (axis : Vec3 -> F64) (quantized : Z) : F32 :=
    Number.fround
      (Number.sub
         (Number.add (Number.mul (Number.ofZ quantized) (axis (EventData.scale d)))
                     (axis (EventData.offset d)))
         (axis (EventData.mins d))) in
  int32LE Sample.record 0 = 100
  /\ Message.position Sample.coloredMessage !! 0%nat
     = Some (stored v0 (int32LE Sample.record 0))
  /\ Message.position Sample.coloredMessage !! 1%nat
     = Some (stored v1 (int32LE Sample.record 4))
  /\ Message.position Sample.coloredMessage !! 2%nat
     = Some (stored v2 (int32LE Sample.record 8)).
Proof.
  pose proof (decode_positions Host.unlimited Sample.colored Sample.record Sample.coloredMessage 0
                eq_refl eq_refl eq_refl) as H.
  cbv zeta in H. destruct H as (_ & _ & _ & _ & _ & H0 & H1 & H2).
  split; [reflexivity |]. repeat split; assumption.
Defined.

(** C7.  For point format 2 every record's colour channels are the
    unsigned little-endian 16-bit values at record offsets 20, 22 and 24,
    each divided by 256 and truncated to a byte, with alpha 255.  For every
    other point format the loop leaves the colour array exactly as it found
    it, whatever it held, so the posted colour buffer is the freshly
    allocated, all-zero one. *)
Theorem decode_colors (host : Host.t) (d : EventData.t) (buffer : ArrayBuffer)
    (message : Message.t) :
  EventData.buffer d = Some buffer ->
  snd (onmessage host (mkEvent (Some d))) = Posted message ->
  (EventData.pointFormatID d = 2%N ->
     forall i, (i < EventData.numPoints d)%N ->
       let base := (i * EventData.pointSize d)%N in
       (base + 26 <= byteLength buffer)%N
       /\ snd (DataView.getUint16 buffer (base + 20) true)
          = inr (uint16LE buffer (base + 20))
       /\ Number.ToUint8 (Number.div (Number.ofZ (uint16LE buffer (base + 20)))
                                     (Number.ofZ 256))
          = uint16LE buffer (base + 20) / 256
       /\ Message.color message !! N.to_nat (4 * i)
          = Some (uint16LE buffer (base + 20) / 256)
       /\ Message.color message !! N.to_nat (4 * i + 1)
          = Some (uint16LE buffer (base + 22) / 256)
       /\ Message.color message !! N.to_nat (4 * i + 2)
          = Some (uint16LE buffer (base + 24) / 256)
       /\ Message.color message !! N.to_nat (4 * i + 3) = Some 255)
  /\ (EventData.pointFormatID d <> 2%N ->
       (forall remaining i st st',
          snd (decodeLoop d buffer remaining i st) = inr st' ->
          Locals.colors st' = Locals.colors st)
       /\ Message.color message
          = replicate (N.to_nat (EventData.numPoints d * 4)) 0).
Proof.
  intros Hb Hposted.
  destruct (onmessage_posted _ _ _ _ Hb Hposted) as (st & Hloop & ->).
  split.
  - intros Hfmt i Hi base.
    assert (Hfit : (base + 26 <= byteLength buffer)%N).
    { destruct (N.leb_spec (base + 26) (byteLength buffer)) as [H | H]; [exact H |].
      assert (Hshort : (byteLength buffer
                < i * EventData.pointSize d + recordExtent (EventData.pointFormatID d))%N).
      { rewrite Hfmt. subst base. exact H. }
      rewrite (decodeLoop_fails d buffer (N.to_nat (EventData.numPoints d)) 0 _ i
                 ltac:(lia) Hshort) in Hloop.
      discriminate. }
    destruct (decodeLoop_strided d buffer Locals.colors 4 (colorOf d buffer)
                (fun i st st' => colors_step d buffer i st st' Hfmt) _ _ _ _ Hloop)
      as (_ & _ & Hset).
    assert (Hat : forall k, (k < 4)%nat ->
              Message.color (buildMessage (EventData.numPoints d) st)
                !! (4 * N.to_nat i + k)%nat
              = Some (colorOf d buffer i k)).
    { intros k Hk. apply Hset; [lia | exact Hk |].
      rewrite length_initial_colors. lia. }
    split; [exact Hfit |]. split.
    { unfold DataView.getUint16. rewrite access_snd, unsignedAt_uint16LE.
      replace (DataView.inRange buffer (base + 20) (N.of_nat 2)) with true
        by (symmetry; apply inRange_true; lia).
      reflexivity. }
    split; [apply channelByte_div, uint16LE_range |].
    replace (N.to_nat (4 * i)) with (4 * N.to_nat i + 0)%nat by lia.
    replace (N.to_nat (4 * i + 1)) with (4 * N.to_nat i + 1)%nat by lia.
    replace (N.to_nat (4 * i + 2)) with (4 * N.to_nat i + 2)%nat by lia.
    replace (N.to_nat (4 * i + 3)) with (4 * N.to_nat i + 3)%nat by lia.
    rewrite !Hat by lia. cbn [colorOf N.of_nat]. fold base.
    rewrite N.add_0_r.
    replace (base + 20 + 2 * N.of_nat 1)%N with (base + 22)%N by lia.
    replace (base + 20 + 2 * N.of_nat 2)%N with (base + 24)%N by lia.
    repeat split.
  - intros Hfmt. split.
    + intros remaining i st0 st'. now apply colors_untouched.
    + cbn [Message.color buildMessage].
      rewrite (colors_untouched _ _ _ _ _ _ Hfmt Hloop). reflexivity.
Qed.

(** The theorem at the sample record in point format 2. *)
Lemma decode_colors_witness :
  Message.color Sample.coloredMessage !! 0%nat = Some (65280 / 256)
  /\ Message.color Sample.coloredMessage !! 1%nat = Some (32896 / 256)
  /\ Message.color Sample.coloredMessage !! 2%nat = Some (4660 / 256)
  /\ Message.color Sample.coloredMessage !! 3%nat = Some 255.
Proof.
  destruct (decode_colors Host.unlimited Sample.colored Sample.record
              Sample.coloredMessage eq_refl eq_refl) as [H _].
  destruct (H eq_refl 0%N eq_refl) as (_ & _ & _ & H0 & H1 & H2 & H3).
  repeat split; assumption.
Defined.

(** C6.  A request for zero points with a buffer present, whatever the
    buffer holds, is decoded successfully without any read: every output
    buffer is empty, the mean is its seed (0, 0, 0) and the tight bounding
    box is its seed, min at +Infinity and max at -Infinity on every axis. *)
Theorem decode_zero_points (host : Host.t) (d : EventData.t)
    (buffer : ArrayBuffer) :
  EventData.buffer d = Some buffer ->
  EventData.numPoints d = 0%N ->
  onmessage host (mkEvent (Some d))
  = ([],
     Posted
       (Message.mk
          (mkVec3 (S754_zero false) (S754_zero false) (S754_zero false))
          [] [] [] [] [] []
          (TightBoundingBox.mk
             (mkVec3 (S754_infinity false) (S754_infinity false) (S754_infinity false))
             (mkVec3 (S754_infinity true) (S754_infinity true) (S754_infinity true)))
          [])).
Proof.
  intros Hb Hn. rewrite (onmessage_with_buffer _ _ _ Hb), Hn. reflexivity.
Qed.

(** The theorem at a request for zero points of the sample record. *)
Lemma decode_zero_points_witness :
  onmessage Host.unlimited (mkEvent (Some Sample.empty))
  = ([],
     Posted
       (Message.mk
          (mkVec3 (S754_zero false) (S754_zero false) (S754_zero false))
          [] [] [] [] [] []
          (TightBoundingBox.mk
             (mkVec3 (S754_infinity false) (S754_infinity false) (S754_infinity false))
             (mkVec3 (S754_infinity true) (S754_infinity true) (S754_infinity true)))
          [])).
Proof.
  apply (decode_zero_points Host.unlimited Sample.empty Sample.record); reflexivity.
Defined.

(** C10.  The handler returns without a [DataView] access and without
    posting or raising anything exactly when the event has no data or its
    data has no buffer. *)
Theorem silent_without_buffer (host : Host.t) (event : MessageEvent) :
  (data event = None
   \/ exists d, data event = Some d /\ EventData.buffer d = None)
  <-> onmessage host event = ([], Returned).
Proof.
  unfold onmessage. destruct event as [[d |]]; cbn [data].
  - destruct (EventData.buffer d) as [buffer |] eqn:Hb.
    + split.
      * intros [H | (d' & [= <-] & H)]; congruence.
      * destruct (allocateAll _ _ _) as [e | []]; [discriminate |].
        destruct (decodeLoop _ _ _ _ _) as [t [e | st]]; [discriminate |].
        destruct (allocateIndices _ _) as [e | []]; discriminate.
    + split; [reflexivity |]. intros _. right. eauto.
  - split; [reflexivity | auto].
Qed.

(** ** Bounding boxes *)

Lemma sub_diag (x : F64) :
  Number.sub x x = if Number.isFinite x then S754_zero false else S754_nan.
Proof.
  destruct x as [[] | [] | | s m e]; try reflexivity.
  cbn [Number.isFinite]. unfold Number.sub, SFsub.
  rewrite Z.sub_diag. reflexivity.
Qed.

Lemma sub_diag_zero (x : F64) :
  Number.sub x x = Number.zero <-> Number.isFinite x = true.
Proof.
  rewrite sub_diag. unfold Number.zero.
  destruct (Number.isFinite x); split; congruence.
Qed.

(** C8 (as amended).  The offset is the minimum corner of the declared
    global bounding box; the returned global box and the returned tight box
    (the global one when the document has none) are the declared corners
    minus that offset; and the minimum corner of the returned global box is
    the origin exactly when the three coordinates of the declared minimum
    corner are finite. *)
Theorem getBoundingBoxes_offset (data : POCJson.t) :
  let declared := POCJson.boundingBox data in
  let tight := default declared (POCJson.tightBoundingBox data) in
  let corner lo (b : BoundingBoxData.t) :=
    if lo : bool
    then Vector3.mk (BoundingBoxData.lx b) (BoundingBoxData.ly b) (BoundingBoxData.lz b)
    else Vector3.mk (BoundingBoxData.ux b) (BoundingBoxData.uy b) (BoundingBoxData.uz b) in
  let r := getBoundingBoxes data in
  BoundingBoxes.offset r = corner true declared
  /\ BoundingBoxes.boundingBox r
     = Box3.mk (Vector3.sub (corner true declared) (BoundingBoxes.offset r))
               (Vector3.sub (corner false declared) (BoundingBoxes.offset r))
  /\ BoundingBoxes.tightBoundingBox r
     = Box3.mk (Vector3.sub (corner true tight) (BoundingBoxes.offset r))
               (Vector3.sub (corner false tight) (BoundingBoxes.offset r))
  /\ (Box3.min (BoundingBoxes.boundingBox r) = Vector3.origin
      <-> Number.isFinite (BoundingBoxData.lx declared) = true
          /\ Number.isFinite (BoundingBoxData.ly declared) = true
          /\ Number.isFinite (BoundingBoxData.lz declared) = true).
Proof.
  intros declared tight corner r.
  split; [reflexivity |]. split; [reflexivity |]. split.
  - subst r tight. unfold getBoundingBoxes.
    destruct (POCJson.tightBoundingBox data); reflexivity.
  - subst r. unfold getBoundingBoxes, Vector3.origin, Vector3.sub.
    cbn [BoundingBoxes.boundingBox Box3.min Vector3.x Vector3.y Vector3.z].
    fold declared. rewrite <- !sub_diag_zero. split.
    + intros [= Hx Hy Hz]. auto.
    + intros (-> & -> & ->). reflexivity.
Qed.

(** C8, as stated, fails: with an infinite coordinate in the declared
    minimum corner the subtraction yields NaN, and the minimum corner of
    the returned global box is not the origin. *)
Lemma unbounded_box_not_at_origin :
  Box3.min (BoundingBoxes.boundingBox (getBoundingBoxes SampleDoc.unbounded))
  <> Vector3.origin
  /\ Vector3.x (Box3.min (BoundingBoxes.boundingBox
                            (getBoundingBoxes SampleDoc.unbounded)))
     = S754_nan.
Proof. split; [discriminate | reflexivity]. Qed.

(** ** Node names *)

Lemma substring_init_cons (s : string) : forall (a c : ascii),
  String.get (String.length s) (String a s) = Some c ->
  String a s
  = (String.substring 0 (String.length s) (String a s) ++ String c "")%string.
Proof.
  induction s as [| b s IH]; intros a c.
  - cbn. now intros [= ->].
  - intros Hget.
    change (String.get (String.length s) (String b s) = Some c) in Hget.
    change (String a (String b s)
            = String a (String.substring 0 (String.length s) (String b s)
                        ++ String c "")%string).
    f_equal. apply IH. exact Hget.
Qed.

Lemma substring_init (s : string) (c : ascii) :
  String.get (String.length s - 1) s = Some c ->
  s = (String.substring 0 (String.length s - 1) s ++ String c "")%string.
Proof.
  destruct s as [| a s]; [discriminate |].
  cbn [String.length]. rewrite Nat.sub_succ, Nat.sub_0_r.
  apply substring_init_cons.
Qed.

Lemma parentName_substring (s : string) :
  ParsedName.parentName (parseName s)
  = String.substring 0 (String.length s - 1) s.
Proof.
  unfold parseName, JsString.substring; cbn [ParsedName.parentName].
  f_equal; lia.
Qed.

Lemma charAt_last (s : string) (c : ascii) :
  String.get (String.length s - 1) s = Some c ->
  JsString.charAt s (Z.of_nat (String.length s) - 1) = String c "".
Proof.
  intros Hget. unfold JsString.charAt.
  destruct s as [| a s]; [discriminate |].
  destruct (Z.ltb_spec (Z.of_nat (String.length (String a s)) - 1) 0) as [H | _].
  - cbn [String.length] in H. lia.
  - replace (Z.to_nat (Z.of_nat (String.length (String a s)) - 1))
      with (String.length (String a s) - 1)%nat by lia.
    now rewrite Hget.
Qed.

Lemma parseInt10_digit (c : ascii) (v : Z) :
  ParseInt.digit c = Some v ->
  parseInt10 (String c "") = Some v /\ 0 <= v <= 9
  /\ c = ascii_of_N (Z.to_N (v + 48)).
Proof.
  destruct c as [[] [] [] [] [] [] [] []]; cbv; intros [= <-];
    repeat split; discriminate.
Qed.

(** A name that ends in a digit is its parent name followed by that
    digit, and its index is the digit's value. *)
Lemma endsInDigit_split (name : string) :
  endsInDigit name = true ->
  exists c v,
    ParseInt.digit c = Some v
    /\ name = (ParsedName.parentName (parseName name) ++ String c "")%string
    /\ getIndexFromName name = Some v
    /\ 0 <= v <= 9.
Proof.
  unfold endsInDigit.
  destruct (String.get (String.length name - 1) name) as [c |] eqn:Hget;
    [| discriminate].
  intros Hd. apply bool_decide_eq_true in Hd as [v Hv].
  exists c, v. destruct (parseInt10_digit c v Hv) as (Hp & Hrange & _).
  split; [exact Hv |]. split.
  - rewrite parentName_substring. now apply substring_init.
  - unfold getIndexFromName. rewrite (charAt_last _ _ Hget). auto.
Qed.

Lemma parseInt10_not_digit (c : ascii) :
  ParseInt.digit c = None -> parseInt10 (String c "") = None.
Proof.
  destruct c as [[] [] [] [] [] [] [] []]; cbv; intros H;
    solve [reflexivity | discriminate].
Qed.

(** The index of a name that does not end in a digit is NaN. *)
Lemma getIndexFromName_not_digit (name : string) :
  endsInDigit name = false -> getIndexFromName name = None.
Proof.
  unfold endsInDigit, getIndexFromName.
  destruct (String.get (String.length name - 1) name) as [c |] eqn:Hget.
  - intros Hd. rewrite (charAt_last _ _ Hget).
    apply parseInt10_not_digit.
    apply bool_decide_eq_false in Hd.
    destruct (ParseInt.digit c); [exfalso; apply Hd; eauto | reflexivity].
  - intros _. destruct name as [| a s].
    + reflexivity.
    + exfalso. cbn [String.length] in Hget.
      rewrite Nat.sub_succ, Nat.sub_0_r in Hget.
      clear -Hget. revert a Hget.
      induction s as [| b s IH]; intros a; [discriminate |].
      intros Hget. apply (IH b). exact Hget.
Qed.

(** A name that ends in a digit is determined by its parent name and its
    index. *)
Lemma name_of_parent_and_index (n1 n2 : string) :
  endsInDigit n1 = true ->
  ParsedName.parentName (parseName n1) = ParsedName.parentName (parseName n2) ->
  getIndexFromName n1 = getIndexFromName n2 ->
  n1 = n2.
Proof.
  intros H1 Hp Hi.
  assert (H2 : endsInDigit n2 = true).
  { destruct (endsInDigit n2) eqn:Hd; [reflexivity |].
    apply getIndexFromName_not_digit in Hd.
    destruct (endsInDigit_split _ H1) as (c1 & v1 & _ & _ & Hi1 & _).
    congruence. }
  destruct (endsInDigit_split _ H1) as (c1 & v1 & Hd1 & Hn1 & Hi1 & _).
  destruct (endsInDigit_split _ H2) as (c2 & v2 & Hd2 & Hn2 & Hi2 & _).
  assert (v1 = v2) by congruence. subst v2.
  destruct (parseInt10_digit _ _ Hd1) as (_ & _ & Hc1).
  destruct (parseInt10_digit _ _ Hd2) as (_ & _ & Hc2).
  rewrite Hn1, Hn2, Hp. congruence.
Qed.

(** The parent name of the root's name and of the empty name is the empty
    name, which is never in the table: neither can be an entry of a list
    that is parent before child. *)
Lemma parentBeforeChild_names entries : forall known,
  parentBeforeChild known entries = true ->
  "" ∉ known ->
  ("r" ∉ map fst entries) /\ ("" ∉ map fst entries).
Proof.
  induction entries as [| [name count] rest IH]; intros known Hpbc Hempty.
  - split; apply not_elem_of_nil.
  - cbn [parentBeforeChild] in Hpbc.
    apply andb_true_iff in Hpbc as [Hparent Hpbc].
    apply bool_decide_eq_true in Hparent.
    assert (Hr : name <> "r") by (intros ->; exact (Hempty Hparent)).
    assert (He : name <> "") by (intros ->; exact (Hempty Hparent)).
    destruct (IH (name :: known) Hpbc) as [Hr' He'].
    { rewrite elem_of_cons. intros [Heq | Hin]; [congruence | exact (Hempty Hin)]. }
    change (map fst ((name, count) :: rest)) with (name :: map fst rest).
    rewrite !elem_of_cons. split; intros [Heq | Hin]; auto.
Qed.

(** ** The loader *)

Lemma bindResult_inr {A B} (m : JsResult A) (f : A -> JsResult B) (b : B) :
  bindResult m f = inr b -> exists a, m = inr a /\ f a = inr b.
Proof. destruct m as [e | a]; [discriminate | eauto]. Qed.

Lemma sameCore_refl a : sameCore a a.
Proof. repeat split. Qed.

Lemma sameCore_trans a b c : sameCore a b -> sameCore b c -> sameCore a c.
Proof. unfold sameCore. intuition congruence. Qed.

Section LoaderFacts.

Variable Version : Type.
Variable newVersion : string -> JsResult Version.
Variable upTo : Version -> string -> bool.
Variable createChildAABB : Box3.t -> option Z -> Box3.t.
Variable load : Node.t -> JsResult N.

(** [loadRoot] calls [load()] on the root it built, whose point count is
    decided by the version, and leaves the root as the load left it. *)
Lemma loadRoot_inr st data version st' :
  loadRoot Version upTo load st data version = inr st' ->
  let numPoints :=
    if upTo version "1.5"
    then match POCJson.hierarchy data with (_, n) :: _ => n | [] => 0%N end
    else 0%N in
  exists loaded,
    load (rootNode st numPoints) = inr loaded
    /\ st' = Store.mk (Store.heap st ++ [rootNode st loaded])
                      (Geometry.setRoot (Store.pco st) (length (Store.heap st)))
                      (<["r" := length (Store.heap st)]> (Store.nodes st)).
Proof.
  unfold loadRoot. intros H.
  apply bindResult_inr in H as (n & Hn & H).
  apply bindResult_inr in H as (loaded & Hload & [= <-]).
  exists loaded.
  destruct (upTo version "1.5").
  - destruct (POCJson.hierarchy data) as [| [name0 n0] rest]; [discriminate |].
    injection Hn as <-. split; [exact Hload | reflexivity].
  - injection Hn as <-. split; [exact Hload | reflexivity].
Qed.

Lemma loadEntries_app pre post st :
  loadEntries createChildAABB (pre ++ post) st
  = bindResult (loadEntries createChildAABB pre st)
               (loadEntries createChildAABB post).
Proof.
  revert st. induction pre as [| e pre IH]; intros st; cbn; [reflexivity |].
  destruct (loadEntry createChildAABB st e) as [err | st1]; cbn; [reflexivity |].
  apply IH.
Qed.

Lemma loadEntry_missing_parent st name count :
  Store.nodes st !! ParsedName.parentName (parseName name) = None ->
  loadEntry createChildAABB st (name, count) = inl TypeError.
Proof. intros H. unfold loadEntry. now rewrite H. Qed.

(** What an iteration that succeeds does to the store. *)
Lemma loadEntry_inr st name count st' :
  loadEntry createChildAABB st (name, count) = inr st' ->
  exists parentRef parentNode,
    Store.nodes st !! ParsedName.parentName (parseName name) = Some parentRef
    /\ Store.heap st !! parentRef = Some parentNode
    /\ let level := Z.of_nat (String.length name) - 1 in
       let node :=
         Node.mk name level count
                 (Number.div (Geometry.spacing (Store.pco st)) (Math.pow2 level))
                 (createChildAABB (Node.boundingBox parentNode)
                                  (getIndexFromName name))
                 false ∅ in
       st' = Store.mk
               (<[parentRef := Node.addChild parentNode name (length (Store.heap st))]>
                  (Store.heap st ++ [node]))
               (Store.pco st)
               (<[name := length (Store.heap st)]> (Store.nodes st)).
Proof.
  unfold loadEntry.
  destruct (Store.nodes st !! _) as [parentRef |] eqn:Hp; [| discriminate].
  destruct (Store.heap st !! parentRef) as [parentNode |] eqn:Hh; [| discriminate].
  intros [= <-]. exists parentRef, parentNode. auto.
Qed.

(** An iteration adds one object and changes no core attribute of an
    existing one. *)
Lemma loadEntry_preserves st entry st' :
  loadEntry createChildAABB st entry = inr st' ->
  length (Store.heap st') = S (length (Store.heap st))
  /\ Store.pco st' = Store.pco st
  /\ forall r node, Store.heap st !! r = Some node ->
       exists node', Store.heap st' !! r = Some node' /\ sameCore node node'.
Proof.
  destruct entry as [name count]. intros H.
  apply loadEntry_inr in H as (pref & parent & Hp & Hh & ->).
  cbn [Store.heap Store.pco].
  split; [rewrite length_insert, length_app; cbn; lia |].
  split; [reflexivity |].
  intros r node Hr.
  destruct (decide (r = pref)) as [-> | Hne].
  - rewrite list_lookup_insert_eq
      by (rewrite length_app; apply lookup_lt_Some in Hr; lia).
    assert (node = parent) by congruence. subst node.
    eexists. split; [reflexivity |]. repeat split.
  - rewrite list_lookup_insert_ne by congruence.
    rewrite lookup_app_l by (now apply lookup_lt_Some in Hr).
    eexists. split; [exact Hr | apply sameCore_refl].
Qed.

Lemma loadEntries_preserves entries : forall st st',
  loadEntries createChildAABB entries st = inr st' ->
  length (Store.heap st') = (length (Store.heap st) + length entries)%nat
  /\ Store.pco st' = Store.pco st
  /\ forall r node, Store.heap st !! r = Some node ->
       exists node', Store.heap st' !! r = Some node' /\ sameCore node node'.
Proof.
  induction entries as [| e rest IH]; intros st st'; cbn.
  - intros [= <-]. split; [lia |]. split; [reflexivity |].
    intros r node Hr. eauto using sameCore_refl.
  - intros H. apply bindResult_inr in H as (st1 & H1 & Hrest).
    apply loadEntry_preserves in H1 as (Hlen1 & Hpco1 & Hcore1).
    apply IH in Hrest as (Hlen & Hpco & Hcore).
    split; [lia |]. split; [congruence |].
    intros r node Hr.
    destruct (Hcore1 _ _ Hr) as (n1 & Hn1 & Hs1).
    destruct (Hcore _ _ Hn1) as (n2 & Hn2 & Hs2).
    eauto using sameCore_trans.
Qed.

(** C5 (as amended).  When the loop of the legacy hierarchy build reaches
    an entry whose parent name is not in the name-to-node table, that
    iteration raises a [TypeError] (the parent is [undefined] and its
    bounding box is read; the loader has no check of its own and raises no
    other error), the build raises it, and the promise returned by [parse]
    is rejected with it: the load yields no geometry at all. *)
Theorem missing_parent_aborts (url : string) (data : POCJson.t) (version : Version)
    (st0 st1 : Store.t) (pre post : list (string * N)) (name : string) (count : N) :
  newVersion (POCJson.version data) = inr version ->
  upTo version "1.4" = true ->
  loadRoot Version upTo load (initialStore url data) data version = inr st0 ->
  drop 1 (POCJson.hierarchy data) = pre ++ (name, count) :: post ->
  loadEntries createChildAABB pre st0 = inr st1 ->
  Store.nodes st1 !! ParsedName.parentName (parseName name) = None ->
  loadEntry createChildAABB st1 (name, count) = inl TypeError
  /\ loadRemainingHierarchy createChildAABB st0 data = inl TypeError
  /\ parse Version newVersion upTo createChildAABB load url data = inl TypeError.
Proof.
  intros Hv Hgate Hroot Hsplit Hpre Hmissing.
  pose proof (loadEntry_missing_parent st1 name count Hmissing) as Hentry.
  assert (Hbuild : loadRemainingHierarchy createChildAABB st0 data = inl TypeError).
  { unfold loadRemainingHierarchy. rewrite Hsplit, loadEntries_app, Hpre.
    cbn [bindResult loadEntries]. now rewrite Hentry. }
  split; [exact Hentry |]. split; [exact Hbuild |].
  unfold parse. rewrite Hv. cbn [bindResult]. rewrite Hroot. cbn [bindResult].
  rewrite Hgate, Hbuild. reflexivity.
Qed.

(** C2 (as amended).  The two decisions of the version gate use two
    thresholds.  The root is built, and handed to its own [load()], with
    the point count of the first entry of the flat list when the version is
    at or below 1.5 and with 0 for every newer version; once that load has
    fulfilled, the root holds the point count the load left in it.  The
    rest of the tree is populated inline, one node per later entry, when
    the version is at or below 1.4, and for every newer version the root
    is the only node. *)
Theorem root_count_and_inline_gates (url : string) (data : POCJson.t)
    (version : Version) (st : Store.t) :
  newVersion (POCJson.version data) = inr version ->
  parse Version newVersion upTo createChildAABB load url data = inr st ->
  let count :=
    if upTo version "1.5"
    then match POCJson.hierarchy data with (_, n) :: _ => n | [] => 0%N end
    else 0%N in
  let built := rootNode (initialStore url data) count in
  Node.name built = "r"
  /\ Node.numPoints built = count
  /\ exists loaded root,
       load built = inr loaded
       /\ Geometry.root (Store.pco st) = Some 0%nat
       /\ Store.heap st !! 0%nat = Some root
       /\ Node.name root = "r"
       /\ Node.numPoints root = loaded
       /\ length (Store.heap st)
          = (if upTo version "1.4"
             then S (length (drop 1 (POCJson.hierarchy data)))
             else 1%nat)
       /\ (upTo version "1.4" = false -> Store.nodes st = {["r" := 0%nat]}).
Proof.
  intros Hv H count built. unfold parse in H. rewrite Hv in H.
  cbn [bindResult] in H.
  split; [reflexivity |]. split; [reflexivity |].
  apply bindResult_inr in H as (st0 & Hroot & H).
  apply bindResult_inr in H as (st1 & Hrest & [= <-]).
  apply loadRoot_inr in Hroot as (loaded & Hload & Hst0).
  fold count in Hload. fold built in Hload.
  change (Store.heap (initialStore url data)) with (@nil Node.t) in Hst0.
  cbn [app length] in Hst0.
  exists loaded.
  cbn [Store.heap Store.pco Store.nodes].
  destruct (upTo version "1.4").
  - apply loadEntries_preserves in Hrest as (Hlen & Hpco & Hcore).
    destruct (Hcore 0%nat (rootNode (initialStore url data) loaded))
      as (root & Hr & Hname & _ & Hcount & _).
    { subst st0. reflexivity. }
    exists root. rewrite Hpco. subst st0. cbn in Hlen |- *.
    repeat split; try congruence; auto.
  - injection Hrest as <-. subst st0. cbn.
    eexists. repeat split. exact Hload.
Qed.

End LoaderFacts.

(** ** The legacy build, entry by entry *)

Section BuildFacts.

Variable createChildAABB : Box3.t -> option Z -> Box3.t.

Lemma namesOf_app done entry :
  namesOf (done ++ [entry]) = namesOf done ++ [fst entry].
Proof. unfold namesOf. now rewrite map_app. Qed.

Lemma namesOf_length done : length (namesOf done) = S (length done).
Proof. unfold namesOf. cbn. now rewrite length_map. Qed.

Lemma Built_heap_length spacing0 done st :
  Built spacing0 done st -> length (Store.heap st) = S (length done).
Proof.
  intros B. rewrite <- namesOf_length, <- (built_names _ _ _ B).
  now rewrite length_fmap.
Qed.

Lemma Built_name spacing0 done st ref node :
  Built spacing0 done st ->
  Store.heap st !! ref = Some node ->
  namesOf done !! ref = Some (Node.name node).
Proof.
  intros B Hn. rewrite <- (built_names _ _ _ B), list_lookup_fmap, Hn.
  reflexivity.
Qed.

Lemma Built_parent spacing0 done st parentName :
  Built spacing0 done st ->
  parentName ∈ namesOf done ->
  exists parentRef parent,
    Store.nodes st !! parentName = Some parentRef
    /\ Store.heap st !! parentRef = Some parent
    /\ Node.name parent = parentName
    /\ (parentRef < length (Store.heap st))%nat.
Proof.
  intros B Hin. apply list_elem_of_lookup_1 in Hin as [pref Hpref].
  pose proof Hpref as Hname.
  rewrite <- (built_names _ _ _ B), list_lookup_fmap in Hname.
  apply fmap_Some in Hname as (parent & Hparent & ->).
  exists pref, parent. split; [now apply (built_table _ _ _ B) |].
  split; [exact Hparent |]. split; [reflexivity |].
  now apply lookup_lt_Some in Hparent.
Qed.

(** One iteration on a fresh name whose parent is known. *)
Lemma loadEntry_built spacing0 done st name count :
  Built spacing0 done st ->
  ParsedName.parentName (parseName name) ∈ namesOf done ->
  name ∉ namesOf done ->
  exists st',
    loadEntry createChildAABB st (name, count) = inr st'
    /\ Built spacing0 (done ++ [(name, count)]) st'.
Proof.
  intros B Hparent Hfresh.
  destruct (Built_parent _ _ _ _ B Hparent)
    as (pref & parent & Hpref & Hheap & Hpname & Hplt).
  pose proof (Built_heap_length _ _ _ B) as Hlen.
  set (level := Z.of_nat (String.length name) - 1).
  set (node := Node.mk name level count
                 (Number.div (Geometry.spacing (Store.pco st)) (Math.pow2 level))
                 (createChildAABB (Node.boundingBox parent) (getIndexFromName name))
                 false ∅).
  set (ref := length (Store.heap st)).
  exists (Store.mk (<[pref := Node.addChild parent name ref]> (Store.heap st ++ [node]))
                   (Store.pco st)
                   (<[name := ref]> (Store.nodes st))).
  split.
  { unfold loadEntry. rewrite Hpref, Hheap. reflexivity. }
  assert (Hpne : ParsedName.parentName (parseName name) <> name)
    by (intros Heq; apply Hfresh; now rewrite <- Heq).
  constructor; cbn [Store.heap Store.pco Store.nodes].
  - (* names *)
    rewrite list_fmap_insert, fmap_app, namesOf_app. cbn [fmap list_fmap fst].
    change (Node.name (Node.addChild parent name ref)) with (Node.name parent).
    rewrite list_insert_id.
    + now rewrite (built_names _ _ _ B).
    + rewrite lookup_app_l by (now rewrite length_fmap).
      rewrite list_lookup_fmap, Hheap. reflexivity.
  - (* table *)
    intros k r. rewrite namesOf_app. cbn [fst].
    destruct (decide (k = name)) as [-> | Hk].
    + rewrite lookup_insert_eq. split.
      * intros [= <-]. subst ref. rewrite Hlen, <- namesOf_length.
        now rewrite list_lookup_middle.
      * intros Hr. apply lookup_app_Some in Hr as [Hr | [Hge Hr]].
        -- exfalso. apply Hfresh. eapply list_elem_of_lookup_2, Hr.
        -- apply list_lookup_singleton_Some in Hr as [Hr _].
           f_equal. subst ref. rewrite Hlen, <- namesOf_length. lia.
    + rewrite lookup_insert_ne by congruence.
      rewrite (built_table _ _ _ B). split.
      * intros Hr. now apply lookup_app_l_Some.
      * intros Hr. apply lookup_app_Some in Hr as [Hr | [_ Hr]]; [exact Hr |].
        apply list_lookup_singleton_Some in Hr as [_ Hr]. congruence.
  - (* spacing *)
    apply (built_spacing _ _ _ B).
  - (* the entries' nodes *)
    intros j n c Hj. apply lookup_app_Some in Hj as [Hj | [Hge Hj]].
    + destruct (built_node _ _ _ B j n c Hj) as (node0 & Hn0 & Hl & Hc & Hs).
      destruct (decide (pref = S j)) as [-> | Hne].
      * rewrite list_lookup_insert_eq by (rewrite length_app; cbn; lia).
        assert (parent = node0) by congruence. subst node0.
        eexists. split; [reflexivity |]. auto.
      * rewrite list_lookup_insert_ne by congruence.
        rewrite lookup_app_l by (now apply lookup_lt_Some in Hn0).
        eauto.
    + apply list_lookup_singleton_Some in Hj as [Hj0 [= <- <-]].
      assert (S j = ref) by (subst ref; lia).
      rewrite list_lookup_insert_ne by lia.
      replace (S j) with (length (Store.heap st)) by (subst ref; lia).
      rewrite list_lookup_middle by reflexivity.
      exists node. split; [reflexivity |]. subst node. cbn.
      rewrite (built_spacing _ _ _ B). auto.
  - (* the child slots *)
    intros j n c Hj. apply lookup_app_Some in Hj as [Hj | [Hge Hj]].
    + destruct (built_child _ _ _ B j n c Hj) as (pj & parentj & Hpj & Hhj & Hcj).
      assert (Hnin : n ∈ namesOf done).
      { unfold namesOf. right. apply list_elem_of_fmap. exists (n, c).
        split; [reflexivity |]. eapply list_elem_of_lookup_2, Hj. }
      assert (Hpjn : ParsedName.parentName (parseName n) <> name).
      { intros Heq. apply Hfresh. rewrite <- Heq.
        eapply list_elem_of_lookup_2. apply (built_table _ _ _ B). exact Hpj. }
      exists pj. rewrite lookup_insert_ne by congruence.
      destruct (decide (pj = pref)) as [-> | Hne].
      * rewrite list_lookup_insert_eq by (rewrite length_app; cbn; lia).
        assert (parentj = parent) by congruence. subst parentj.
        eexists. split; [exact Hpj |]. split; [reflexivity |].
        intros Hnd. cbn [Node.addChild Node.children].
        rewrite lookup_insert_ne; [exact (Hcj Hnd) |].
        intros Hidx. apply Hfresh.
        rewrite <- (name_of_parent_and_index n name Hnd); [exact Hnin | | now symmetry].
        pose proof (proj1 (built_table _ _ _ B _ _) Hpref) as Hn1.
        pose proof (proj1 (built_table _ _ _ B _ _) Hpj) as Hn2.
        congruence.
      * rewrite list_lookup_insert_ne by congruence.
        rewrite lookup_app_l by (now apply lookup_lt_Some in Hhj).
        eauto.
    + apply list_lookup_singleton_Some in Hj as [Hj0 [= <- <-]].
      exists pref. rewrite lookup_insert_ne by congruence.
      rewrite list_lookup_insert_eq by (rewrite length_app; cbn; lia).
      eexists. split; [exact Hpref |]. split; [reflexivity |].
      intros _. cbn [Node.addChild Node.children]. rewrite lookup_insert_eq.
      f_equal. subst ref. lia.
Qed.

End BuildFacts.

Section LegacyBuild.

Variable Version : Type.
Variable newVersion : string -> JsResult Version.
Variable upTo : Version -> string -> bool.
Variable createChildAABB : Box3.t -> option Z -> Box3.t.
Variable load : Node.t -> JsResult N.

(** The loop on a list that is parent before child and names no node
    twice. *)
Lemma loadEntries_built spacing0 todo : forall done known st,
  Built spacing0 done st ->
  (forall x, x ∈ known <-> x ∈ namesOf done) ->
  NoDup (namesOf done ++ map fst todo) ->
  parentBeforeChild known todo = true ->
  exists st',
    loadEntries createChildAABB todo st = inr st'
    /\ Built spacing0 (done ++ todo) st'.
Proof.
  induction todo as [| [name count] rest IH];
    intros done known st B Hknown Hnodup Hpbc.
  - exists st. rewrite app_nil_r. auto.
  - change (map fst ((name, count) :: rest)) with (name :: map fst rest) in *.
    cbn [parentBeforeChild] in Hpbc.
    apply andb_true_iff in Hpbc as [Hparent Hpbc].
    apply bool_decide_eq_true in Hparent.
    pose proof Hnodup as Hall.
    apply NoDup_app in Hnodup as (Hnd1 & Hdisj & Hnd2).
    assert (Hfresh : name ∉ namesOf done).
    { intros Hin. apply (Hdisj _ Hin). left. }
    destruct (loadEntry_built createChildAABB spacing0 done st name count B
                ltac:(now apply Hknown) Hfresh) as (st1 & Hstep & B1).
    destruct (IH (done ++ [(name, count)]) (name :: known) st1 B1) as (st' & Hloop & B').
    + intros x. rewrite namesOf_app, elem_of_cons, elem_of_app, Hknown,
        list_elem_of_singleton. cbn. tauto.
    + rewrite namesOf_app, <- app_assoc. exact Hall.
    + exact Hpbc.
    + exists st'. cbn [loadEntries]. rewrite Hstep. cbn [bindResult].
      rewrite <- app_assoc in B'. auto.
Qed.

Lemma Built_root url data numPoints :
  Built (POCJson.spacing data) []
    (Store.mk [rootNode (initialStore url data) numPoints]
              (Geometry.setRoot (Store.pco (initialStore url data)) 0%nat)
              (<["r" := 0%nat]> ∅)).
Proof.
  constructor; cbn [Store.heap Store.pco Store.nodes].
  - reflexivity.
  - intros k ref. unfold namesOf. cbn [map].
    rewrite lookup_insert_Some, lookup_empty, list_lookup_singleton_Some.
    intuition congruence.
  - reflexivity.
  - intros j name count Hj. rewrite lookup_nil in Hj. discriminate.
  - intros j name count Hj. rewrite lookup_nil in Hj. discriminate.
Qed.

(** C3 (as amended).  For a legacy document whose flat list is parent
    before child and whose names after the first entry are pairwise
    distinct, and with a root payload load that fulfils, the load succeeds
    and every entry after the first has exactly one node: it is registered in the name-to-node table under its name,
    has level [length - 1], the entry's point count and spacing
    [root spacing / 2^level], and its parent is the node registered under
    its name minus the last character; when that last character is a
    decimal digit, the node sits in the parent's child slot numbered by the
    digit's value.  No two node objects share a name and there is one
    object per entry besides the root. *)
Theorem legacy_hierarchy_round_trip (url : string) (data : POCJson.t)
    (version : Version) (first : string * N) (rest : list (string * N)) :
  newVersion (POCJson.version data) = inr version ->
  upTo version "1.4" = true ->
  (forall root, exists loaded, load root = inr loaded) ->
  POCJson.hierarchy data = first :: rest ->
  parentBeforeChild ["r"] rest = true ->
  NoDup (map fst rest) ->
  exists st root,
    parse Version newVersion upTo createChildAABB load url data = inr st
    /\ Geometry.nodes (Store.pco st) = Store.nodes st
    /\ Geometry.root (Store.pco st) = Some 0%nat
    /\ Store.heap st !! 0%nat = Some root
    /\ Node.name root = "r" /\ Node.level root = 0
    /\ Node.spacing root = POCJson.spacing data
    /\ length (Store.heap st) = S (length rest)
    /\ (forall r1 r2 n1 n2,
          Store.heap st !! r1 = Some n1 -> Store.heap st !! r2 = Some n2 ->
          Node.name n1 = Node.name n2 -> r1 = r2)
    /\ (forall name count, (name, count) ∈ rest ->
          let level := Z.of_nat (String.length name) - 1 in
          exists ref node parentRef parent,
            Store.nodes st !! name = Some ref
            /\ Store.heap st !! ref = Some node
            /\ Node.name node = name
            /\ Node.level node = level
            /\ Node.numPoints node = count
            /\ Node.spacing node = Number.div (Node.spacing root) (Math.pow2 level)
            /\ Store.nodes st !! JsString.substring name 0 level = Some parentRef
            /\ Store.heap st !! parentRef = Some parent
            /\ Node.name parent = JsString.substring name 0 level
            /\ (endsInDigit name = true ->
                exists digit,
                  getIndexFromName name = Some digit /\ 0 <= digit <= 9
                  /\ Node.children parent !! Some digit = Some ref)).
Proof.
  intros Hv Hgate Hload Hh Hpbc Hnodup.
  assert (Hroot : exists n0,
            loadRoot Version upTo load (initialStore url data) data version
            = inr (Store.mk [rootNode (initialStore url data) n0]
                     (Geometry.setRoot (Store.pco (initialStore url data)) 0%nat)
                     (<["r" := 0%nat]> ∅))).
  { destruct (loadRoot Version upTo load (initialStore url data) data version)
      as [e | st0] eqn:Hroot.
    - exfalso. unfold loadRoot in Hroot. rewrite Hh in Hroot.
      destruct first as [name0 c0].
      destruct (upTo version "1.5"); cbn [bindResult] in Hroot;
        match type of Hroot with
        | context [load ?x] =>
          destruct (Hload x) as [n Hn]; rewrite Hn in Hroot
        end; discriminate.
    - apply loadRoot_inr in Hroot as (loaded & _ & ->). exists loaded.
      reflexivity. }
  destruct Hroot as [n0 Hroot].
  set (st0 := Store.mk [rootNode (initialStore url data) n0]
                (Geometry.setRoot (Store.pco (initialStore url data)) 0%nat)
                (<["r" := 0%nat]> ∅)) in *.
  assert (Hnames : NoDup (namesOf [] ++ map fst rest)).
  { unfold namesOf. cbn [map app]. apply NoDup_cons. split; [| exact Hnodup].
    apply (parentBeforeChild_names rest ["r"] Hpbc).
    rewrite list_elem_of_singleton. discriminate. }
  destruct (loadEntries_built (POCJson.spacing data) rest [] ["r"] st0
              (Built_root url data n0) ltac:(reflexivity) Hnames Hpbc)
    as (st1 & Hloop & B).
  cbn [app] in B.
  destruct (loadEntries_preserves createChildAABB rest st0 st1 Hloop)
    as (Hlen & Hpco & Hcore).
  destruct (Hcore 0%nat _ eq_refl) as (root & Hr0 & Hrname & Hrlevel & _ & Hrspacing & _).
  exists (Store.mk (Store.heap st1)
                   (Geometry.setNodes (Store.pco st1) (Store.nodes st1))
                   (Store.nodes st1)), root.
  cbn [Store.heap Store.pco Store.nodes].
  split.
  { unfold parse. rewrite Hv. cbn [bindResult]. rewrite Hroot. cbn [bindResult].
    rewrite Hgate. unfold loadRemainingHierarchy. rewrite Hh.
    change (drop 1 (first :: rest)) with rest.
    fold st0. rewrite Hloop. reflexivity. }
  split; [reflexivity |].
  split; [rewrite Hpco; reflexivity |].
  split; [exact Hr0 |].
  split; [now rewrite <- Hrname |].
  split; [now rewrite <- Hrlevel |].
  split; [now rewrite <- Hrspacing |].
  split; [apply (Built_heap_length _ _ _ B) |].
  split.
  { intros r1 r2 n1 n2 H1 H2 Heq.
    apply (Built_name _ _ _ _ _ B) in H1, H2. rewrite Heq in H1.
    apply NoDup_lookup with (l := namesOf rest) (x := Node.name n2); assumption. }
  intros name count Hin. set (level := Z.of_nat (String.length name) - 1).
  apply list_elem_of_lookup_1 in Hin as [j Hj].
  destruct (built_node _ _ _ B j name count Hj) as (node & Hn & Hl & Hc & Hs).
  destruct (built_child _ _ _ B j name count Hj) as (pref & parent & Hp & Hph & Hpc).
  pose proof (Built_name _ _ _ _ _ B Hn) as Hnn.
  assert (Hname : Node.name node = name).
  { unfold namesOf in Hnn.
    change (("r" :: map fst rest) !! S j) with ((fst <$> rest) !! j) in Hnn.
    rewrite list_lookup_fmap, Hj in Hnn. now injection Hnn. }
  exists (S j), node, pref, parent.
  split. { apply (built_table _ _ _ B). now rewrite <- Hname. }
  split; [exact Hn |]. split; [exact Hname |]. split; [exact Hl |].
  split; [exact Hc |]. split; [now rewrite <- Hrspacing |].
  split; [exact Hp |]. split; [exact Hph |]. split.
  { apply (built_table _ _ _ B) in Hp.
    pose proof (Built_name _ _ _ _ _ B Hph) as Hpn.
    change (JsString.substring name 0 level)
      with (ParsedName.parentName (parseName name)). congruence. }
  intros Hd.
  destruct (endsInDigit_split _ Hd) as (c & digit & _ & _ & Hidx & Hrange).
  exists digit. split; [exact Hidx |]. split; [exact Hrange |].
  rewrite <- Hidx. exact (Hpc Hd).
Qed.

End LegacyBuild.

(** ** The loader on the sample documents *)

(** C2, as stated, fails: version 1.5 is above the threshold 1.4 that
    decides whether the tree is populated inline, so only the root is
    built; yet, whatever the payload loader is, the root is built and
    handed to it with the first entry's point count, 100, and not with 0. *)
Lemma root_count_known_yet_tree_not_inline :
  VersionSpec.construct (Other "FormatError") "1.5" = inr [1%N; 5%N]
  /\ VersionSpec.upTo [1%N; 5%N] "1.4" = false
  /\ Node.numPoints (rootNode (initialStore "cloud.js" SampleDoc.v15) 100) = 100%N
  /\ Node.numPoints (rootNode (initialStore "cloud.js" SampleDoc.v15) 100) <> 0%N
  /\ (forall load : Node.t -> JsResult N,
        parse VersionSpec.t (VersionSpec.construct (Other "FormatError"))
              VersionSpec.upTo (fun box _ => box) load "cloud.js" SampleDoc.v15
        = match load (rootNode (initialStore "cloud.js" SampleDoc.v15) 100) with
          | inl e => inl e
          | inr loaded =>
            inr (Store.mk
                   [rootNode (initialStore "cloud.js" SampleDoc.v15) loaded]
                   (Geometry.setNodes
                      (Geometry.setRoot
                         (Store.pco (initialStore "cloud.js" SampleDoc.v15)) 0%nat)
                      {["r" := 0%nat]})
                   {["r" := 0%nat]})
          end).
Proof.
  split; [reflexivity |]. split; [reflexivity |].
  split; [reflexivity |]. split; [discriminate |].
  intros load. vm_compute. destruct (load _); reflexivity.
Qed.

(** The amended C2 at the legacy sample: version 1.4, three entries, and
    a payload load that leaves 7 points in the root. *)
Lemma root_count_and_inline_gates_witness :
  let built := rootNode (initialStore "cloud.js" SampleDoc.legacy) 100 in
  Node.numPoints built = 100%N
  /\ exists root,
       SampleDoc.payload built = inr 7%N
       /\ Store.heap (SampleDoc.loaded SampleDoc.legacy) !! 0%nat = Some root
       /\ Node.numPoints root = 7%N
       /\ length (Store.heap (SampleDoc.loaded SampleDoc.legacy)) = 3%nat.
Proof.
  intros built.
  assert (Hparse : SampleDoc.parseDoc "cloud.js" SampleDoc.legacy
                   = inr (SampleDoc.loaded SampleDoc.legacy))
    by (vm_compute; reflexivity).
  destruct (root_count_and_inline_gates VersionSpec.t
              (VersionSpec.construct (Other "FormatError")) VersionSpec.upTo
              (fun box _ => box) SampleDoc.payload
              "cloud.js" SampleDoc.legacy [1%N; 4%N]
              (SampleDoc.loaded SampleDoc.legacy) eq_refl Hparse)
    as (_ & Hcount & loaded & root & Hload & _ & Hroot & _ & Hn & Hlen & _).
  split; [exact Hcount |].
  assert (loaded = 7%N) by (injection Hload as <-; reflexivity). subst loaded.
  exists root. repeat split; assumption.
Defined.

(** C3, as stated, fails: the list of [SampleDoc.duplicated] is parent
    before child, but its entry [("r0", 40)] has no node of its own in the
    table: the node registered under [r0] is the one of the later entry,
    with 50 points, and two node objects are named [r0]. *)
Lemma duplicated_name_registers_last_entry :
  parentBeforeChild ["r"] (drop 1 (POCJson.hierarchy SampleDoc.duplicated)) = true
  /\ ("r0", 40%N) ∈ drop 1 (POCJson.hierarchy SampleDoc.duplicated)
  /\ exists st ref node other,
       SampleDoc.parseDoc "cloud.js" SampleDoc.duplicated = inr st
       /\ Store.nodes st !! "r0" = Some ref
       /\ Store.heap st !! ref = Some node
       /\ Node.numPoints node = 50%N
       /\ Store.heap st !! 1%nat = Some other
       /\ Node.name other = "r0"
       /\ Node.numPoints other = 40%N
       /\ ref <> 1%nat.
Proof.
  split; [vm_compute; reflexivity |].
  split; [left |].
  exists (SampleDoc.loaded SampleDoc.duplicated), 2%nat.
  eexists. eexists.
  split; [vm_compute; reflexivity |].
  split; [vm_compute; reflexivity |].
  split; [vm_compute; reflexivity |].
  split; [reflexivity |].
  split; [vm_compute; reflexivity |].
  split; [reflexivity |]. split; [reflexivity | discriminate].
Qed.

(** The amended C3 at the scenario of the specification: [r03] is
    registered, at level 2 with 10 points and a quarter of the root's
    spacing, in slot 3 of [r0]. *)
Lemma legacy_hierarchy_round_trip_witness :
  exists st root ref node parentRef parent,
    SampleDoc.parseDoc "cloud.js" SampleDoc.legacy = inr st
    /\ Store.heap st !! 0%nat = Some root
    /\ length (Store.heap st) = 3%nat
    /\ Store.nodes st !! "r03" = Some ref
    /\ Store.heap st !! ref = Some node
    /\ Node.level node = 2
    /\ Node.numPoints node = 10%N
    /\ Node.spacing node = Number.div (Node.spacing root) (Math.pow2 2)
    /\ Store.nodes st !! "r0" = Some parentRef
    /\ Store.heap st !! parentRef = Some parent
    /\ Node.children parent !! Some 3 = Some ref.
Proof.
  destruct (legacy_hierarchy_round_trip VersionSpec.t
              (VersionSpec.construct (Other "FormatError")) VersionSpec.upTo
              (fun box _ => box) SampleDoc.payload
              "cloud.js" SampleDoc.legacy [1%N; 4%N] ("r", 100%N)
              [("r0", 40%N); ("r03", 10%N)])
    as (st & root & Hparse & _ & _ & Hroot & _ & _ & _ & Hlen & _ & Hentries).
  - reflexivity.
  - reflexivity.
  - intros root. exists 7%N. reflexivity.
  - reflexivity.
  - vm_compute. reflexivity.
  - apply (bool_decide_unpack _). vm_compute. exact I.
  - destruct (Hentries "r03" 10%N ltac:(right; left))
      as (ref & node & pref & parent & Ht & Hn & _ & Hl & Hc & Hs
          & Hp & Hph & _ & Hslot).
    destruct (Hslot eq_refl) as (digit & Hd & _ & Hchild).
    injection Hd as <-.
    exists st, root, ref, node, pref, parent. repeat split; assumption.
Defined.

(** C5, as stated, fails: on the sample list in which [r03] precedes
    [r0] the version string is accepted and the load is rejected, but with
    a [TypeError], which is not the error the version gate raises for a
    malformed version, the one error of the specification's FormatError
    kind that the loader can meet. *)
Lemma missing_parent_is_a_type_error :
  VersionSpec.construct (Other "FormatError") "1.x" = inl (Other "FormatError")
  /\ VersionSpec.construct (Other "FormatError")
       (POCJson.version SampleDoc.orphan) = inr [1%N; 4%N]
  /\ parentBeforeChild ["r"] (drop 1 (POCJson.hierarchy SampleDoc.orphan)) = false
  /\ SampleDoc.parseDoc "cloud.js" SampleDoc.orphan = inl TypeError
  /\ SampleDoc.parseDoc "cloud.js" SampleDoc.orphan <> inl (Other "FormatError").
Proof.
  split; [reflexivity |]. split; [reflexivity |].
  split; [vm_compute; reflexivity |].
  assert (H : SampleDoc.parseDoc "cloud.js" SampleDoc.orphan = inl TypeError)
    by (vm_compute; reflexivity).
  split; [exact H |]. rewrite H. discriminate.
Qed.

(** The amended C5 at the sample list in which [r03] precedes [r0]. *)
Lemma missing_parent_aborts_witness :
  loadEntry (fun box _ => box)
    (SampleDoc.rooted SampleDoc.orphan [1%N; 4%N]) ("r03", 40%N)
  = inl TypeError
  /\ loadRemainingHierarchy (fun box _ => box)
       (SampleDoc.rooted SampleDoc.orphan [1%N; 4%N]) SampleDoc.orphan
     = inl TypeError
  /\ SampleDoc.parseDoc "cloud.js" SampleDoc.orphan = inl TypeError.
Proof.
  apply (missing_parent_aborts VersionSpec.t (VersionSpec.construct (Other "FormatError"))
           VersionSpec.upTo (fun box _ => box) SampleDoc.payload
           "cloud.js" SampleDoc.orphan [1%N; 4%N]
           (SampleDoc.rooted SampleDoc.orphan [1%N; 4%N])
           (SampleDoc.rooted SampleDoc.orphan [1%N; 4%N])
           [] [("r0", 50%N)] "r03" 40%N).
  - reflexivity.
  - reflexivity.
  - vm_compute. reflexivity.
  - reflexivity.
  - reflexivity.
  - vm_compute. reflexivity.
Defined.

(** ** The comparator *)

Lemma string_compare_refl (s : string) : (s ?= s)%string = Eq.
Proof.
  pose proof (String.compare_antisym s s) as H.
  destruct (s ?= s)%string; [reflexivity | discriminate | discriminate].
Qed.

Lemma string_compare_lt_trans (a : string) : forall b c,
  (a ?= b)%string = Lt -> (b ?= c)%string = Lt -> (a ?= c)%string = Lt.
Proof.
  induction a as [| x a IH]; intros [| y b] [| z c]; cbn; try easy.
  unfold Ascii.compare.
  destruct (N.compare_spec (N_of_ascii x) (N_of_ascii y)) as [Hxy | Hxy | Hxy];
    try discriminate;
  destruct (N.compare_spec (N_of_ascii y) (N_of_ascii z)) as [Hyz | Hyz | Hyz];
    try discriminate;
  destruct (N.compare_spec (N_of_ascii x) (N_of_ascii z)) as [Hxz | Hxz | Hxz];
    try lia; try reflexivity.
  apply IH.
Qed.

Lemma ltb_compare (a b : string) :
  JsString.ltb a b = true <-> (a ?= b)%string = Lt.
Proof.
  unfold JsString.ltb, String.ltb.
  destruct (a ?= b)%string; split; congruence.
Qed.

(** On strings of the same length, [<] is the order of the first
    character in which they differ. *)
Lemma ltb_first_difference (a : string) : forall b,
  String.length a = String.length b ->
  (JsString.ltb a b = true
   <-> exists p x y a' b',
         a = (p ++ String x a')%string /\ b = (p ++ String y b')%string
         /\ (N_of_ascii x < N_of_ascii y)%N).
Proof.
  induction a as [| x a IH]; intros [| y b] Hlen; try discriminate.
  - split; [discriminate |].
    intros (p & x & y & a' & b' & Ha & _). destruct p; discriminate.
  - injection Hlen as Hlen. rewrite ltb_compare. cbn [String.compare].
    unfold Ascii.compare.
    destruct (N.compare_spec (N_of_ascii x) (N_of_ascii y)) as [Hxy | Hxy | Hxy].
    + rewrite <- ltb_compare, (IH b Hlen).
      assert (x = y) by (rewrite <- (ascii_N_embedding x), <- (ascii_N_embedding y);
                         congruence).
      subst y. split.
      * intros (p & x' & y' & a' & b' & -> & -> & Hlt).
        exists (String x p), x', y', a', b'. auto.
      * intros (p & x' & y' & a' & b' & Ha & Hb & Hlt).
        destruct p as [| q p]; unfold String.append in Ha, Hb; fold String.append in Ha, Hb;
          simplify_eq; [lia | eauto 10].
    + split; [intros _ | reflexivity].
      exists "", x, y, a, b. auto.
    + split; [discriminate |].
      intros (p & x' & y' & a' & b' & Ha & Hb & Hlt).
      destruct p as [| q p]; unfold String.append in Ha, Hb; fold String.append in Ha, Hb;
          simplify_eq; lia.
Qed.

Section Comparator.

Context {A : Type} `{IPointCloudTreeNode A}.

Lemma byLevelAndIndex_cases (a b : A) :
  (String.length (name a) <> String.length (name b)
   /\ byLevelAndIndex a b
      = Z.of_nat (String.length (name a)) - Z.of_nat (String.length (name b)))
  \/ (String.length (name a) = String.length (name b)
      /\ match (name a ?= name b)%string with
         | Lt => byLevelAndIndex a b = -1
         | Gt => byLevelAndIndex a b = 1
         | Eq => byLevelAndIndex a b = 0
         end).
Proof.
  unfold byLevelAndIndex, JsString.ltb, String.ltb.
  destruct (Nat.eqb_spec (String.length (name a)) (String.length (name b)))
    as [Heq | Hne]; cbn [negb].
  - right. split; [exact Heq |].
    rewrite (String.compare_antisym (name b) (name a)).
    destruct (name a ?= name b)%string; reflexivity.
  - left. auto.
Qed.

(** C9.  [byLevelAndIndex] puts a shorter name first; among names of
    the same length it follows the lexicographic order of the character
    codes; it returns 0 exactly for equal names; and "is ordered before" is
    a strict total order on names: irreflexive, transitive, the mirror
    image of "is ordered after", and total on distinct names. *)
Theorem byLevelAndIndex_order (a b c : A) :
  ((String.length (name a) < String.length (name b))%nat ->
     byLevelAndIndex a b < 0)
  /\ (String.length (name a) = String.length (name b) ->
      (byLevelAndIndex a b < 0
       <-> exists p x y a' b',
             name a = (p ++ String x a')%string
             /\ name b = (p ++ String y b')%string
             /\ (N_of_ascii x < N_of_ascii y)%N))
  /\ (byLevelAndIndex a b = 0 <-> name a = name b)
  /\ (byLevelAndIndex a b < 0 <-> 0 < byLevelAndIndex b a)
  /\ ~ byLevelAndIndex a a < 0
  /\ (byLevelAndIndex a b < 0 -> byLevelAndIndex b c < 0 ->
      byLevelAndIndex a c < 0)
  /\ (name a <> name b -> byLevelAndIndex a b < 0 \/ byLevelAndIndex b a < 0).
Proof.
  pose proof (byLevelAndIndex_cases a b) as Hab.
  pose proof (byLevelAndIndex_cases b a) as Hba.
  pose proof (byLevelAndIndex_cases b c) as Hbc.
  pose proof (byLevelAndIndex_cases a c) as Hac.
  pose proof (byLevelAndIndex_cases a a) as Haa.
  rewrite string_compare_refl in Haa.
  rewrite (String.compare_antisym (name b) (name a)) in Hba.
  pose proof (String.compare_eq_iff (name a) (name b)) as Heq.
  pose proof (string_compare_refl (name a)) as Hrefl.
  pose proof (string_compare_lt_trans (name a) (name b) (name c)) as Htrans.
  split; [| split; [| split; [| split; [| split; [| split]]]]].
  - intros Hlt. destruct Hab as [[_ ->] | [Hlen _]]; lia.
  - intros Hlen. rewrite <- (ltb_first_difference _ _ Hlen), ltb_compare.
    destruct Hab as [[Hne _] | [_ Hcmp]]; [congruence |].
    destruct (name a ?= name b)%string; split; (congruence || lia).
  - split.
    + intros Hzero. destruct Hab as [[Hne Hval] | [_ Hcmp]]; [lia |].
      destruct (name a ?= name b)%string; [auto | lia | lia].
    + intros Hnames. destruct Hab as [[Hne _] | [_ Hcmp]]; [congruence |].
      rewrite Hnames, string_compare_refl in Hcmp. exact Hcmp.
  - destruct Hab as [[Hne Hv] | [Hlen Hcmp]];
      destruct Hba as [[Hne' Hv'] | [Hlen' Hcmp']]; try congruence; try lia.
    destruct (name a ?= name b)%string; cbn [CompOpp] in Hcmp'; lia.
  - destruct Haa as [[Hne _] | [_ ->]]; [congruence | lia].
  - intros Hlt1 Hlt2.
    destruct Hab as [[Hn1 Hv1] | [Hl1 Hc1]];
      destruct Hbc as [[Hn2 Hv2] | [Hl2 Hc2]];
      destruct Hac as [[Hn3 Hv3] | [Hl3 Hc3]]; try lia.
    destruct (name a ?= name b)%string; try lia.
    destruct (name b ?= name c)%string; try lia.
    rewrite Htrans in Hc3 by reflexivity. lia.
  - intros Hne. destruct Hab as [[Hn Hv] | [Hl Hc]];
      destruct Hba as [[Hn' Hv'] | [Hl' Hc']]; try congruence; try lia.
    destruct (name a ?= name b)%string; cbn [CompOpp] in Hc'; [tauto | lia | lia].
Qed.

End Comparator.

(** ** Concrete checks *)

Example getIndexFromName_digit : getIndexFromName "r07" = Some 7.
Proof. reflexivity. Qed.

Example getIndexFromName_letter : getIndexFromName "r" = None.
Proof. reflexivity. Qed.

Example parseName_r03 :
  parseName "r03" = ParsedName.mk (Some 3) "r0" 2.
Proof. reflexivity. Qed.

Example version_gate_thresholds :
  VersionSpec.upTo [1%N; 4%N] "1.4" = true
  /\ VersionSpec.upTo [1%N; 5%N] "1.4" = false
  /\ VersionSpec.upTo [1%N; 5%N] "1.5" = true
  /\ VersionSpec.upTo [1%N; 6%N] "1.5" = false
  /\ VersionSpec.upTo [1%N] "1.4" = true
  /\ VersionSpec.parse "1.x" = None.
Proof. repeat split. Qed.

(** The scenario of the specification: quantized (100, 200, 300) at scale
    0.01 decodes to (1, 2, 3). *)
Example sample_position :
  Message.position Sample.coloredMessage
  = [Number.fround (Number.ofZ 1); Number.fround (Number.ofZ 2);
     Number.fround (Number.ofZ 3)].
Proof. vm_compute. reflexivity. Qed.

Example sample_color :
  Message.color Sample.coloredMessage = [255; 128; 18; 255].
Proof. reflexivity. Qed.

Example sample_returns :
  Message.returnNumber Sample.coloredMessage = [2]
  /\ Message.numberOfReturns Sample.coloredMessage = [3].
Proof. split; reflexivity. Qed.

(** A request for 2^50 points asks for more than 2^53 - 1 bytes: on every
    host it ends in a [RangeError] before any read, whatever the buffer. *)
Example huge_request_throws_before_reading (host : Host.t) :
  onmessage host (mkEvent (Some (Sample.request Sample.record (2 ^ 50) 0 2)))
  = ([], Threw RangeError).
Proof.
  apply (onmessage_outcome host (Sample.request Sample.record (2 ^ 50) 0 2)
           Sample.record eq_refl).
  apply allocatesOutputs_too_long. vm_compute. reflexivity.
Qed.

(** A host that creates no block of more than 39 bytes refuses the first
    buffer of a one-point request, which takes 40. *)
Example limited_host_refuses :
  onmessage (Host.limited 39) (mkEvent (Some Sample.colored))
  = ([], Threw RangeError).
Proof. vm_compute. reflexivity. Qed.

Example byLevelAndIndex_sample :
  byLevelAndIndex (Node.create "r3" (Box3.mk Vector3.origin Vector3.origin))
                  (Node.create "r01" (Box3.mk Vector3.origin Vector3.origin)) = -1
  /\ byLevelAndIndex (Node.create "r30" (Box3.mk Vector3.origin Vector3.origin))
                     (Node.create "r07" (Box3.mk Vector3.origin Vector3.origin)) = 1.
Proof. split; reflexivity. Qed.

(* ================================================================== *)
(** * Part III: further properties of the code                         *)
(* ================================================================== *)

(** ** The decoder: the other output arrays *)

Lemma getUint8_byteAt buffer offset :
  DataView.unsignedAt buffer offset 1 true = DataView.byteAt buffer offset.
Proof.
  unfold DataView.unsignedAt; simpl DataView.bytesLE.
  rewrite lor_shiftl_byte by apply byteAt_range. lia.
Qed.

(** What one iteration stores in the arrays other than positions and
    colours, and in the two aggregates. *)
Lemma decodePoint_fields d buffer i st st' :
  snd (decodePoint d buffer i st) = inr st' ->
  let base := (i * EventData.pointSize d)%N in
  let packed := DataView.byteAt buffer (base + 14) in
  let x := world d v0 (int32LE buffer base) in
  let y := world d v1 (int32LE buffer (base + 4)) in
  let z := world d v2 (int32LE buffer (base + 8)) in
  let n := Number.ofZ (Z.of_N (EventData.numPoints d)) in
  Locals.intensities st'
  = Float32Array.set (Locals.intensities st) i
      (Number.ofZ (uint16LE buffer (base + 12)))
  /\ Locals.returnNumbers st'
     = Uint8Array.set (Locals.returnNumbers st) i (Z.land packed 7)
  /\ Locals.numberOfReturns st'
     = Uint8Array.set (Locals.numberOfReturns st) i (Z.shiftr (Z.land packed 56) 3)
  /\ Locals.pointSourceIDs st'
     = Uint16Array.set (Locals.pointSourceIDs st) i (uint16LE buffer (base + 18))
  /\ Locals.mean st'
     = mkVec3 (Number.add (v0 (Locals.mean st)) (Number.div x n))
              (Number.add (v1 (Locals.mean st)) (Number.div y n))
              (Number.add (v2 (Locals.mean st)) (Number.div z n))
  /\ Locals.tightBoundingBox st'
     = TightBoundingBox.mk
         (mkVec3 (Math.min (v0 (TightBoundingBox.min (Locals.tightBoundingBox st))) x)
                 (Math.min (v1 (TightBoundingBox.min (Locals.tightBoundingBox st))) y)
                 (Math.min (v2 (TightBoundingBox.min (Locals.tightBoundingBox st))) z))
         (mkVec3 (Math.max (v0 (TightBoundingBox.max (Locals.tightBoundingBox st))) x)
                 (Math.max (v1 (TightBoundingBox.max (Locals.tightBoundingBox st))) y)
                 (Math.max (v2 (TightBoundingBox.max (Locals.tightBoundingBox st))) z)).
Proof.
  unfold decodePoint. step_reads.
  rewrite bind_ret_snd, !getInt32_int32LE, !unsignedAt_uint16LE, getUint8_byteAt.
  split_ranges; try discriminate.
  destruct (EventData.pointFormatID d =? 2)%N.
  - destruct (snd (decodeColor d buffer i (Locals.colors st))) as [e | c];
      [discriminate |].
    intros [= <-]. repeat split.
  - cbn [snd ret]. intros [= <-]. repeat split.
Qed.

(** An array with one slot per point. *)
Lemma single_step {X} (l l' : list X) (i : N) (v : X) :
  l' = <[N.to_nat i := v]> l ->
  length l' = length l /\
  (forall idx, (idx < 1 * N.to_nat i \/ 1 * S (N.to_nat i) <= idx)%nat ->
     l' !! idx = l !! idx) /\
  (forall k, (k < 1)%nat -> (1 * N.to_nat i + k < length l)%nat ->
     l' !! (1 * N.to_nat i + k)%nat = Some v).
Proof.
  intros ->. split; [apply length_insert |]. split.
  - intros idx Hidx. apply list_lookup_insert_ne. lia.
  - intros k Hk Hin. replace (1 * N.to_nat i + k)%nat with (N.to_nat i) in * by lia.
    now apply list_lookup_insert_eq.
Qed.

(** The loop's result in an array with one slot per point. *)
Lemma decodeLoop_single {X} d buffer (array : Locals.t -> list X) (value : N -> X) :
  (forall i st st', snd (decodePoint d buffer i st) = inr st' ->
     array st' = <[N.to_nat i := value i]> (array st)) ->
  forall remaining st st' i,
    snd (decodeLoop d buffer remaining 0 st) = inr st' ->
    (i < N.of_nat remaining)%N -> (N.to_nat i < length (array st))%nat ->
    length (array st') = length (array st)
    /\ array st' !! N.to_nat i = Some (value i).
Proof.
  intros Hstep remaining st st' i Hloop Hi Hlen.
  destruct (decodeLoop_strided d buffer array 1 (fun j _ => value j)
              (fun j s s' Hp => single_step _ _ j _ (Hstep j s s' Hp))
              remaining 0%N st st' Hloop) as (Hl & _ & Hset).
  split; [exact Hl |].
  specialize (Hset i 0%nat ltac:(lia) ltac:(lia) ltac:(lia)).
  now replace (1 * N.to_nat i + 0)%nat with (N.to_nat i) in Hset by lia.
Qed.

Lemma decodeLoop_fits host d buffer message i :
  EventData.buffer d = Some buffer ->
  snd (onmessage host (mkEvent (Some d))) = Posted message ->
  (i < EventData.numPoints d)%N ->
  (i * EventData.pointSize d + recordExtent (EventData.pointFormatID d)
   <= byteLength buffer)%N.
Proof.
  intros Hb Hposted Hi.
  destruct (onmessage_posted _ _ _ _ Hb Hposted) as (st & Hloop & _).
  destruct (N.leb_spec (i * EventData.pointSize d
                        + recordExtent (EventData.pointFormatID d))
                       (byteLength buffer)) as [H | H]; [exact H |].
  rewrite (decodeLoop_fails d buffer (N.to_nat (EventData.numPoints d)) 0 _ i
             ltac:(lia) H) in Hloop.
  discriminate.
Qed.

Lemma length_initial_intensities n :
  length (Locals.intensities (initialLocals n)) = N.to_nat n.
Proof. cbn. unfold Float32Array.create. now rewrite length_replicate. Qed.

Lemma length_initial_returnNumbers n :
  length (Locals.returnNumbers (initialLocals n)) = N.to_nat n.
Proof. cbn. unfold Uint8Array.create. now rewrite length_replicate. Qed.

Lemma length_initial_numberOfReturns n :
  length (Locals.numberOfReturns (initialLocals n)) = N.to_nat n.
Proof. cbn. unfold Uint8Array.create. now rewrite length_replicate. Qed.

Lemma length_initial_pointSourceIDs n :
  length (Locals.pointSourceIDs (initialLocals n)) = N.to_nat n.
Proof. cbn. unfold Uint16Array.create. now rewrite length_replicate. Qed.

(** The 65536 intensities, by high and low byte: each survives the store
    into a [Float32Array] unchanged. *)
Lemma storedUint16_bytes h l :
  (h < 256)%nat -> (l < 256)%nat ->
  holdsInteger (storedUint16 (256 * Z.of_nat h + Z.of_nat l))
               (256 * Z.of_nat h + Z.of_nat l) = true.
Proof.
  assert (table :
    forallb (fun h =>
      forallb (fun l => holdsInteger (storedUint16 (256 * Z.of_nat h + Z.of_nat l))
                                     (256 * Z.of_nat h + Z.of_nat l))
              (seq 0 256))
      (seq 0 256) = true) by (vm_compute; reflexivity).
  intros Hh Hl.
  apply (forallb_seq
           (fun l => holdsInteger (storedUint16 (256 * Z.of_nat h + Z.of_nat l))
                                  (256 * Z.of_nat h + Z.of_nat l))
           256 l); [| exact Hl].
  apply (forallb_seq
           (fun h => forallb
              (fun l => holdsInteger (storedUint16 (256 * Z.of_nat h + Z.of_nat l))
                                     (256 * Z.of_nat h + Z.of_nat l))
              (seq 0 256))
           256 h); [exact table | exact Hh].
Qed.

Lemma storedUint16_exact u :
  0 <= u < 65536 -> integerValue (storedUint16 u) = Some u.
Proof.
  intros Hu.
  assert (Hh : 0 <= u / 256 < 256)
    by (split; [apply Z.div_pos | apply Z.div_lt_upper_bound]; lia).
  assert (Hl : 0 <= u mod 256 < 256) by (apply Z.mod_pos_bound; lia).
  pose proof (storedUint16_bytes (Z.to_nat (u / 256)) (Z.to_nat (u mod 256))) as Hb.
  rewrite !Z2Nat.id in Hb by lia.
  rewrite <- (Z.div_mod u 256) in Hb by lia.
  specialize (Hb ltac:(lia) ltac:(lia)). unfold holdsInteger in Hb.
  destruct (integerValue (storedUint16 u)) as [v |]; [| discriminate].
  apply Z.eqb_eq in Hb. now subst v.
Qed.

(** The two masks of the return byte, on each of its 256 values. *)
Lemma return_masks b :
  0 <= b < 256 ->
  Z.land b 7 mod 2 ^ 8 = b mod 8
  /\ Z.shiftr (Z.land b 56) 3 mod 2 ^ 8 = (b / 8) mod 8.
Proof.
  assert (table :
    forallb (fun k =>
      (Z.land (Z.of_nat k) 7 mod 2 ^ 8 =? Z.of_nat k mod 8)
      && (Z.shiftr (Z.land (Z.of_nat k) 56) 3 mod 2 ^ 8 =? (Z.of_nat k / 8) mod 8))
      (seq 0 256) = true) by (vm_compute; reflexivity).
  intros Hb.
  pose proof (forallb_seq
    (fun k =>
      (Z.land (Z.of_nat k) 7 mod 2 ^ 8 =? Z.of_nat k mod 8)
      && (Z.shiftr (Z.land (Z.of_nat k) 56) 3 mod 2 ^ 8 =? (Z.of_nat k / 8) mod 8))
    256 (Z.to_nat b) table ltac:(lia)) as H.
  cbv beta in H. rewrite Z2Nat.id in H by lia.
  apply andb_prop in H as [H1 H2]. split; now apply Z.eqb_eq.
Qed.

(** X1.  The intensity of every decoded point is the unsigned
    little-endian 16-bit value at record offset 12, and the store into the
    [Float32Array] loses nothing: the slot holds a binary32 number equal to
    that integer. *)
Theorem decode_intensity (host : Host.t) (d : EventData.t) (buffer : ArrayBuffer)
    (message : Message.t) (i : N) :
  EventData.buffer d = Some buffer ->
  snd (onmessage host (mkEvent (Some d))) = Posted message ->
  (i < EventData.numPoints d)%N ->
  let u := uint16LE buffer (i * EventData.pointSize d + 12) in
  0 <= u < 65536
  /\ snd (DataView.getUint16 buffer (i * EventData.pointSize d + 12) true) = inr u
  /\ exists stored : F32,
       Message.intensity message !! N.to_nat i = Some stored
       /\ stored = Number.fround (Number.ofZ u)
       /\ integerValue stored = Some u.
Proof.
  intros Hb Hposted Hi u.
  pose proof (decodeLoop_fits _ _ _ _ i Hb Hposted Hi) as Hfit.
  destruct (onmessage_posted _ _ _ _ Hb Hposted) as (st & Hloop & ->).
  destruct (decodeLoop_single d buffer Locals.intensities
              (fun j => Number.fround
                 (Number.ofZ (uint16LE buffer (j * EventData.pointSize d + 12))))
              (fun j s s' Hp => proj1 (decodePoint_fields d buffer j s s' Hp))
              _ _ _ i Hloop ltac:(lia)
              ltac:(rewrite length_initial_intensities; lia)) as [_ Hat].
  pose proof (uint16LE_range buffer (i * EventData.pointSize d + 12)) as Hu.
  fold u in Hu. split; [exact Hu |]. split.
  - unfold DataView.getUint16. rewrite access_snd, unsignedAt_uint16LE.
    replace (DataView.inRange _ _ _) with true; [reflexivity |].
    symmetry. apply inRange_true.
    unfold recordExtent in Hfit. destruct (_ =? _)%N in Hfit; simpl; lia.
  - exists (Number.fround (Number.ofZ u)). split; [exact Hat |].
    split; [reflexivity |]. now apply storedUint16_exact.
Qed.

Lemma decode_intensity_witness :
  uint16LE SampleCloud.buffer (1 * 26 + 12) = 65535
  /\ exists stored : F32,
       Message.intensity SampleCloud.twoMessage !! 1%nat = Some stored
       /\ integerValue stored = Some 65535.
Proof.
  destruct (decode_intensity Host.unlimited SampleCloud.two SampleCloud.buffer
              SampleCloud.twoMessage 1 eq_refl eq_refl eq_refl)
    as (_ & _ & stored & Hat & _ & Hv).
  split; [reflexivity |]. exists stored. split; [exact Hat | exact Hv].
Defined.

(** X2.  The return number of every decoded point is the low three bits
    of the byte at record offset 14 and its number of returns the next
    three bits; both lie in 0..7 and the two top bits of the byte play no
    part. *)
Theorem decode_return_fields (host : Host.t) (d : EventData.t) (buffer : ArrayBuffer)
    (message : Message.t) (i : N) :
  EventData.buffer d = Some buffer ->
  snd (onmessage host (mkEvent (Some d))) = Posted message ->
  (i < EventData.numPoints d)%N ->
  let packed := DataView.byteAt buffer (i * EventData.pointSize d + 14) in
  snd (DataView.getUint8 buffer (i * EventData.pointSize d + 14) true) = inr packed
  /\ Message.returnNumber message !! N.to_nat i = Some (packed mod 8)
  /\ Message.numberOfReturns message !! N.to_nat i = Some ((packed / 8) mod 8)
  /\ packed mod 64 = packed mod 8 + 8 * ((packed / 8) mod 8).
Proof.
  intros Hb Hposted Hi packed.
  pose proof (decodeLoop_fits _ _ _ _ i Hb Hposted Hi) as Hfit.
  destruct (onmessage_posted _ _ _ _ Hb Hposted) as (st & Hloop & ->).
  pose proof (byteAt_range buffer (i * EventData.pointSize d + 14)) as Hbyte.
  fold packed in Hbyte.
  destruct (return_masks packed Hbyte) as [Hlow Hhigh].
  destruct (decodeLoop_single d buffer Locals.returnNumbers
              (fun j => Z.land (DataView.byteAt buffer (j * EventData.pointSize d + 14)) 7
                        mod 2 ^ 8)
              (fun j s s' Hp =>
                 proj1 (proj2 (decodePoint_fields d buffer j s s' Hp)))
              _ _ _ i Hloop ltac:(lia)
              ltac:(rewrite length_initial_returnNumbers; lia)) as [_ Hrn].
  destruct (decodeLoop_single d buffer Locals.numberOfReturns
              (fun j => Z.shiftr
                          (Z.land (DataView.byteAt buffer (j * EventData.pointSize d + 14)) 56)
                          3 mod 2 ^ 8)
              (fun j s s' Hp =>
                 proj1 (proj2 (proj2 (decodePoint_fields d buffer j s s' Hp))))
              _ _ _ i Hloop ltac:(lia)
              ltac:(rewrite length_initial_numberOfReturns; lia)) as [_ Hnr].
  cbv beta in Hrn, Hnr. fold packed in Hrn, Hnr. rewrite Hlow in Hrn. rewrite Hhigh in Hnr.
  split; [| split; [exact Hrn | split; [exact Hnr |]]].
  - unfold DataView.getUint8. rewrite access_snd, getUint8_byteAt.
    replace (DataView.inRange _ _ _) with true; [reflexivity |].
    symmetry. apply inRange_true.
    unfold recordExtent in Hfit. destruct (_ =? _)%N in Hfit; simpl; lia.
  - change 64 with (8 * 8). rewrite Z.rem_mul_r by lia. reflexivity.
Qed.

Lemma decode_return_fields_witness :
  DataView.byteAt SampleCloud.buffer (1 * 26 + 14) = 255
  /\ Message.returnNumber SampleCloud.twoMessage !! 1%nat = Some 7
  /\ Message.numberOfReturns SampleCloud.twoMessage !! 1%nat = Some 7.
Proof.
  destruct (decode_return_fields Host.unlimited SampleCloud.two SampleCloud.buffer
              SampleCloud.twoMessage 1 eq_refl eq_refl eq_refl)
    as (_ & Hrn & Hnr & _).
  split; [reflexivity |]. split; [exact Hrn | exact Hnr].
Defined.

(** X3.  The point source id of every decoded point is the unsigned
    little-endian 16-bit value at record offset 18, unchanged by the store
    into the [Uint16Array]. *)
Theorem decode_point_source_id (host : Host.t) (d : EventData.t) (buffer : ArrayBuffer)
    (message : Message.t) (i : N) :
  EventData.buffer d = Some buffer ->
  snd (onmessage host (mkEvent (Some d))) = Posted message ->
  (i < EventData.numPoints d)%N ->
  let base := (i * EventData.pointSize d)%N in
  snd (DataView.getUint16 buffer (base + 18) true) = inr (uint16LE buffer (base + 18))
  /\ Message.pointSourceID message !! N.to_nat i
     = Some (DataView.byteAt buffer (base + 18)
             + 256 * DataView.byteAt buffer (base + 19)).
Proof.
  intros Hb Hposted Hi base.
  pose proof (decodeLoop_fits _ _ _ _ i Hb Hposted Hi) as Hfit.
  destruct (onmessage_posted _ _ _ _ Hb Hposted) as (st & Hloop & ->).
  destruct (decodeLoop_single d buffer Locals.pointSourceIDs
              (fun j => uint16LE buffer (j * EventData.pointSize d + 18) mod 2 ^ 16)
              (fun j s s' Hp =>
                 proj1 (proj2 (proj2 (proj2 (decodePoint_fields d buffer j s s' Hp)))))
              _ _ _ i Hloop ltac:(lia)
              ltac:(rewrite length_initial_pointSourceIDs; lia)) as [_ Hat].
  pose proof (uint16LE_range buffer (base + 18)) as Hu.
  split.
  - unfold DataView.getUint16. rewrite access_snd, unsignedAt_uint16LE.
    replace (DataView.inRange _ _ _) with true; [reflexivity |].
    symmetry. apply inRange_true.
    unfold recordExtent in Hfit. destruct (_ =? _)%N in Hfit; subst base; simpl; lia.
  - cbn [Message.pointSourceID buildMessage]. rewrite Hat. fold base.
    rewrite Z.mod_small by (change (2 ^ 16) with 65536; lia).
    unfold uint16LE. replace (base + 18 + 1)%N with (base + 19)%N by lia.
    reflexivity.
Qed.

Lemma decode_point_source_id_witness :
  Message.pointSourceID SampleCloud.twoMessage !! 1%nat = Some (2 + 256 * 1).
Proof.
  exact (proj2 (decode_point_source_id Host.unlimited SampleCloud.two SampleCloud.buffer
                  SampleCloud.twoMessage 1 eq_refl eq_refl eq_refl)).
Defined.

Lemma fillIndices_spec remaining : forall i a,
  length (fillIndices remaining i a) = length a
  /\ (forall idx, (idx < N.to_nat i)%nat -> fillIndices remaining i a !! idx = a !! idx)
  /\ (forall j, (i <= j < i + N.of_nat remaining)%N -> (N.to_nat j < length a)%nat ->
        fillIndices remaining i a !! N.to_nat j = Some (Z.of_N j mod 2 ^ 32)).
Proof.
  induction remaining as [| k IH]; intros i a; simpl.
  - repeat split; intros; lia.
  - destruct (IH (i + 1)%N (Uint32Array.set a i (Z.of_N i))) as (Hlen & Hframe & Hset).
    unfold Uint32Array.set in *. rewrite length_insert in *.
    split; [exact Hlen |]. split.
    + intros idx Hidx. rewrite Hframe by lia. apply list_lookup_insert_ne. lia.
    + intros j Hj Hin. destruct (N.eq_dec j i) as [-> | Hne].
      * rewrite Hframe by lia. now apply list_lookup_insert_eq.
      * apply Hset; [lia | exact Hin].
Qed.

(** X4.  A decoded payload of [n] points comes with an index buffer of
    [n] entries that is the identity: entry [i] is [i] (index buffers are
    [Uint32Array]s, so for [n] up to 2^32). *)
Theorem decode_indices (host : Host.t) (d : EventData.t) (buffer : ArrayBuffer)
    (message : Message.t) :
  EventData.buffer d = Some buffer ->
  snd (onmessage host (mkEvent (Some d))) = Posted message ->
  (EventData.numPoints d <= 2 ^ 32)%N ->
  length (Message.indices message) = N.to_nat (EventData.numPoints d)
  /\ forall i, (i < EventData.numPoints d)%N ->
       Message.indices message !! N.to_nat i = Some (Z.of_N i).
Proof.
  intros Hb Hposted Hn.
  destruct (onmessage_posted _ _ _ _ Hb Hposted) as (st & _ & ->).
  cbn [Message.indices buildMessage].
  destruct (fillIndices_spec (N.to_nat (EventData.numPoints d)) 0
              (Uint32Array.create (EventData.numPoints d))) as (Hlen & _ & Hset).
  unfold Uint32Array.create in *. rewrite length_replicate in *.
  split; [exact Hlen |].
  intros i Hi. rewrite Hset by lia.
  rewrite Z.mod_small; [reflexivity |].
  change (2 ^ 32)%N with 4294967296%N in Hn. change (2 ^ 32) with 4294967296. lia.
Qed.

Lemma decode_indices_witness :
  length (Message.indices SampleCloud.twoMessage) = 2%nat
  /\ Message.indices SampleCloud.twoMessage !! 1%nat = Some 1.
Proof.
  destruct (decode_indices Host.unlimited SampleCloud.two SampleCloud.buffer
              SampleCloud.twoMessage eq_refl eq_refl ltac:(vm_compute; discriminate))
    as [Hlen Hat].
  split; [exact Hlen | exact (Hat 1%N eq_refl)].
Defined.

(** ** The decoder: sizes of the output arrays *)

Lemma decodePoint_lengths d buffer i st st' :
  snd (decodePoint d buffer i st) = inr st' ->
  length (Locals.positions st') = length (Locals.positions st)
  /\ length (Locals.colors st') = length (Locals.colors st)
  /\ length (Locals.intensities st') = length (Locals.intensities st)
  /\ length (Locals.returnNumbers st') = length (Locals.returnNumbers st)
  /\ length (Locals.numberOfReturns st') = length (Locals.numberOfReturns st)
  /\ length (Locals.pointSourceIDs st') = length (Locals.pointSourceIDs st).
Proof.
  intros Hp.
  destruct (decodePoint_fields _ _ _ _ _ Hp) as (-> & -> & -> & -> & _).
  destruct (decodePoint_inr _ _ _ _ _ Hp) as (_ & -> & Hc).
  unfold Float32Array.set, Uint8Array.set, Uint16Array.set.
  rewrite !length_insert. repeat split.
  destruct (_ =? _)%N.
  - apply decodeColor_inr in Hc as (_ & ->).
    unfold Uint8Array.set, Uint8Array.setNumber. now rewrite !length_insert.
  - now rewrite Hc.
Qed.

Lemma decodeLoop_lengths d buffer remaining : forall i st st',
  snd (decodeLoop d buffer remaining i st) = inr st' ->
  length (Locals.positions st') = length (Locals.positions st)
  /\ length (Locals.colors st') = length (Locals.colors st)
  /\ length (Locals.intensities st') = length (Locals.intensities st)
  /\ length (Locals.returnNumbers st') = length (Locals.returnNumbers st)
  /\ length (Locals.numberOfReturns st') = length (Locals.numberOfReturns st)
  /\ length (Locals.pointSourceIDs st') = length (Locals.pointSourceIDs st).
Proof.
  induction remaining as [| k IH]; intros i st st'; simpl.
  - intros [= <-]. repeat split.
  - destruct (snd (decodePoint d buffer i st)) as [e | st1] eqn:Hp.
    { rewrite (bind_snd_inl _ _ e Hp). discriminate. }
    rewrite (bind_snd_inr _ _ st1 Hp). intros Hloop.
    destruct (decodePoint_lengths _ _ _ _ _ Hp) as (H1 & H2 & H3 & H4 & H5 & H6).
    destruct (IH _ _ _ Hloop) as (K1 & K2 & K3 & K4 & K5 & K6).
    repeat split; congruence.
Qed.

(** X5.  Whatever the point format and the record size, a decoded payload
    of [n] points carries [3n] position components, [4n] colour bytes and
    [n] entries in each of the intensity, return number, number of returns,
    point source id and index buffers. *)
Theorem decode_array_lengths (host : Host.t) (d : EventData.t) (buffer : ArrayBuffer)
    (message : Message.t) :
  EventData.buffer d = Some buffer ->
  snd (onmessage host (mkEvent (Some d))) = Posted message ->
  let n := N.to_nat (EventData.numPoints d) in
  length (Message.position message) = (3 * n)%nat
  /\ length (Message.color message) = (4 * n)%nat
  /\ length (Message.intensity message) = n
  /\ length (Message.returnNumber message) = n
  /\ length (Message.numberOfReturns message) = n
  /\ length (Message.pointSourceID message) = n
  /\ length (Message.indices message) = n.
Proof.
  intros Hb Hposted n.
  destruct (onmessage_posted _ _ _ _ Hb Hposted) as (st & Hloop & ->).
  destruct (decodeLoop_lengths _ _ _ _ _ _ Hloop) as (H1 & H2 & H3 & H4 & H5 & H6).
  cbn [Message.position Message.color Message.intensity Message.returnNumber
       Message.numberOfReturns Message.pointSourceID Message.indices buildMessage].
  rewrite H1, H2, H3, H4, H5, H6.
  rewrite length_initial_positions, length_initial_colors,
    length_initial_intensities, length_initial_returnNumbers,
    length_initial_numberOfReturns, length_initial_pointSourceIDs.
  repeat split; try reflexivity.
  destruct (fillIndices_spec (N.to_nat (EventData.numPoints d)) 0
              (Uint32Array.create (EventData.numPoints d))) as (Hlen & _).
  subst n. rewrite Hlen.
  unfold Uint32Array.create. apply length_replicate.
Qed.

Lemma decode_array_lengths_witness :
  length (Message.position SampleCloud.twoMessage) = 6%nat
  /\ length (Message.color SampleCloud.twoMessage) = 8%nat
  /\ length (Message.intensity SampleCloud.twoMessage) = 2%nat.
Proof.
  destruct (decode_array_lengths Host.unlimited SampleCloud.two SampleCloud.buffer
              SampleCloud.twoMessage eq_refl eq_refl) as (H1 & H2 & H3 & _).
  repeat split; assumption.
Defined.

(** ** The decoder: the reads, in order *)

Lemma bind_fst_inr {A B} (m : View A) (f : A -> View B) a :
  snd m = inr a -> fst (bind m f) = fst m ++ fst (f a).
Proof.
  destruct m as [t [e | a']]; simpl; [discriminate |].
  intros [= ->]. now destruct (f a).
Qed.

Lemma access_inr {A} buffer offset w (v v' : A) :
  snd (DataView.access buffer offset w v) = inr v' ->
  fst (DataView.access buffer offset w v) = [mkAccess offset (N.of_nat w)]
  /\ v' = v.
Proof.
  unfold DataView.access. destruct (DataView.inRange _ _ _); simpl; [| discriminate].
  intros [= <-]. auto.
Qed.

Lemma access_fits {A} buffer offset w (v : A) :
  (offset + N.of_nat w <= byteLength buffer)%N ->
  DataView.access buffer offset w v = ([mkAccess offset (N.of_nat w)], inr v).
Proof.
  intros H. apply inRange_true in H. unfold DataView.access. now rewrite H.
Qed.

Lemma bind_cons {A B} a (v : A) (f : A -> View B) :
  bind ([a], inr v) f = (a :: fst (f v), snd (f v)).
Proof. simpl. now destruct (f v). Qed.

Lemma bind_ret_fst {A B} (m : View A) (g : A -> B) :
  fst (bind m (fun a => ret (g a))) = fst m.
Proof. destruct m as [t [e | a]]; simpl; [reflexivity | apply app_nil_r]. Qed.

Lemma decodeColor_reads d buffer i colors :
  (i * EventData.pointSize d + 26 <= byteLength buffer)%N ->
  let base := (i * EventData.pointSize d)%N in
  fst (decodeColor d buffer i colors)
  = [mkAccess (base + 20) 2; mkAccess (base + 22) 2; mkAccess (base + 24) 2].
Proof.
  intros Hfit base. unfold decodeColor, DataView.getUint16. fold base.
  rewrite !access_fits by (simpl; lia).
  rewrite !bind_cons. reflexivity.
Qed.

Lemma decodePoint_reads d buffer i st st' :
  snd (decodePoint d buffer i st) = inr st' ->
  fst (decodePoint d buffer i st) = recordAccesses d i.
Proof.
  intros Hp.
  pose proof (decodePoint_snd d buffer i st) as Hfit. rewrite Hp in Hfit.
  destruct (N.leb_spec (i * EventData.pointSize d
                        + recordExtent (EventData.pointFormatID d))
                       (byteLength buffer)) as [Hle | Hlt]; [| discriminate].
  clear Hfit Hp. unfold recordExtent in Hle.
  unfold decodePoint, recordAccesses,
    DataView.getInt32, DataView.getUint16, DataView.getUint8.
  rewrite !access_fits by (destruct (_ =? _)%N; simpl; lia).
  rewrite !bind_cons. cbn [fst snd]. rewrite bind_ret_fst.
  destruct (EventData.pointFormatID d =? 2)%N.
  - now rewrite decodeColor_reads by lia.
  - reflexivity.
Qed.

Lemma decodeLoop_reads d buffer remaining : forall i st st',
  snd (decodeLoop d buffer remaining i st) = inr st' ->
  fst (decodeLoop d buffer remaining i st)
  = flat_map (recordAccesses d) (pointRange remaining i).
Proof.
  induction remaining as [| k IH]; intros i st st'; simpl.
  - reflexivity.
  - destruct (snd (decodePoint d buffer i st)) as [e | st1] eqn:Hp.
    { rewrite (bind_snd_inl _ _ e Hp). discriminate. }
    rewrite (bind_snd_inr _ _ st1 Hp), (bind_fst_inr _ _ st1 Hp). intros Hloop.
    now rewrite (decodePoint_reads _ _ _ _ _ Hp), (IH _ _ _ Hloop).
Qed.

Lemma in_pointRange remaining : forall i j,
  In j (pointRange remaining i) <-> (i <= j < i + N.of_nat remaining)%N.
Proof.
  induction remaining as [| k IH]; intros i j; simpl.
  - lia.
  - rewrite IH. lia.
Qed.

(** Two records are the same one or a whole record size apart. *)
Lemma records_apart (size k j : N) :
  k = j \/ (k * size + size <= j * size)%N \/ (j * size + size <= k * size)%N.
Proof.
  destruct (N.lt_trichotomy k j) as [Hlt | [-> | Hgt]]; [| auto |].
  - right; left. assert ((k + 1) * size <= j * size)%N
      by (apply N.mul_le_mono_r; lia). lia.
  - right; right. assert ((j + 1) * size <= k * size)%N
      by (apply N.mul_le_mono_r; lia). lia.
Qed.

(** X6.  A successful decode performs exactly these reads, in this order:
    for each point in turn, three 4-byte reads at record offsets 0, 4 and
    8, a 2-byte read at 12, one byte at 14, a 2-byte read at 18 and, for
    point format 2 only, 2-byte reads at 20, 22 and 24.  So when records
    do not overlap (the record size is at least the extent read), the
    bytes at offsets 15, 16 and 17 of every record are never read. *)
Theorem decode_reads (host : Host.t) (d : EventData.t) (buffer : ArrayBuffer)
    (message : Message.t) :
  EventData.buffer d = Some buffer ->
  snd (onmessage host (mkEvent (Some d))) = Posted message ->
  let n := EventData.numPoints d in
  fst (onmessage host (mkEvent (Some d)))
  = flat_map (recordAccesses d) (pointRange (N.to_nat n) 0)
  /\ ((recordExtent (EventData.pointFormatID d) <= EventData.pointSize d)%N ->
      forall a j r, In a (fst (onmessage host (mkEvent (Some d)))) ->
        (15 <= r <= 17)%N ->
        ~ covers a (j * EventData.pointSize d + r)).
Proof.
  intros Hb Hposted n.
  assert (Hfst : fst (onmessage host (mkEvent (Some d)))
                 = flat_map (recordAccesses d) (pointRange (N.to_nat n) 0)).
  { destruct (onmessage_posted_run _ _ _ _ Hb Hposted)
      as (_ & _ & st & Hrun & _).
    fold n in Hrun.
    rewrite <- (decodeLoop_reads d buffer (N.to_nat n) 0 (initialLocals n) st)
      by (now rewrite Hrun).
    now rewrite Hrun. }
  split; [exact Hfst |].
  intros Hsize a j r Hin Hr. rewrite Hfst in Hin.
  apply in_flat_map in Hin as (k & _ & Hin).
  unfold recordExtent in Hsize. unfold recordAccesses in Hin.
  pose proof (records_apart (EventData.pointSize d) k j) as Hapart.
  apply in_app_or in Hin as [Hin | Hin].
  - assert (20 <= EventData.pointSize d)%N by (destruct (_ =? _)%N; lia).
    simpl in Hin.
    repeat (destruct Hin as [<- | Hin];
            [unfold covers; cbn [byteOffset width];
             destruct Hapart as [-> | [Hk | Hk]]; lia |]).
    destruct Hin.
  - destruct (EventData.pointFormatID d =? 2)%N; simpl in Hin; [| destruct Hin].
    repeat (destruct Hin as [<- | Hin];
            [unfold covers; cbn [byteOffset width];
             destruct Hapart as [-> | [Hk | Hk]]; lia |]).
    destruct Hin.
Qed.

Lemma decode_reads_witness :
  fst (onmessage Host.unlimited (mkEvent (Some SampleCloud.two)))
  = [mkAccess 0 4; mkAccess 4 4; mkAccess 8 4; mkAccess 12 2; mkAccess 14 1;
     mkAccess 18 2; mkAccess 20 2; mkAccess 22 2; mkAccess 24 2;
     mkAccess 26 4; mkAccess 30 4; mkAccess 34 4; mkAccess 38 2; mkAccess 40 1;
     mkAccess 44 2; mkAccess 46 2; mkAccess 48 2; mkAccess 50 2].
Proof.
  exact (proj1 (decode_reads Host.unlimited SampleCloud.two SampleCloud.buffer
                  SampleCloud.twoMessage eq_refl eq_refl)).
Defined.

(** ** The decoder: only the bytes read matter *)

Lemma bind_ext {A B} (m : View A) (f g : A -> View B) :
  (forall a, f a = g a) -> bind m f = bind m g.
Proof. intros H. destruct m as [t [e | a]]; simpl; [reflexivity | now rewrite H]. Qed.

Lemma bytesLE_agree buffer buffer' w : forall offset,
  (forall k, (k < w)%nat ->
     DataView.byteAt buffer (offset + N.of_nat k)
     = DataView.byteAt buffer' (offset + N.of_nat k)) ->
  DataView.bytesLE buffer offset w = DataView.bytesLE buffer' offset w.
Proof.
  induction w as [| w IH]; intros offset H; simpl; [reflexivity |].
  rewrite (IH (offset + 1)%N).
  - specialize (H 0%nat ltac:(lia)). rewrite N.add_0_r in H. now rewrite H.
  - intros k Hk. specialize (H (S k) ltac:(lia)).
    now replace (offset + 1 + N.of_nat k)%N with (offset + N.of_nat (S k))%N by lia.
Qed.

Lemma access_agree {A} buffer buffer' offset w (g : Z -> A) :
  sameRead buffer buffer' (mkAccess offset (N.of_nat w)) ->
  DataView.access buffer offset w (g (DataView.unsignedAt buffer offset w true))
  = DataView.access buffer' offset w (g (DataView.unsignedAt buffer' offset w true)).
Proof.
  intros [Hr Hbytes]. cbn [byteOffset width] in *.
  unfold DataView.access, DataView.unsignedAt. rewrite Hr.
  rewrite (bytesLE_agree buffer buffer' w offset); [reflexivity |].
  intros k Hk. apply Hbytes. lia.
Qed.

Lemma decodeColor_agree d buffer buffer' i colors :
  EventData.pointFormatID d = 2%N ->
  Forall (sameRead buffer buffer') (recordAccesses d i) ->
  decodeColor d buffer i colors = decodeColor d buffer' i colors.
Proof.
  intros Hfmt Hall. unfold recordAccesses in Hall. rewrite Hfmt in Hall.
  cbn [N.eqb Pos.eqb app] in Hall.
  repeat match goal with H : Forall _ (_ :: _) |- _ =>
    apply Forall_cons in H; destruct H end.
  unfold decodeColor, DataView.getUint16.
  repeat (rewrite (access_agree buffer buffer' _ _ (fun z => z)) by assumption;
          apply bind_ext; intros ?).
  reflexivity.
Qed.

Lemma decodePoint_agree d buffer buffer' i st :
  Forall (sameRead buffer buffer') (recordAccesses d i) ->
  decodePoint d buffer i st = decodePoint d buffer' i st.
Proof.
  intros Hall.
  assert (Hcolor : (if (EventData.pointFormatID d =? 2)%N
                    then decodeColor d buffer i (Locals.colors st)
                    else ret (Locals.colors st))
                   = (if (EventData.pointFormatID d =? 2)%N
                      then decodeColor d buffer' i (Locals.colors st)
                      else ret (Locals.colors st))).
  { destruct (N.eqb_spec (EventData.pointFormatID d) 2); [| reflexivity].
    now apply decodeColor_agree. }
  unfold recordAccesses in Hall. apply Forall_app in Hall as [Hall _].
  repeat match goal with H : Forall _ (_ :: _) |- _ =>
    apply Forall_cons in H; destruct H end.
  unfold decodePoint, DataView.getInt32, DataView.getUint16, DataView.getUint8.
  rewrite (access_agree buffer buffer' _ 4 DataView.toInt32) by assumption.
  apply bind_ext; intros ?.
  rewrite (access_agree buffer buffer' _ 4 DataView.toInt32) by assumption.
  apply bind_ext; intros ?.
  rewrite (access_agree buffer buffer' _ 4 DataView.toInt32) by assumption.
  apply bind_ext; intros ?.
  rewrite (access_agree buffer buffer' _ 2 (fun z => z)) by assumption.
  apply bind_ext; intros ?.
  rewrite (access_agree buffer buffer' _ 1 (fun z => z)) by assumption.
  apply bind_ext; intros ?.
  rewrite (access_agree buffer buffer' _ 2 (fun z => z)) by assumption.
  apply bind_ext; intros ?.
  now rewrite Hcolor.
Qed.

Lemma decodeLoop_agree d buffer buffer' remaining : forall i st,
  Forall (sameRead buffer buffer')
         (flat_map (recordAccesses d) (pointRange remaining i)) ->
  decodeLoop d buffer remaining i st = decodeLoop d buffer' remaining i st.
Proof.
  induction remaining as [| k IH]; intros i st Hall; simpl; [reflexivity |].
  cbn [flat_map pointRange] in Hall. apply Forall_app in Hall as [Hhere Hrest].
  rewrite (decodePoint_agree _ _ _ _ _ Hhere).
  apply bind_ext. intros st'. now apply IH.
Qed.

(** The loop reads the request's fields, not its buffer. *)
Lemma decodePoint_withBuffer d other buffer i st :
  decodePoint (withBuffer d other) buffer i st = decodePoint d buffer i st.
Proof. destruct d. reflexivity. Qed.

Lemma decodeLoop_withBuffer d other buffer remaining : forall i st,
  decodeLoop (withBuffer d other) buffer remaining i st
  = decodeLoop d buffer remaining i st.
Proof.
  induction remaining as [| k IH]; intros i st; simpl; [reflexivity |].
  rewrite decodePoint_withBuffer. apply bind_ext. intros st'. apply IH.
Qed.

Lemma onmessage_withBuffer host d buffer buffer' :
  EventData.buffer d = Some buffer ->
  (let n := EventData.numPoints d in
   decodeLoop d buffer (N.to_nat n) 0 (initialLocals n)
   = decodeLoop d buffer' (N.to_nat n) 0 (initialLocals n)) ->
  onmessage host (mkEvent (Some (withBuffer d buffer')))
  = onmessage host (mkEvent (Some d)).
Proof.
  intros Hb Hloop. cbv zeta in Hloop.
  rewrite (onmessage_with_buffer host d buffer Hb).
  rewrite (onmessage_with_buffer host (withBuffer d buffer') buffer' eq_refl).
  cbv zeta. cbn [withBuffer EventData.numPoints].
  now rewrite decodeLoop_withBuffer, Hloop.
Qed.

Lemma agreeOn_sameRead buffer buffer' trace :
  byteLength buffer = byteLength buffer' ->
  agreeOn buffer buffer' trace = true ->
  Forall (sameRead buffer buffer') trace.
Proof.
  intros Hlen Hagree. unfold agreeOn in Hagree.
  rewrite forallb_forall in Hagree. apply List.Forall_forall. intros a Hin.
  specialize (Hagree a Hin). split.
  - unfold DataView.inRange. now rewrite Hlen.
  - intros k Hk.
    rewrite forallb_forall in Hagree. apply Z.eqb_eq, Hagree, in_seq. lia.
Qed.

(** X7.  The decoder's whole behaviour (its reads, whether it throws, and
    every array, the mean and the bounding box of the message) depends on
    the buffer only through its length and the bytes at the positions read:
    a buffer of the same length that agrees on them gives the same run.
    In particular the bytes at record offsets 15 to 17 may hold anything. *)
Theorem decode_ignores_unread_bytes (host : Host.t) (d : EventData.t)
    (buffer buffer' : ArrayBuffer) :
  EventData.buffer d = Some buffer ->
  byteLength buffer' = byteLength buffer ->
  agreeOn buffer buffer'
    (flat_map (recordAccesses d) (pointRange (N.to_nat (EventData.numPoints d)) 0))
  = true ->
  onmessage host (mkEvent (Some (withBuffer d buffer'))) = onmessage host (mkEvent (Some d)).
Proof.
  intros Hb Hlen Hagree. apply (onmessage_withBuffer host d buffer buffer' Hb).
  cbv zeta. apply decodeLoop_agree.
  now apply agreeOn_sameRead.
Qed.

Lemma decode_ignores_unread_bytes_witness :
  SampleCloud.retagged <> SampleCloud.buffer
  /\ onmessage Host.unlimited (mkEvent (Some (withBuffer SampleCloud.two SampleCloud.retagged)))
     = onmessage Host.unlimited (mkEvent (Some SampleCloud.two)).
Proof.
  split; [discriminate |].
  apply (decode_ignores_unread_bytes Host.unlimited SampleCloud.two SampleCloud.buffer
           SampleCloud.retagged); [reflexivity | reflexivity |].
  vm_compute. reflexivity.
Defined.

Lemma byteAt_app buffer extra k :
  (k < byteLength buffer)%N ->
  DataView.byteAt (buffer ++ extra) k = DataView.byteAt buffer k.
Proof.
  intros Hk. unfold DataView.byteAt, byteLength in *.
  rewrite app_nth1 by lia. reflexivity.
Qed.

Lemma byteLength_app buffer extra :
  byteLength (buffer ++ extra) = (byteLength buffer + byteLength extra)%N.
Proof. unfold byteLength. rewrite length_app. lia. Qed.

(** X8.  Bytes after the last record are never looked at: when a request
    decodes, the same request with any bytes appended to its buffer gives
    the same reads and the same message. *)
Theorem decode_ignores_trailing_bytes (host : Host.t) (d : EventData.t)
    (buffer extra : ArrayBuffer) (message : Message.t) :
  EventData.buffer d = Some buffer ->
  snd (onmessage host (mkEvent (Some d))) = Posted message ->
  onmessage host (mkEvent (Some (withBuffer d (buffer ++ extra))))
  = onmessage host (mkEvent (Some d)).
Proof.
  intros Hb Hposted. apply (onmessage_withBuffer host d buffer _ Hb). cbv zeta.
  destruct (onmessage_posted _ _ _ _ Hb Hposted) as (st & Hloop & _).
  apply decodeLoop_agree.
  pose proof (decodeLoop_trace d buffer (N.to_nat (EventData.numPoints d)) 0
                (initialLocals (EventData.numPoints d))) as Htrace.
  rewrite (decodeLoop_reads _ _ _ _ _ _ Hloop) in Htrace.
  eapply Forall_impl; [exact Htrace |].
  intros a Hin. unfold inBounds in Hin. split.
  - unfold DataView.inRange. rewrite byteLength_app.
    destruct (N.leb_spec (byteOffset a + width a) (byteLength buffer)); [| lia].
    symmetry. apply N.leb_le. lia.
  - intros k Hk. symmetry. apply byteAt_app. lia.
Qed.

Lemma decode_ignores_trailing_bytes_witness :
  onmessage Host.unlimited (mkEvent (Some (withBuffer Sample.colored
                              (Sample.record ++ SampleCloud.second))))
  = onmessage Host.unlimited (mkEvent (Some Sample.colored)).
Proof.
  exact (decode_ignores_trailing_bytes Host.unlimited Sample.colored Sample.record
           SampleCloud.second Sample.coloredMessage eq_refl eq_refl).
Defined.

(** ** The decoder: the tight bounding box *)

Lemma SFcompare_antisym a b :
  SFcompare b a = option_map CompOpp (SFcompare a b).
Proof.
  destruct a as [[] | [] | | [] ma ea], b as [[] | [] | | [] mb eb];
    try reflexivity; cbn [SFcompare option_map]; f_equal;
    rewrite (Z.compare_antisym ea eb); destruct (ea ?= eb); cbn [CompOpp];
    try reflexivity;
    pose proof (Pos.compare_cont_antisym ma mb Eq) as H; cbn [CompOpp] in H;
    rewrite <- H; reflexivity.
Qed.

Lemma SFcompare_not_nan a b :
  Number.isNaN a = false -> Number.isNaN b = false ->
  exists c, SFcompare a b = Some c.
Proof. destruct a, b; try discriminate; intros _ _; cbn; eauto. Qed.

Lemma SFleb_trans a b c :
  SFleb a b = true -> SFleb b c = true -> SFleb a c = true.
Proof.
  unfold SFleb.
  destruct a as [[] | [] | | [] ma ea], b as [[] | [] | | [] mb eb],
    c as [[] | [] | | [] mc ec];
    cbn [SFcompare]; try reflexivity; try discriminate;
    change (Pos.compare_cont Eq ma mb) with (Pos.compare ma mb);
    change (Pos.compare_cont Eq mb mc) with (Pos.compare mb mc);
    change (Pos.compare_cont Eq ma mc) with (Pos.compare ma mc);
    destruct (Z.compare_spec ea eb); try discriminate;
    destruct (Z.compare_spec eb ec); try discriminate;
    destruct (Z.compare_spec ea ec); try reflexivity; try lia;
    subst;
    destruct (Pos.compare_spec ma mb); try discriminate;
    destruct (Pos.compare_spec mb mc); try discriminate;
    destruct (Pos.compare_spec ma mc); try reflexivity; try lia.
Qed.

Lemma min_isNaN a b :
  Number.isNaN (Math.min a b) = Number.isNaN a || Number.isNaN b.
Proof.
  unfold Math.min.
  destruct (Number.isNaN a) eqn:Ha; [reflexivity |].
  destruct (Number.isNaN b) eqn:Hb; [reflexivity |]. cbn [orb].
  destruct (SFcompare_not_nan a b Ha Hb) as [c ->].
  destruct c; [destruct (Number.isNegativeZero a) |..]; assumption.
Qed.

Lemma max_isNaN a b :
  Number.isNaN (Math.max a b) = Number.isNaN a || Number.isNaN b.
Proof.
  unfold Math.max.
  destruct (Number.isNaN a) eqn:Ha; [reflexivity |].
  destruct (Number.isNaN b) eqn:Hb; [reflexivity |]. cbn [orb].
  destruct (SFcompare_not_nan a b Ha Hb) as [c ->].
  destruct c; [destruct (Number.isNegativeZero a) |..]; assumption.
Qed.

(** [Math.min a b] is one of its arguments and below both, unless NaN. *)
Lemma min_below a b :
  Number.isNaN (Math.min a b) = true
  \/ SFleb (Math.min a b) a = true /\ SFleb (Math.min a b) b = true.
Proof.
  unfold Math.min.
  destruct (Number.isNaN a) eqn:Ha; [now left |].
  destruct (Number.isNaN b) eqn:Hb; [now left |]. cbn [orb]. right.
  pose proof (SFcompare_antisym a b) as Hba.
  pose proof (SFcompare_antisym a a) as Haa.
  pose proof (SFcompare_antisym b b) as Hbb.
  destruct (SFcompare_not_nan a a Ha Ha) as [caa Hcaa].
  destruct (SFcompare_not_nan b b Hb Hb) as [cbb Hcbb].
  destruct (SFcompare_not_nan a b Ha Hb) as [c Hc].
  rewrite Hc in Hba |- *. rewrite Hcaa in Haa. rewrite Hcbb in Hbb.
  cbn [option_map] in *. unfold SFleb.
  destruct c; [destruct (Number.isNegativeZero a) |..];
    rewrite ?Hc, ?Hba, ?Hcaa, ?Hcbb; cbn [CompOpp];
    split; try reflexivity;
    destruct caa; try reflexivity; try discriminate;
    destruct cbb; try reflexivity; discriminate.
Qed.

Lemma max_above a b :
  Number.isNaN (Math.max a b) = true
  \/ SFleb a (Math.max a b) = true /\ SFleb b (Math.max a b) = true.
Proof.
  unfold Math.max.
  destruct (Number.isNaN a) eqn:Ha; [now left |].
  destruct (Number.isNaN b) eqn:Hb; [now left |]. cbn [orb]. right.
  pose proof (SFcompare_antisym a b) as Hba.
  pose proof (SFcompare_antisym a a) as Haa.
  pose proof (SFcompare_antisym b b) as Hbb.
  destruct (SFcompare_not_nan a a Ha Ha) as [caa Hcaa].
  destruct (SFcompare_not_nan b b Hb Hb) as [cbb Hcbb].
  destruct (SFcompare_not_nan a b Ha Hb) as [c Hc].
  rewrite Hc in Hba |- *. rewrite Hcaa in Haa. rewrite Hcbb in Hbb.
  cbn [option_map] in *. unfold SFleb.
  destruct c; [destruct (Number.isNegativeZero a) |..];
    rewrite ?Hc, ?Hba, ?Hcaa, ?Hcbb; cbn [CompOpp];
    split; try reflexivity;
    destruct caa; try reflexivity; try discriminate;
    destruct cbb; try reflexivity; discriminate.
Qed.

Lemma boundsBelow_min_here m x : boundsBelow (Math.min m x) x.
Proof. destruct (min_below m x) as [H | [_ H]]; [now left | now right]. Qed.

Lemma boundsBelow_min_keeps m x y :
  boundsBelow m y -> boundsBelow (Math.min m x) y.
Proof.
  intros [Hnan | Hle].
  - left. rewrite min_isNaN, Hnan. reflexivity.
  - destruct (min_below m x) as [H | [H _]]; [now left | right].
    exact (SFleb_trans _ _ _ H Hle).
Qed.

Lemma boundsAbove_max_here m x : boundsAbove (Math.max m x) x.
Proof. destruct (max_above m x) as [H | [_ H]]; [now left | now right]. Qed.

Lemma boundsAbove_max_keeps m x y :
  boundsAbove m y -> boundsAbove (Math.max m x) y.
Proof.
  intros [Hnan | Hle].
  - left. rewrite max_isNaN, Hnan. reflexivity.
  - destruct (max_above m x) as [H | [H _]]; [now left | right].
    exact (SFleb_trans _ _ _ Hle H).
Qed.

(** A running extremum [bound st' = op (bound st) (value i)] along the
    loop: it bounds every value folded in, and is NaN only if the seed or
    one of those values is. *)
Section Extremum.

Variable d : EventData.t.
Variable buffer : ArrayBuffer.
Variable bound : Locals.t -> F64.
Variable value : N -> F64.
Variable op : F64 -> F64 -> F64.
Variable bounds : F64 -> F64 -> Prop.

Hypothesis step : forall i st st',
  snd (decodePoint d buffer i st) = inr st' ->
  bound st' = op (bound st) (value i).
Hypothesis op_isNaN : forall m x,
  Number.isNaN (op m x) = Number.isNaN m || Number.isNaN x.
Hypothesis op_here : forall m x, bounds (op m x) x.
Hypothesis op_keeps : forall m x y, bounds m y -> bounds (op m x) y.

Lemma decodeLoop_extremum remaining : forall i st st',
  snd (decodeLoop d buffer remaining i st) = inr st' ->
  (forall y, bounds (bound st) y -> bounds (bound st') y)
  /\ (forall j, (i <= j < i + N.of_nat remaining)%N -> bounds (bound st') (value j))
  /\ (Number.isNaN (bound st) = false ->
      (forall j, (i <= j < i + N.of_nat remaining)%N ->
         Number.isNaN (value j) = false) ->
      Number.isNaN (bound st') = false).
Proof.
  induction remaining as [| k IH]; intros i st st'; simpl.
  - intros [= <-]. repeat split; [auto | intros; lia | auto].
  - destruct (snd (decodePoint d buffer i st)) as [e | st1] eqn:Hp.
    { rewrite (bind_snd_inl _ _ e Hp). discriminate. }
    rewrite (bind_snd_inr _ _ st1 Hp). intros Hloop.
    pose proof (step _ _ _ Hp) as Hstep.
    destruct (IH _ _ _ Hloop) as (Hkeep & Hin & Hnan).
    split; [| split].
    + intros y Hy. apply Hkeep. rewrite Hstep. now apply op_keeps.
    + intros j Hj. destruct (N.eq_dec j i) as [-> | Hne].
      * apply Hkeep. rewrite Hstep. apply op_here.
      * apply Hin. lia.
    + intros Hseed Hvalues. apply Hnan.
      * rewrite Hstep, op_isNaN, Hseed, (Hvalues i) by lia. reflexivity.
      * intros j Hj. apply Hvalues. lia.
Qed.

End Extremum.

Lemma lower_step d buffer k i st st' :
  (k < 3)%nat ->
  snd (decodePoint d buffer i st) = inr st' ->
  axisOf k (TightBoundingBox.min (Locals.tightBoundingBox st'))
  = Math.min (axisOf k (TightBoundingBox.min (Locals.tightBoundingBox st)))
             (coordinate d buffer i k).
Proof.
  intros Hk Hp.
  destruct (decodePoint_fields _ _ _ _ _ Hp) as (_ & _ & _ & _ & _ & ->).
  unfold coordinate.
  destruct k as [| [| [| k]]]; [| | | lia]; cbn [axisOf TightBoundingBox.min v0 v1 v2 N.of_nat];
    repeat f_equal; lia.
Qed.

Lemma upper_step d buffer k i st st' :
  (k < 3)%nat ->
  snd (decodePoint d buffer i st) = inr st' ->
  axisOf k (TightBoundingBox.max (Locals.tightBoundingBox st'))
  = Math.max (axisOf k (TightBoundingBox.max (Locals.tightBoundingBox st)))
             (coordinate d buffer i k).
Proof.
  intros Hk Hp.
  destruct (decodePoint_fields _ _ _ _ _ Hp) as (_ & _ & _ & _ & _ & ->).
  unfold coordinate.
  destruct k as [| [| [| k]]]; [| | | lia]; cbn [axisOf TightBoundingBox.max v0 v1 v2 N.of_nat];
    repeat f_equal; lia.
Qed.

Lemma initial_bounds_not_nan n k :
  Number.isNaN (axisOf k (TightBoundingBox.min
                            (Locals.tightBoundingBox (initialLocals n)))) = false
  /\ Number.isNaN (axisOf k (TightBoundingBox.max
                               (Locals.tightBoundingBox (initialLocals n)))) = false.
Proof. destruct k as [| [| k]]; split; reflexivity. Qed.

(** X9.  The tight bounding box of a decoded payload encloses every
    point: on each of the three axes its minimum is at most, and its maximum at least,
    the coordinate [quantized * scale + offset - mins] of every point
    (compared as binary64 numbers), unless the bound is NaN; and a bound is
    NaN only if some point's coordinate on that axis is. *)
Theorem decode_tight_bounding_box (host : Host.t) (d : EventData.t) (buffer : ArrayBuffer)
    (message : Message.t) (k : nat) :
  EventData.buffer d = Some buffer ->
  snd (onmessage host (mkEvent (Some d))) = Posted message ->
  (k < 3)%nat ->
  let lower := axisOf k (TightBoundingBox.min (Message.tightBoundingBox message)) in
  let upper := axisOf k (TightBoundingBox.max (Message.tightBoundingBox message)) in
  (forall i, (i < EventData.numPoints d)%N ->
     boundsBelow lower (coordinate d buffer i k)
     /\ boundsAbove upper (coordinate d buffer i k))
  /\ ((forall i, (i < EventData.numPoints d)%N ->
         Number.isNaN (coordinate d buffer i k) = false) ->
      Number.isNaN lower = false /\ Number.isNaN upper = false).
Proof.
  intros Hb Hposted Hk lower upper.
  destruct (onmessage_posted _ _ _ _ Hb Hposted) as (st & Hloop & ->).
  cbn [Message.tightBoundingBox buildMessage] in lower, upper.
  destruct (decodeLoop_extremum d buffer
              (fun s => axisOf k (TightBoundingBox.min (Locals.tightBoundingBox s)))
              (fun i => coordinate d buffer i k) Math.min boundsBelow
              (fun i s s' => lower_step d buffer k i s s' Hk) min_isNaN
              boundsBelow_min_here boundsBelow_min_keeps
              _ _ _ _ Hloop) as (_ & Hmin & Hminnan).
  destruct (decodeLoop_extremum d buffer
              (fun s => axisOf k (TightBoundingBox.max (Locals.tightBoundingBox s)))
              (fun i => coordinate d buffer i k) Math.max boundsAbove
              (fun i s s' => upper_step d buffer k i s s' Hk) max_isNaN
              boundsAbove_max_here boundsAbove_max_keeps
              _ _ _ _ Hloop) as (_ & Hmax & Hmaxnan).
  cbv beta in *.
  destruct (initial_bounds_not_nan (EventData.numPoints d) k) as [Hs1 Hs2].
  split.
  - intros i Hi. split; [apply Hmin | apply Hmax]; lia.
  - intros Hfinite. split; [apply Hminnan | apply Hmaxnan]; try assumption;
      intros j Hj; apply Hfinite; lia.
Qed.

Lemma decode_tight_bounding_box_witness :
  SFleb (v0 (TightBoundingBox.min (Message.tightBoundingBox SampleCloud.twoMessage)))
        (coordinate SampleCloud.two SampleCloud.buffer 0 0) = true
  /\ SFleb (coordinate SampleCloud.two SampleCloud.buffer 0 0)
           (v0 (TightBoundingBox.max (Message.tightBoundingBox SampleCloud.twoMessage)))
     = true.
Proof.
  destruct (decode_tight_bounding_box Host.unlimited SampleCloud.two SampleCloud.buffer
              SampleCloud.twoMessage 0 eq_refl eq_refl ltac:(lia)) as [Hin _].
  destruct (Hin 0%N eq_refl) as [[Hnan | Hlow] [Hnan' | Hup]];
    try (vm_compute in Hnan; discriminate);
    try (vm_compute in Hnan'; discriminate).
  split; [exact Hlow | exact Hup].
Defined.

(** ** [utils.ts]: the index and the parts of a name *)

Lemma get_last_app (p : string) (c : ascii) :
  String.get (String.length (p ++ String c "") - 1) (p ++ String c "") = Some c.
Proof.
  induction p as [| a p IH]; [reflexivity |].
  unfold String.append; fold String.append. cbn [String.length].
  rewrite Nat.sub_succ, Nat.sub_0_r.
  destruct (String.length (p ++ String c "")) as [| n] eqn:Hlen.
  - destruct p; discriminate.
  - cbn [String.get]. rewrite Nat.sub_succ, Nat.sub_0_r in IH. exact IH.
Qed.

Lemma get_last_nonempty (name : string) :
  name <> "" -> exists c, String.get (String.length name - 1) name = Some c.
Proof.
  destruct name as [| a s]; [congruence |]. intros _.
  cbn [String.length]. rewrite Nat.sub_succ, Nat.sub_0_r.
  revert a. induction s as [| b s IH]; intros a; [eauto |].
  cbn [String.length String.get]. apply IH.
Qed.

Lemma length_append (a b : string) :
  String.length (a ++ b) = (String.length a + String.length b)%nat.
Proof.
  induction a as [| x a IH]; [reflexivity |].
  unfold String.append; fold String.append. cbn [String.length]. now rewrite IH.
Qed.

Lemma getIndexFromName_app (p : string) (c : ascii) :
  getIndexFromName (p ++ String c "") = ParseInt.digit c.
Proof.
  unfold getIndexFromName. rewrite (charAt_last _ _ (get_last_app p c)).
  destruct (ParseInt.digit c) as [v |] eqn:Hd.
  - now destruct (parseInt10_digit c v Hd).
  - now apply parseInt10_not_digit.
Qed.

(** X10.  The index of a name is decided by its last character alone:
    the value of that character when it is one of the decimal digits 0 to 9
    (8 and 9 included), and NaN otherwise (for any other character, white
    space and signs included, and for the empty name).  An index that is a
    number therefore lies in 0..9 and the name ends in its digit. *)
Theorem getIndexFromName_last_character (name : string) :
  (forall p c, name = (p ++ String c "")%string ->
     getIndexFromName name = ParseInt.digit c)
  /\ (name = "" -> getIndexFromName name = None)
  /\ (forall v, getIndexFromName name = Some v ->
        0 <= v <= 9
        /\ exists p, name = (p ++ String (ascii_of_N (Z.to_N (v + 48))) "")%string)
  /\ (getIndexFromName name = None <-> endsInDigit name = false).
Proof.
  split; [| split; [| split]].
  - intros p c ->. apply getIndexFromName_app.
  - intros ->. reflexivity.
  - intros v Hv.
    destruct (endsInDigit name) eqn:Hd.
    + destruct (endsInDigit_split _ Hd) as (c & v' & Hdigit & Hname & Hidx & Hrange).
      assert (v' = v) by congruence. subst v'.
      split; [exact Hrange |].
      destruct (parseInt10_digit c v Hdigit) as (_ & _ & Hc).
      exists (ParsedName.parentName (parseName name)). now rewrite <- Hc.
    + rewrite (getIndexFromName_not_digit _ Hd) in Hv. discriminate.
  - split.
    + intros Hnone. destruct (endsInDigit name) eqn:Hd; [| reflexivity].
      destruct (endsInDigit_split _ Hd) as (c & v & _ & _ & Hidx & _). congruence.
    + apply getIndexFromName_not_digit.
Qed.

(** X11.  [parseName] takes a name apart without loss: a non-empty name
    is its parent name followed by its last character, the level is the
    length of the parent name, and the index is the value of that character
    if it is a decimal digit and NaN if not; so two names that end in a
    digit and have the same parent name and index are the same name.  The
    empty name has the empty parent name, level -1 and index NaN. *)
Theorem parseName_round_trip (name : string) :
  let parsed := parseName name in
  (name <> "" ->
     exists c,
       name = (ParsedName.parentName parsed ++ String c "")%string
       /\ ParsedName.index parsed = ParseInt.digit c
       /\ ParsedName.level parsed
          = Z.of_nat (String.length (ParsedName.parentName parsed))
       /\ 0 <= ParsedName.level parsed)
  /\ (name = "" -> parsed = ParsedName.mk None "" (-1))
  /\ (forall other,
        is_Some (ParsedName.index parsed) ->
        ParsedName.parentName (parseName other) = ParsedName.parentName parsed ->
        ParsedName.index (parseName other) = ParsedName.index parsed ->
        other = name).
Proof.
  intros parsed. split; [| split].
  - intros Hne. destruct (get_last_nonempty name Hne) as [c Hget].
    pose proof (substring_init name c Hget) as Hsplit.
    rewrite <- parentName_substring in Hsplit. fold parsed in Hsplit.
    exists c. split; [exact Hsplit |].
    assert (Hlen : String.length name
                   = S (String.length (ParsedName.parentName parsed))).
    { rewrite Hsplit at 1. rewrite length_append. cbn [String.length]. lia. }
    split; [| split].
    + subst parsed. cbn [ParsedName.index parseName].
      rewrite Hsplit. apply getIndexFromName_app.
    + change (ParsedName.level parsed) with (Z.of_nat (String.length name) - 1). lia.
    + change (ParsedName.level parsed) with (Z.of_nat (String.length name) - 1). lia.
  - intros ->. reflexivity.
  - intros other [v Hv] Hparent Hindex. subst parsed.
    cbn [ParsedName.index parseName] in Hv, Hindex.
    symmetry. apply name_of_parent_and_index; [| now symmetry | now symmetry].
    destruct (endsInDigit name) eqn:Hd; [reflexivity |].
    rewrite (getIndexFromName_not_digit _ Hd) in Hv. discriminate.
Qed.

(** ** [utils.ts]: the comparator and the index *)

Lemma string_compare_app (p a b : string) :
  (p ++ a ?= p ++ b)%string = (a ?= b)%string.
Proof.
  induction p as [| x p IH]; [reflexivity |].
  unfold String.append; fold String.append. cbn [String.compare].
  unfold Ascii.compare. now rewrite N.compare_refl.
Qed.

Lemma digit_code (c : ascii) (v : Z) :
  ParseInt.digit c = Some v -> Z.of_N (N_of_ascii c) = v + 48.
Proof.
  unfold ParseInt.digit.
  destruct (_ && _); [| discriminate]. intros [= <-]. lia.
Qed.

Section SiblingOrder.

Context {A : Type} `{IPointCloudTreeNode A}.

(** X12.  Among the children of one node the comparator is the order of
    the octant indices: for two names with the same parent name and
    numeric indices [i] and [j], the first is ordered before the second
    exactly when [i < j], and they compare equal exactly when [i = j]. *)
Theorem byLevelAndIndex_siblings (a b : A) (i j : Z) :
  ParsedName.parentName (parseName (name a))
  = ParsedName.parentName (parseName (name b)) ->
  getIndexFromName (name a) = Some i ->
  getIndexFromName (name b) = Some j ->
  (byLevelAndIndex a b < 0 <-> i < j)
  /\ (byLevelAndIndex a b = 0 <-> i = j)
  /\ (0 < byLevelAndIndex a b <-> j < i).
Proof.
  intros Hparent Hi Hj.
  assert (Ha : endsInDigit (name a) = true).
  { destruct (endsInDigit (name a)) eqn:Hd; [reflexivity |].
    rewrite (getIndexFromName_not_digit _ Hd) in Hi. discriminate. }
  assert (Hb : endsInDigit (name b) = true).
  { destruct (endsInDigit (name b)) eqn:Hd; [reflexivity |].
    rewrite (getIndexFromName_not_digit _ Hd) in Hj. discriminate. }
  destruct (endsInDigit_split _ Ha) as (ca & va & Hda & Hna & Hia & _).
  destruct (endsInDigit_split _ Hb) as (cb & vb & Hdb & Hnb & Hib & _).
  assert (va = i) by congruence. assert (vb = j) by congruence. subst va vb.
  apply digit_code in Hda, Hdb.
  pose proof (byLevelAndIndex_cases a b) as Hcases.
  rewrite Hna, Hnb, Hparent in Hcases.
  rewrite !length_append, string_compare_app in Hcases.
  cbn [String.compare] in Hcases. unfold Ascii.compare in Hcases.
  destruct Hcases as [[Hne _] | [_ Hcmp]]; [cbn [String.length] in Hne; lia |].
  destruct (N.compare_spec (N_of_ascii ca) (N_of_ascii cb)) as [Heq | Hlt | Hgt];
    rewrite Hcmp; lia.
Qed.

End SiblingOrder.

Lemma byLevelAndIndex_siblings_witness :
  let box := Box3.mk Vector3.origin Vector3.origin in
  byLevelAndIndex (Node.create "r03" box) (Node.create "r07" box) < 0 <-> 3 < 7.
Proof.
  intros box.
  assert (Hparent : ParsedName.parentName (parseName "r03")
                    = ParsedName.parentName (parseName "r07"))
    by (vm_compute; reflexivity).
  assert (Hi : getIndexFromName "r03" = Some 3) by (vm_compute; reflexivity).
  assert (Hj : getIndexFromName "r07" = Some 7) by (vm_compute; reflexivity).
  exact (proj1 (@byLevelAndIndex_siblings Node.t Node_IPointCloudTreeNode
                  (Node.create "r03" box) (Node.create "r07" box) 3 7
                  Hparent Hi Hj)).
Defined.

(** ** The legacy build on any list of entries *)

Section ShapeFacts.

Variable createChildAABB : Box3.t -> option Z -> Box3.t.

Lemma Shape_heap_length spacing0 done st :
  Shape createChildAABB spacing0 done st ->
  length (Store.heap st) = S (length done).
Proof.
  intros S0. rewrite <- namesOf_length, <- (shape_names _ _ _ _ S0).
  now rewrite length_fmap.
Qed.

Lemma Shape_name spacing0 done st ref node :
  Shape createChildAABB spacing0 done st ->
  Store.heap st !! ref = Some node ->
  namesOf done !! ref = Some (Node.name node).
Proof.
  intros S0 Hn. rewrite <- (shape_names _ _ _ _ S0), list_lookup_fmap, Hn.
  reflexivity.
Qed.

Lemma Shape_registered spacing0 done st k :
  Shape createChildAABB spacing0 done st ->
  is_Some (Store.nodes st !! k) <-> k ∈ namesOf done.
Proof.
  intros S0. split.
  - intros [ref Href]. apply (shape_table _ _ _ _ S0) in Href as [Href _].
    eapply list_elem_of_lookup_2, Href.
  - apply (shape_domain _ _ _ _ S0).
Qed.

(** One iteration whose parent name is registered. *)
Lemma loadEntry_shape spacing0 done st name count :
  Shape createChildAABB spacing0 done st ->
  ParsedName.parentName (parseName name) ∈ namesOf done ->
  exists st',
    loadEntry createChildAABB st (name, count) = inr st'
    /\ Shape createChildAABB spacing0 (done ++ [(name, count)]) st'.
Proof.
  intros S0 Hparent.
  destruct (shape_domain _ _ _ _ S0 _ Hparent) as [pref Hpref].
  destruct (shape_table _ _ _ _ S0 _ _ Hpref) as [Hpname Hlast].
  pose proof Hpname as Hheap.
  rewrite <- (shape_names _ _ _ _ S0), list_lookup_fmap in Hheap.
  apply fmap_Some in Hheap as (parent & Hheap & Hpn).
  pose proof (Shape_heap_length _ _ _ S0) as Hlen.
  assert (Hplt : (pref < length (Store.heap st))%nat)
    by (now apply lookup_lt_Some in Hheap).
  set (level := Z.of_nat (String.length name) - 1).
  set (node := Node.mk name level count
                 (Number.div (Geometry.spacing (Store.pco st)) (Math.pow2 level))
                 (createChildAABB (Node.boundingBox parent) (getIndexFromName name))
                 false ∅).
  set (ref := length (Store.heap st)).
  assert (Hstep : loadEntry createChildAABB st (name, count)
                  = inr (Store.mk (<[pref := Node.addChild parent name ref]>
                                     (Store.heap st ++ [node]))
                                  (Store.pco st)
                                  (<[name := ref]> (Store.nodes st)))).
  { unfold loadEntry. rewrite Hpref, Hheap. reflexivity. }
  eexists. split; [exact Hstep |].
  destruct (loadEntry_preserves createChildAABB _ _ _ Hstep) as (_ & _ & Hcore).
  cbn [Store.heap] in Hcore.
  constructor; cbn [Store.heap Store.pco Store.nodes].
  - (* names *)
    rewrite list_fmap_insert, fmap_app, namesOf_app. cbn [fmap list_fmap fst].
    change (Node.name (Node.addChild parent name ref)) with (Node.name parent).
    rewrite list_insert_id.
    + now rewrite (shape_names _ _ _ _ S0).
    + rewrite lookup_app_l by (now rewrite length_fmap).
      rewrite list_lookup_fmap, Hheap. reflexivity.
  - (* table *)
    intros k r. rewrite namesOf_app. cbn [fst].
    destruct (decide (k = name)) as [-> | Hk].
    + rewrite lookup_insert_eq. intros [= <-]. subst ref. split.
      * rewrite Hlen, <- namesOf_length. now rewrite list_lookup_middle.
      * intros r Hr. rewrite lookup_ge_None_2; [discriminate |].
        rewrite length_app, namesOf_length. cbn. lia.
    + rewrite lookup_insert_ne by congruence. intros Hr.
      destruct (shape_table _ _ _ _ S0 _ _ Hr) as [Hat Hafter].
      split; [now apply lookup_app_l_Some |].
      intros r' Hr' Hin. apply lookup_app_Some in Hin as [Hin | [_ Hin]].
      * exact (Hafter _ Hr' Hin).
      * apply list_lookup_singleton_Some in Hin as [_ Hin]. congruence.
  - (* domain *)
    intros k Hin. rewrite namesOf_app in Hin. cbn [fst] in Hin.
    destruct (decide (k = name)) as [-> | Hk].
    + rewrite lookup_insert_eq. eauto.
    + rewrite lookup_insert_ne by congruence.
      apply (shape_domain _ _ _ _ S0).
      apply elem_of_app in Hin as [Hin | Hin]; [exact Hin |].
      apply list_elem_of_singleton in Hin. congruence.
  - (* spacing *)
    apply (shape_spacing _ _ _ _ S0).
  - (* the entries' nodes *)
    intros j n c Hj. apply lookup_app_Some in Hj as [Hj | [Hge Hj]].
    + destruct (shape_node _ _ _ _ S0 j n c Hj)
        as (node0 & p0 & parent0 & Hn0 & Hl & Hc & Hs & Hh & Hle & Hp0 & Hpn0
            & Hlast0 & Hbox).
      destruct (Hcore _ _ Hn0) as (node1 & Hn1 & Hsame1).
      destruct (Hcore _ _ Hp0) as (parent1 & Hp1 & Hsame2).
      destruct Hsame1 as (_ & E2 & E3 & E4 & E5 & E6).
      destruct Hsame2 as (F1 & _ & _ & _ & F5 & _).
      exists node1, p0, parent1.
      rewrite <- E2, <- E3, <- E4, <- E5, <- E6, <- F1, <- F5.
      repeat (split; [assumption |]). split.
      * intros r Hr. rewrite namesOf_app, lookup_app_l.
        -- now apply Hlast0.
        -- apply lookup_lt_Some in Hj. rewrite namesOf_length. lia.
      * exact Hbox.
    + apply list_lookup_singleton_Some in Hj as [Hj0 [= <- <-]].
      assert (Hj : S j = ref) by (subst ref; lia).
      exists node, pref, (Node.addChild parent name ref).
      rewrite list_lookup_insert_ne by lia.
      rewrite list_lookup_insert_eq by (rewrite length_app; cbn; lia).
      rewrite Hj. subst ref. rewrite list_lookup_middle by reflexivity.
      subst node. cbn [Node.level Node.numPoints Node.spacing Node.hasChildren
                       Node.boundingBox Node.name Node.addChild].
      rewrite (shape_spacing _ _ _ _ S0).
      repeat (split; [first [reflexivity | lia | assumption | now symmetry] |]). split.
      * intros r Hr. rewrite namesOf_app, lookup_app_l.
        -- apply Hlast. lia.
        -- rewrite namesOf_length. lia.
      * reflexivity.
  - (* the child slots *)
    intros p nd key c Hp Hslot. rewrite namesOf_app. cbn [fst].
    destruct (decide (p = pref)) as [-> | Hne].
    + rewrite list_lookup_insert_eq in Hp by (rewrite length_app; cbn; lia).
      injection Hp as <-. cbn [Node.addChild Node.children Node.name] in *.
      destruct (decide (key = getIndexFromName name)) as [-> | Hkey].
      * rewrite lookup_insert_eq in Hslot. injection Hslot as <-. subst ref.
        split; [exact Hplt |]. exists name.
        rewrite Hlen, <- namesOf_length.
        split; [now rewrite list_lookup_middle |]. split; [now symmetry | reflexivity].
      * rewrite lookup_insert_ne in Hslot by congruence.
        destruct (shape_slots _ _ _ _ S0 _ _ _ _ Hheap Hslot)
          as (Hlt & cn & Hcn & Hcp & Hci).
        split; [exact Hlt |]. exists cn.
        split; [now apply lookup_app_l_Some | auto].
    + rewrite list_lookup_insert_ne in Hp by congruence.
      apply lookup_app_Some in Hp as [Hp | [_ Hp]].
      * destruct (shape_slots _ _ _ _ S0 _ _ _ _ Hp Hslot)
          as (Hlt & cn & Hcn & Hcp & Hci).
        split; [exact Hlt |]. exists cn.
        split; [now apply lookup_app_l_Some | auto].
      * apply list_lookup_singleton_Some in Hp as [_ <-].
        subst node. cbn [Node.children] in Hslot.
        rewrite lookup_empty in Hslot. discriminate.
Qed.

(** The loop succeeds exactly on a list that is parent before child, and
    fails with a [TypeError] otherwise. *)
Lemma loadEntries_shape spacing0 todo : forall done known st,
  Shape createChildAABB spacing0 done st ->
  (forall x, x ∈ known <-> x ∈ namesOf done) ->
  if parentBeforeChild known todo
  then exists st',
         loadEntries createChildAABB todo st = inr st'
         /\ Shape createChildAABB spacing0 (done ++ todo) st'
  else loadEntries createChildAABB todo st = inl TypeError.
Proof.
  induction todo as [| [name count] rest IH]; intros done known st S0 Hknown.
  - cbn. exists st. rewrite app_nil_r. auto.
  - cbn [parentBeforeChild loadEntries].
    destruct (bool_decide_reflect
                (ParsedName.parentName (parseName name) ∈ known)) as [Hin | Hout];
      cbn [andb].
    + destruct (loadEntry_shape spacing0 done st name count S0
                  ltac:(now apply Hknown)) as (st1 & Hstep & S1).
      rewrite Hstep. cbn [bindResult].
      specialize (IH (done ++ [(name, count)]) (name :: known) st1 S1).
      rewrite <- app_assoc in IH. apply IH.
      intros x. rewrite namesOf_app, elem_of_cons, elem_of_app, Hknown,
        list_elem_of_singleton. cbn. tauto.
    + rewrite loadEntry_missing_parent; [reflexivity |].
      destruct (Store.nodes st !! _) as [ref |] eqn:Href; [| reflexivity].
      exfalso. apply Hout, Hknown.
      apply (Shape_registered _ _ _ _ S0). eauto.
Qed.

End ShapeFacts.

Lemma Shape_root createChildAABB url data numPoints :
  Shape createChildAABB (POCJson.spacing data) [] (rootStore url data numPoints).
Proof.
  constructor; cbn [rootStore Store.heap Store.pco Store.nodes].
  - reflexivity.
  - intros k ref. unfold namesOf. cbn [map].
    rewrite lookup_insert_Some, lookup_empty. intros [[<- <-] | [_ [=]]].
    split; [reflexivity |]. intros [| r] Hr; [lia | discriminate].
  - intros k Hin. unfold namesOf in Hin. cbn [map] in Hin.
    apply list_elem_of_singleton in Hin as ->. rewrite lookup_insert_eq. eauto.
  - reflexivity.
  - intros j name count Hj. rewrite lookup_nil in Hj. discriminate.
  - intros p node key c Hp Hslot.
    apply list_lookup_singleton_Some in Hp as [_ <-].
    cbn in Hslot. rewrite lookup_empty in Hslot. discriminate.
Qed.

Section ParseFacts.

Variable Version : Type.
Variable newVersion : string -> JsResult Version.
Variable upTo : Version -> string -> bool.
Variable createChildAABB : Box3.t -> option Z -> Box3.t.
Variable load : Node.t -> JsResult N.

(** A load that succeeds went through every stage. *)
Lemma loadRoot_rootStore url data version st0 :
  loadRoot Version upTo load (initialStore url data) data version = inr st0 ->
  exists loaded,
    load (rootNode (initialStore url data) (rootCount upTo version data))
    = inr loaded
    /\ st0 = rootStore url data loaded.
Proof.
  intros Hroot. apply loadRoot_inr in Hroot as (loaded & Hload & ->).
  exists loaded. split; [exact Hload | reflexivity].
Qed.

Lemma parse_inr url data st :
  parse Version newVersion upTo createChildAABB load url data = inr st ->
  exists version loaded st1,
    newVersion (POCJson.version data) = inr version
    /\ load (rootNode (initialStore url data) (rootCount upTo version data))
       = inr loaded
    /\ loadEntries createChildAABB (inlineEntries upTo version data)
         (rootStore url data loaded)
       = inr st1
    /\ st = publish st1.
Proof.
  unfold parse. intros H.
  apply bindResult_inr in H as (version & Hv & H).
  apply bindResult_inr in H as (st0 & Hroot & H).
  apply bindResult_inr in H as (st1 & Hrest & [= <-]).
  apply loadRoot_rootStore in Hroot as (loaded & Hload & ->).
  exists version, loaded, st1. split; [exact Hv |].
  split; [exact Hload |]. split; [| reflexivity].
  unfold inlineEntries.
  destruct (upTo version "1.4"); [exact Hrest |].
  cbn [loadEntries]. exact Hrest.
Qed.

Lemma parse_shape url data st :
  parse Version newVersion upTo createChildAABB load url data = inr st ->
  exists version loaded st1,
    newVersion (POCJson.version data) = inr version
    /\ load (rootNode (initialStore url data) (rootCount upTo version data))
       = inr loaded
    /\ Shape createChildAABB (POCJson.spacing data) (inlineEntries upTo version data) st1
    /\ parentBeforeChild ["r"] (inlineEntries upTo version data) = true
    /\ Store.pco st1 = Geometry.setRoot (Store.pco (initialStore url data)) 0%nat
    /\ (exists root,
          Store.heap st1 !! 0%nat = Some root
          /\ sameCore (rootNode (initialStore url data) loaded) root)
    /\ st = publish st1.
Proof.
  intros H. apply parse_inr in H as (version & loaded & st1 & Hv & Hload & Hloop & ->).
  exists version, loaded, st1. split; [exact Hv |]. split; [exact Hload |].
  pose proof (loadEntries_shape createChildAABB (POCJson.spacing data)
                (inlineEntries upTo version data) [] ["r"] _
                (Shape_root createChildAABB url data loaded)
                ltac:(reflexivity)) as Hshape.
  destruct (loadEntries_preserves createChildAABB _ _ _ Hloop) as (_ & Hpco & Hcore).
  destruct (parentBeforeChild ["r"] (inlineEntries upTo version data)).
  - destruct Hshape as (st' & Hloop' & S1).
    rewrite Hloop in Hloop'. injection Hloop' as <-.
    split; [exact S1 |]. split; [reflexivity |]. split; [exact Hpco |].
    split; [| reflexivity]. apply (Hcore 0%nat). reflexivity.
  - rewrite Hloop in Hshape. discriminate.
Qed.

End ParseFacts.

Section ParseOutcome.

Variable Version : Type.
Variable newVersion : string -> JsResult Version.
Variable upTo : Version -> string -> bool.
Variable createChildAABB : Box3.t -> option Z -> Box3.t.
Variable load : Node.t -> JsResult N.

(** [loadRoot] on the store [parse] starts from. *)
Lemma loadRoot_initial url data version :
  loadRoot Version upTo load (initialStore url data) data version
  = if upTo version "1.5" && bool_decide (POCJson.hierarchy data = [])
    then inl TypeError
    else bindResult
           (load (rootNode (initialStore url data) (rootCount upTo version data)))
           (fun loaded => inr (rootStore url data loaded)).
Proof.
  unfold loadRoot, rootCount.
  destruct (upTo version "1.5"); cbn [andb];
    [destruct (POCJson.hierarchy data) as [| [name0 n0] rest] |]; reflexivity.
Qed.

(** [parse], stage by stage. *)
Lemma parse_stages url data :
  parse Version newVersion upTo createChildAABB load url data
  = bindResult (newVersion (POCJson.version data)) (fun version =>
      if upTo version "1.5" && bool_decide (POCJson.hierarchy data = [])
      then inl TypeError
      else bindResult
             (load (rootNode (initialStore url data) (rootCount upTo version data)))
             (fun loaded =>
                bindResult
                  (loadEntries createChildAABB (inlineEntries upTo version data)
                     (rootStore url data loaded))
                  (fun st => inr (publish st)))).
Proof.
  unfold parse. destruct (newVersion (POCJson.version data)) as [e | version];
    [reflexivity |].
  cbn [bindResult]. rewrite loadRoot_initial.
  destruct (upTo version "1.5" && bool_decide (POCJson.hierarchy data = []));
    [reflexivity |].
  destruct (load _) as [e | loaded]; [reflexivity |]. cbn [bindResult].
  unfold inlineEntries, loadRemainingHierarchy.
  destruct (upTo version "1.4"); reflexivity.
Qed.

(** X13.  At or below version 1.4, with a root payload that loads, the
    load succeeds exactly when the flat list is parent before child (each
    later entry's name minus its last character is [r] or the name of an
    entry before it), whether or not names repeat; it then builds one node
    per later entry, and otherwise it is rejected with a [TypeError]. *)
Theorem legacy_build_outcome (url : string) (data : POCJson.t) (version : Version)
    (first : string * N) (rest : list (string * N)) :
  newVersion (POCJson.version data) = inr version ->
  upTo version "1.4" = true ->
  (forall root, exists loaded, load root = inr loaded) ->
  POCJson.hierarchy data = first :: rest ->
  (parentBeforeChild ["r"] rest = true ->
     exists st,
       parse Version newVersion upTo createChildAABB load url data = inr st
       /\ length (Store.heap st) = S (length rest))
  /\ (parentBeforeChild ["r"] rest = false ->
      parse Version newVersion upTo createChildAABB load url data = inl TypeError).
Proof.
  intros Hv Hgate Hload Hh.
  rewrite parse_stages, Hv. cbn [bindResult].
  rewrite Hh, bool_decide_eq_false_2, andb_false_r by discriminate.
  destruct (Hload (rootNode (initialStore url data) (rootCount upTo version data)))
    as [loaded ->].
  cbn [bindResult].
  unfold inlineEntries. rewrite Hgate, Hh. change (drop 1 (first :: rest)) with rest.
  pose proof (loadEntries_shape createChildAABB (POCJson.spacing data) rest [] ["r"] _
                (Shape_root createChildAABB url data loaded)
                ltac:(reflexivity)) as Hshape.
  destruct (parentBeforeChild ["r"] rest).
  - destruct Hshape as (st1 & -> & S1). split; [intros _ | discriminate].
    eexists. split; [reflexivity |].
    cbn [publish Store.heap]. apply (Shape_heap_length _ _ _ _ S1).
  - rewrite Hshape. split; [discriminate | reflexivity].
Qed.

(** X14.  The promise [parse] returns is rejected in exactly four ways,
    tried in this order: the version string is refused (with the error of
    the [Version] constructor); the version is at or below 1.5 and the flat
    list is empty ([TypeError], before the root's payload is requested);
    the root's payload fails to load (with that error, and no later entry
    is looked at); the tree is populated inline and the list is not
    parent before child ([TypeError]). *)
Theorem parse_rejected_iff (url : string) (data : POCJson.t) (e : JsError) :
  parse Version newVersion upTo createChildAABB load url data = inl e
  <-> newVersion (POCJson.version data) = inl e
      \/ exists version,
           newVersion (POCJson.version data) = inr version
           /\ let root := rootNode (initialStore url data)
                                   (rootCount upTo version data) in
              if upTo version "1.5" && bool_decide (POCJson.hierarchy data = [])
              then e = TypeError
              else load root = inl e
                   \/ (exists loaded, load root = inr loaded)
                      /\ parentBeforeChild ["r"] (inlineEntries upTo version data)
                         = false
                      /\ e = TypeError.
Proof.
  rewrite parse_stages.
  destruct (newVersion (POCJson.version data)) as [e0 | version]; cbn [bindResult].
  { split; [intros [= ->]; now left |].
    intros [[= ->] | (version & [=] & _)]. reflexivity. }
  assert (Hshape := fun loaded =>
    loadEntries_shape createChildAABB (POCJson.spacing data)
      (inlineEntries upTo version data) [] ["r"] _
      (Shape_root createChildAABB url data loaded)
      ltac:(reflexivity)).
  split.
  - intros H. right. exists version. split; [reflexivity |]. cbv zeta.
    destruct (upTo version "1.5" && bool_decide (POCJson.hierarchy data = []));
      [now injection H |].
    destruct (load _) as [e1 | loaded]; cbn [bindResult] in H;
      [left; now injection H as -> | right].
    split; [eauto |]. specialize (Hshape loaded).
    destruct (parentBeforeChild ["r"] (inlineEntries upTo version data)).
    + destruct Hshape as (st1 & Hst1 & _). rewrite Hst1 in H. discriminate.
    + rewrite Hshape in H. now injection H.
  - intros [[=] | (version' & [= <-] & H)]. cbv zeta in H.
    destruct (upTo version "1.5" && bool_decide (POCJson.hierarchy data = []));
      [now subst e |].
    destruct H as [-> | ([loaded ->] & Hpbc & ->)]; [reflexivity |].
    cbn [bindResult]. specialize (Hshape loaded).
    rewrite Hpbc in Hshape. now rewrite Hshape.
Qed.

End ParseOutcome.

Section ParseResult.

Variable Version : Type.
Variable newVersion : string -> JsResult Version.
Variable upTo : Version -> string -> bool.
Variable createChildAABB : Box3.t -> option Z -> Box3.t.
Variable load : Node.t -> JsResult N.

(** X15.  In the tree a legacy load builds, whatever names the list
    holds, the node of the [j]-th later entry is the object allocated
    [j + 1]-th after the root: it has the entry's name and point count,
    level [length - 1], spacing [spacing / 2^level] and a cleared
    has-children flag; and its bounding box is [createChildAABB] of the
    box of its parent at the index of its name, the parent being the last
    object allocated before it whose name is the node's name minus its last
    character. *)
Theorem legacy_nodes_from_entries (url : string) (data : POCJson.t)
    (version : Version) (st : Store.t) (j : nat) (name : string) (count : N) :
  newVersion (POCJson.version data) = inr version ->
  upTo version "1.4" = true ->
  parse Version newVersion upTo createChildAABB load url data = inr st ->
  drop 1 (POCJson.hierarchy data) !! j = Some (name, count) ->
  let level := Z.of_nat (String.length name) - 1 in
  let parentName := JsString.substring name 0 level in
  exists node parentRef parent,
    Store.heap st !! S j = Some node
    /\ Node.name node = name
    /\ Node.level node = level
    /\ Node.numPoints node = count
    /\ Node.spacing node = Number.div (POCJson.spacing data) (Math.pow2 level)
    /\ Node.hasChildren node = false
    /\ (parentRef <= j)%nat
    /\ Store.heap st !! parentRef = Some parent
    /\ Node.name parent = parentName
    /\ (forall r other, (parentRef < r <= j)%nat ->
          Store.heap st !! r = Some other -> Node.name other <> parentName)
    /\ Node.boundingBox node
       = createChildAABB (Node.boundingBox parent) (getIndexFromName name).
Proof.
  intros Hv Hgate Hparse Hj level parentName.
  apply parse_shape in Hparse
    as (version' & loaded & st1 & Hv' & _ & S1 & _ & _ & _ & ->).
  assert (version' = version) by congruence. subst version'.
  unfold inlineEntries in S1. rewrite Hgate in S1.
  destruct (shape_node _ _ _ _ S1 j name count Hj)
    as (node & pref & parent & Hn & Hl & Hc & Hs & Hh & Hle & Hp & Hpn & Hlast & Hbox).
  exists node, pref, parent. cbn [publish Store.heap].
  split; [exact Hn |]. split.
  { pose proof (Shape_name _ _ _ _ _ _ S1 Hn) as Hname. unfold namesOf in Hname.
    change (("r" :: map fst (drop 1 (POCJson.hierarchy data))) !! S j)
      with ((fst <$> drop 1 (POCJson.hierarchy data)) !! j) in Hname.
    rewrite list_lookup_fmap, Hj in Hname. now injection Hname. }
  repeat (split; [assumption |]). split; [| exact Hbox].
  intros r other Hr Hother Hname.
  apply (Hlast r Hr). rewrite (Shape_name _ _ _ _ _ _ S1 Hother), Hname.
  reflexivity.
Qed.

(** X16.  After a load that succeeds the geometry's table is the table
    the build filled and its root is the first object, registered as [r]
    (no entry can replace it); the names registered are [r] and the names
    of the entries built; and a name refers to the last object allocated
    under it, so of two entries with one name only the later one is
    reachable by name. *)
Theorem table_refers_to_last_object (url : string) (data : POCJson.t)
    (version : Version) (st : Store.t) :
  newVersion (POCJson.version data) = inr version ->
  parse Version newVersion upTo createChildAABB load url data = inr st ->
  Geometry.nodes (Store.pco st) = Store.nodes st
  /\ Geometry.root (Store.pco st) = Some 0%nat
  /\ Store.nodes st !! "r" = Some 0%nat
  /\ (forall k, is_Some (Store.nodes st !! k)
        <-> k = "r" \/ k ∈ map fst (inlineEntries upTo version data))
  /\ (forall k ref, Store.nodes st !! k = Some ref ->
        exists node,
          Store.heap st !! ref = Some node
          /\ Node.name node = k
          /\ forall r other, (ref < r)%nat ->
               Store.heap st !! r = Some other -> Node.name other <> k).
Proof.
  intros Hv Hparse.
  apply parse_shape in Hparse
    as (version' & loaded & st1 & Hv' & _ & S1 & Hpbc & Hpco & _ & ->).
  assert (version' = version) by congruence. subst version'.
  cbn [publish Store.heap Store.pco Store.nodes Geometry.setNodes Geometry.nodes
       Geometry.root].
  split; [reflexivity |]. split; [now rewrite Hpco |]. split; [| split].
  - destruct (shape_domain _ _ _ _ S1 "r" ltac:(left)) as [ref Href].
    destruct (shape_table _ _ _ _ S1 _ _ Href) as [Hat _].
    destruct ref as [| ref]; [exact Href | exfalso].
    destruct (parentBeforeChild_names _ _ Hpbc) as [Hroot _].
    { rewrite list_elem_of_singleton. discriminate. }
    apply Hroot. eapply list_elem_of_lookup_2. exact Hat.
  - intros k. rewrite (Shape_registered _ _ _ _ _ S1). unfold namesOf.
    rewrite elem_of_cons. reflexivity.
  - intros k ref Href.
    destruct (shape_table _ _ _ _ S1 _ _ Href) as [Hat Hlast].
    pose proof Hat as Hheap.
    rewrite <- (shape_names _ _ _ _ S1), list_lookup_fmap in Hheap.
    apply fmap_Some in Hheap as (node & Hnode & Hk).
    exists node. split; [exact Hnode |]. split; [now symmetry |].
    intros r other Hr Hother Hname. apply (Hlast r Hr).
    rewrite (Shape_name _ _ _ _ _ _ S1 Hother), Hname. reflexivity.
Qed.

(** X17.  Every child slot filled by a load holds a child: the object in
    slot [key] of a node was allocated after that node, its name is the
    node's name followed by one character, and [key] is the index of that
    name.  (So the child slots never form a cycle.) *)
Theorem child_slots_hold_children (url : string) (data : POCJson.t)
    (st : Store.t) (p : nat) (node : Node.t) (key : option Z) (c : nat) :
  parse Version newVersion upTo createChildAABB load url data = inr st ->
  Store.heap st !! p = Some node ->
  Node.children node !! key = Some c ->
  exists child last,
    Store.heap st !! c = Some child
    /\ (p < c)%nat
    /\ Node.name child = (Node.name node ++ String last "")%string
    /\ getIndexFromName (Node.name child) = key
    /\ key = ParseInt.digit last.
Proof.
  intros Hparse Hp Hslot.
  apply parse_shape in Hparse
    as (version & loaded & st1 & _ & _ & S1 & Hpbc & _ & _ & ->).
  cbn [publish Store.heap] in *.
  destruct (shape_slots _ _ _ _ S1 _ _ _ _ Hp Hslot)
    as (Hlt & childName & Hcn & Hparent & Hindex).
  pose proof Hcn as Hheap.
  rewrite <- (shape_names _ _ _ _ S1), list_lookup_fmap in Hheap.
  apply fmap_Some in Hheap as (child & Hchild & ->).
  assert (Hne : Node.name child <> "").
  { intros Hempty. rewrite Hempty in Hcn.
    destruct (parentBeforeChild_names _ _ Hpbc) as [_ Hnone].
    { rewrite list_elem_of_singleton. discriminate. }
    apply list_elem_of_lookup_2 in Hcn. unfold namesOf in Hcn.
    apply elem_of_cons in Hcn as [Hcn | Hcn]; [discriminate | exact (Hnone Hcn)]. }
  destruct (get_last_nonempty _ Hne) as [last Hget].
  pose proof (substring_init _ _ Hget) as Hsplit.
  rewrite <- parentName_substring, Hparent in Hsplit.
  exists child, last. split; [exact Hchild |]. split; [exact Hlt |].
  split; [exact Hsplit |]. split; [exact Hindex |].
  rewrite <- Hindex. rewrite Hsplit at 1. apply getIndexFromName_app.
Qed.

End ParseResult.

Section ParsedGeometry.

Variable Version : Type.
Variable newVersion : string -> JsResult Version.
Variable upTo : Version -> string -> bool.
Variable createChildAABB : Box3.t -> option Z -> Box3.t.
Variable load : Node.t -> JsResult N.

Lemma parse_pco url data st :
  parse Version newVersion upTo createChildAABB load url data = inr st ->
  exists version loaded root,
    newVersion (POCJson.version data) = inr version
    /\ Store.pco st
       = Geometry.setNodes
           (Geometry.setRoot (Store.pco (initialStore url data)) 0%nat)
           (Store.nodes st)
    /\ Store.heap st !! 0%nat = Some root
    /\ sameCore (rootNode (initialStore url data) loaded) root.
Proof.
  intros Hparse.
  apply parse_shape in Hparse
    as (version & loaded & st1 & Hv & _ & _ & _ & Hpco & (root & Hroot & Hcore) & ->).
  exists version, loaded, root. cbn [publish Store.pco Store.heap Store.nodes].
  rewrite Hpco. auto.
Qed.

(** X18.  The geometry a load resolves with is filled from the document
    and the URL given to [parse]: URL, octree directory, spacing, hierarchy
    step size, projection and point attributes are copied, the update flag
    is set, the offset is the declared minimum corner, and the boxes are
    those of [getBoundingBoxes]; none of it is touched by building the
    tree.  The root node takes the geometry's bounding box and spacing, is
    at level 0 and has its has-children flag set. *)
Theorem parse_fills_geometry (url : string) (data : POCJson.t) (st : Store.t) :
  parse Version newVersion upTo createChildAABB load url data = inr st ->
  let pco := Store.pco st in
  let declared := POCJson.boundingBox data in
  Geometry.url pco = url
  /\ Geometry.octreeDir pco = POCJson.octreeDir data
  /\ Geometry.needsUpdate pco = true
  /\ Geometry.spacing pco = POCJson.spacing data
  /\ Geometry.hierarchyStepSize pco = POCJson.hierarchyStepSize data
  /\ Geometry.projection pco = POCJson.projection data
  /\ Geometry.pointAttributes pco = POCJson.pointAttributes data
  /\ Geometry.offset pco
     = Vector3.mk (BoundingBoxData.lx declared) (BoundingBoxData.ly declared)
                  (BoundingBoxData.lz declared)
  /\ Geometry.boundingBox pco = BoundingBoxes.boundingBox (getBoundingBoxes data)
  /\ Geometry.tightBoundingBox pco
     = BoundingBoxes.tightBoundingBox (getBoundingBoxes data)
  /\ exists root,
       Store.heap st !! 0%nat = Some root
       /\ Node.boundingBox root = Geometry.boundingBox pco
       /\ Node.spacing root = Geometry.spacing pco
       /\ Node.level root = 0
       /\ Node.hasChildren root = true.
Proof.
  intros Hparse pco declared.
  destruct (parse_pco _ _ _ Hparse)
    as (version & loaded & root & _ & Hpco & Hroot & Hcore).
  subst pco. rewrite Hpco.
  repeat (split; [reflexivity |]).
  exists root. split; [exact Hroot |].
  destruct Hcore as (_ & <- & _ & <- & <- & <-). repeat split.
Qed.

End ParsedGeometry.

Section LoadPOCFacts.

Variable Version : Type.
Variable newVersion : string -> JsResult Version.
Variable upTo : Version -> string -> bool.
Variable createChildAABB : Box3.t -> option Z -> Box3.t.
Variable load : Node.t -> JsResult N.
Variable Response : Type.
Variable getUrl : string -> Call.t (JsResult string).
Variable xhrRequest : string -> RequestInit.t -> JsResult Response.
Variable json : Response -> JsResult POCJson.t.

(** X19.  [loadPOC] throws only if [getUrl] throws; otherwise it returns
    a promise.  The promise fulfils exactly when [getUrl] yields a URL, the
    request for that URL (made with mode [cors]) yields a response, the
    response's body parses to a document, and [parse] succeeds on it; the
    geometry then carries the URL [getUrl] produced, not the one
    [loadPOC] was given.  A rejection of [getUrl]'s promise rejects the
    load with the same error and without a request. *)
Theorem loadPOC_outcome (url : string) :
  let run := loadPOC Version newVersion upTo createChildAABB load
                     Response getUrl xhrRequest json in
  (forall e, run url = Call.Throws e <-> getUrl url = Call.Throws e)
  /\ (forall st, run url = Call.Returns (inr st) <->
        exists transformedUrl res data,
          getUrl url = Call.Returns (inr transformedUrl)
          /\ xhrRequest transformedUrl (RequestInit.mk "cors") = inr res
          /\ json res = inr data
          /\ parse Version newVersion upTo createChildAABB load transformedUrl data
             = inr st
          /\ Geometry.url (Store.pco st) = transformedUrl)
  /\ (forall e, getUrl url = Call.Returns (inl e) ->
        run url = Call.Returns (inl e)).
Proof.
  intros run. subst run. unfold loadPOC.
  destruct (getUrl url) as [e0 | [e0 | t]]; cbn [bindResult].
  - split; [| split].
    + intros e. split; intros [= ->]; reflexivity.
    + intros st. split; [discriminate | intros (t & res & data & [=] & _)].
    + discriminate.
  - split; [| split].
    + intros e. split; discriminate.
    + intros st. split; [discriminate | intros (t & res & data & [=] & _)].
    + now intros e [= ->].
  - split; [| split].
    + intros e. split; discriminate.
    + intros st. split.
      * intros [= H].
        apply bindResult_inr in H as (res & Hres & H).
        apply bindResult_inr in H as (data & Hdata & H).
        exists t, res, data. repeat (split; [first [reflexivity | assumption] |]).
        destruct (parse_pco _ _ _ _ _ _ _ _ H) as (_ & _ & _ & _ & -> & _).
        reflexivity.
      * intros (t' & res & data & [= <-] & -> & Hdata & Hparse & _).
        cbn [bindResult]. rewrite Hdata. cbn [bindResult]. now rewrite Hparse.
    + discriminate.
Qed.

End LoadPOCFacts.

(** ** The further loader properties on the sample documents *)

Lemma legacy_build_outcome_witness :
  exists st,
    SampleDoc.parseDoc "cloud.js" SampleDoc.duplicated = inr st
    /\ length (Store.heap st) = 3%nat.
Proof.
  assert (Hpbc : parentBeforeChild ["r"] [("r0", 40%N); ("r0", 50%N)] = true)
    by (vm_compute; reflexivity).
  exact (proj1 (legacy_build_outcome VersionSpec.t
                  (VersionSpec.construct (Other "FormatError")) VersionSpec.upTo
                  (fun box _ => box) SampleDoc.payload
                  "cloud.js" SampleDoc.duplicated [1%N; 4%N] ("r", 100%N)
                  [("r0", 40%N); ("r0", 50%N)]
                  eq_refl eq_refl
                  (fun _ => ex_intro _ 7%N eq_refl) eq_refl) Hpbc).
Defined.

Lemma legacy_nodes_from_entries_witness :
  exists node parentRef parent,
    Store.heap (SampleTree.loaded SampleDoc.legacy) !! 2%nat = Some node
    /\ Node.name node = "r03"
    /\ Store.heap (SampleTree.loaded SampleDoc.legacy) !! parentRef = Some parent
    /\ Node.name parent = "r0"
    /\ Node.boundingBox node = SampleTree.tagged (Node.boundingBox parent) (Some 3).
Proof.
  assert (Hparse : SampleTree.parseTagged "cloud.js" SampleDoc.legacy
                   = inr (SampleTree.loaded SampleDoc.legacy))
    by (vm_compute; reflexivity).
  destruct (legacy_nodes_from_entries VersionSpec.t
              (VersionSpec.construct (Other "FormatError")) VersionSpec.upTo
              SampleTree.tagged SampleDoc.payload
              "cloud.js" SampleDoc.legacy [1%N; 4%N]
              (SampleTree.loaded SampleDoc.legacy) 1 "r03" 10%N
              eq_refl eq_refl Hparse eq_refl)
    as (node & pref & parent & Hn & Hname & _ & _ & _ & _ & _ & Hp & Hpn & _ & Hbox).
  exists node, pref, parent. repeat split; assumption.
Defined.

Lemma table_refers_to_last_object_witness :
  Store.nodes (SampleDoc.loaded SampleDoc.duplicated) !! "r" = Some 0%nat
  /\ exists node,
       Store.heap (SampleDoc.loaded SampleDoc.duplicated) !! 2%nat = Some node
       /\ Node.name node = "r0".
Proof.
  assert (Hparse : SampleDoc.parseDoc "cloud.js" SampleDoc.duplicated
                   = inr (SampleDoc.loaded SampleDoc.duplicated))
    by (vm_compute; reflexivity).
  assert (Hr0 : Store.nodes (SampleDoc.loaded SampleDoc.duplicated) !! "r0"
                = Some 2%nat) by (vm_compute; reflexivity).
  destruct (table_refers_to_last_object VersionSpec.t
              (VersionSpec.construct (Other "FormatError")) VersionSpec.upTo
              (fun box _ => box) SampleDoc.payload
              "cloud.js" SampleDoc.duplicated [1%N; 4%N]
              (SampleDoc.loaded SampleDoc.duplicated) eq_refl Hparse)
    as (_ & _ & Hroot & _ & Hlast).
  split; [exact Hroot |].
  destruct (Hlast "r0" 2%nat Hr0) as (node & Hnode & Hname & _).
  exists node. split; assumption.
Defined.

Lemma child_slots_hold_children_witness :
  exists child last,
    Store.heap (SampleDoc.loaded SampleDoc.legacy) !! 2%nat = Some child
    /\ Node.name child = ("r0" ++ String last "")%string
    /\ Some 3 = ParseInt.digit last.
Proof.
  assert (Hparse : SampleDoc.parseDoc "cloud.js" SampleDoc.legacy
                   = inr (SampleDoc.loaded SampleDoc.legacy))
    by (vm_compute; reflexivity).
  assert (Hp : exists node,
             Store.heap (SampleDoc.loaded SampleDoc.legacy) !! 1%nat = Some node
             /\ Node.children node !! Some 3 = Some 2%nat
             /\ Node.name node = "r0")
    by (vm_compute; eexists; repeat split).
  destruct Hp as (node & Hnode & Hslot & Hname).
  destruct (child_slots_hold_children VersionSpec.t
              (VersionSpec.construct (Other "FormatError")) VersionSpec.upTo
              (fun box _ => box) SampleDoc.payload
              "cloud.js" SampleDoc.legacy (SampleDoc.loaded SampleDoc.legacy)
              1 node (Some 3) 2 Hparse Hnode Hslot)
    as (child & last & Hchild & _ & Hcname & _ & Hkey).
  exists child, last. rewrite Hname in Hcname. repeat split; assumption.
Defined.

Lemma parse_fills_geometry_witness :
  Geometry.url (Store.pco (SampleDoc.loaded SampleDoc.legacy)) = "cloud.js"
  /\ Geometry.needsUpdate (Store.pco (SampleDoc.loaded SampleDoc.legacy)) = true
  /\ Geometry.offset (Store.pco (SampleDoc.loaded SampleDoc.legacy))
     = Vector3.mk (Number.ofZ 0) (Number.ofZ 0) (Number.ofZ 0).
Proof.
  assert (Hparse : SampleDoc.parseDoc "cloud.js" SampleDoc.legacy
                   = inr (SampleDoc.loaded SampleDoc.legacy))
    by (vm_compute; reflexivity).
  destruct (parse_fills_geometry VersionSpec.t
              (VersionSpec.construct (Other "FormatError")) VersionSpec.upTo
              (fun box _ => box) SampleDoc.payload
              "cloud.js" SampleDoc.legacy (SampleDoc.loaded SampleDoc.legacy) Hparse)
    as (Hurl & _ & Hupdate & _ & _ & _ & _ & Hoffset & _).
  repeat split; assumption.
Defined.

Lemma loadPOC_outcome_witness :
  SampleFetch.loadSample "" = Call.Throws (Other "EmptyUrl")
  /\ exists st,
       SampleFetch.loadSample "cloud.js" = Call.Returns (inr st)
       /\ Geometry.url (Store.pco st) = "cloud.js?token=1".
Proof.
  destruct (loadPOC_outcome VersionSpec.t
              (VersionSpec.construct (Other "FormatError")) VersionSpec.upTo
              (fun box _ => box) SampleDoc.payload
              POCJson.t SampleFetch.sign SampleFetch.fetch inr "")
    as (Hthrow & _).
  split; [apply Hthrow; vm_compute; reflexivity |].
  destruct (loadPOC_outcome VersionSpec.t
              (VersionSpec.construct (Other "FormatError")) VersionSpec.upTo
              (fun box _ => box) SampleDoc.payload
              POCJson.t SampleFetch.sign SampleFetch.fetch inr "cloud.js")
    as (_ & Hfulfil & _).
  assert (Hrun : exists st, SampleFetch.loadSample "cloud.js" = Call.Returns (inr st))
    by (vm_compute; eexists; reflexivity).
  destruct Hrun as [st Hrun]. exists st. split; [exact Hrun |].
  destruct (proj1 (Hfulfil st) Hrun) as (t & res & data & Hget & _ & _ & _ & Hurl).
  vm_compute in Hget. injection Hget as <-. exact Hurl.
Defined.
